(** * ResultDisplay: text reconstruction, edit history, highlight latch, zoom

    A shallow embedding of the interactive core of
    [src/components/FontShowcase.tsx] (the [ZoomableImage] and
    [ResultDisplay] components) and of the [Word]/[BoundingBox] types of
    [src/unnamed/part_000], followed by the gallery state of [App] in the
    same file (uploads, selection, analysis, zoom, export) and the prompt
    selection and error messages of [src/services/geminiService.ts] and the
    chat of [src/unnamed/part_002].

    Conventions of the embedding:
    - a JavaScript [number] that holds geometry is an IEEE-754 binary64
      value, modelled by the Standard Library's [spec_float] at precision 53
      and maximal exponent 1024, so that every arithmetic operation rounds
      exactly as the engine does;
    - an array index is an integer [Z];
    - a JavaScript string is the list of its UTF-16 code units;
    - a property read on [undefined] raises [TypeError]; code that can raise
      lives in the [result] monad;
    - React state and refs of one [ResultDisplay] instance are the fields of
      the record [Session.t]; every handler is a function on that record. *)

From Stdlib Require Import ZArith NArith Lia Bool.
From Stdlib Require Import Strings.String Strings.Ascii DecimalString DecimalN.
From Stdlib Require Import Floats.FloatClass Floats.SpecFloat.
From stdpp Require Import base tactics option list.

Open Scope Z_scope.

(* ===================================================================== *)
(** * JavaScript values used by the component                             *)
(* ===================================================================== *)

Module JS.

(** ** Strings: sequences of UTF-16 code units (each below 2^16; nothing
    below depends on the bound) *)

Abbreviation codeunit := N (only parsing).
Abbreviation jsstring := (list codeunit) (only parsing).

Definition SPACE : codeunit := 32%N.       (* ' '  *)
Definition NEWLINE : codeunit := 10%N.     (* '\n' *)
Definition CR : codeunit := 13%N.          (* '\r' *)

(** [el.innerText = s] followed by a read of [el.innerText], for an element
    styled [white-space: pre-wrap].  The setter replaces the children of the
    element by text nodes, with one [<br>] for every line break of [s] (a
    LF, a CR, or a CR followed by a LF); the getter reads a [<br>] as LF and
    a text node as its text. *)
Fixpoint innerText_written (s : jsstring) : jsstring :=
  match s with
  | [] => []
  | c :: rest =>
      if (c =? CR)%N
      then NEWLINE ::
           match rest with
           | d :: rest' =>
               if (d =? NEWLINE)%N then innerText_written rest'
               else innerText_written rest
           | [] => []
           end
      else c :: innerText_written rest
  end.

(** The string "undefined", which is what a DOMString setter stores when it
    is handed [undefined]. *)
Definition undefined_string : jsstring :=
  [117; 110; 100; 101; 102; 105; 110; 101; 100]%N.

(** ** Numbers: binary64 *)

Definition prec : Z := 53.
Definition emax : Z := 1024.

Definition number := spec_float.

Definition NaN : number := S754_nan.
Definition ofZ (z : Z) : number := binary_normalize prec emax z 0 false.

Definition add : number -> number -> number := SFadd prec emax.
Definition sub : number -> number -> number := SFsub prec emax.
Definition mul : number -> number -> number := SFmul prec emax.
Definition div : number -> number -> number := SFdiv prec emax.
Definition lt : number -> number -> bool := SFltb.
Definition le : number -> number -> bool := SFleb.
Definition Math_abs : number -> number := SFabs.

(** A value of the float format: canonical mantissa, exponent in range. *)
Definition is_number (v : number) : bool := valid_binary prec emax v.

(** The class of a value: zero, subnormal, normal, infinite or NaN, with its
    sign. *)
Definition classify (v : number) : float_class := SFclassify prec v.

(** The number of low bits that rounding drops from a 105- or 106-bit
    product [P * 2^(e-53)] of two 53-bit mantissas: one bit more when the
    product has 106 bits or sits at the bottom of the exponent range. *)
Definition product_shift (P e : Z) : Z :=
  if (P <? 2 ^ 105) && (-1073 <=? e) then 52 else 53.

(** [Math.min]: NaN if either argument is NaN, and -0 is below +0. *)
Definition Math_min (a b : number) : number :=
  match SFcompare a b with
  | None => NaN
  | Some Lt => a
  | Some Gt => b
  | Some Eq => match a with S754_zero true => a | _ => b end
  end.

(** [Math.max]: NaN if either argument is NaN, and +0 is above -0. *)
Definition Math_max (a b : number) : number :=
  match SFcompare a b with
  | None => NaN
  | Some Gt => a
  | Some Lt => b
  | Some Eq => match a with S754_zero false => a | _ => b end
  end.

(** Numeric literals of the source, each the double nearest to the decimal
    (see [NumberFacts.literals_nearest]). *)
Definition lit_0_5 : number := S754_finite false 4503599627370496 (-53).
Definition lit_0_7 : number := S754_finite false 6305039478318694 (-53).
Definition lit_1_2 : number := S754_finite false 5404319552844595 (-52).
Definition lit_1 : number := S754_finite false 4503599627370496 (-52).
Definition lit_2 : number := S754_finite false 4503599627370496 (-51).
Definition lit_5 : number := S754_finite false 5629499534213120 (-50).

(** The double that a decimal literal [n/d] denotes, for integers [n] and
    [d] below 2^53: the correctly rounded quotient, as a number parser yields
    it.  Used for test data. *)
Definition decimal (n d : Z) : number := div (ofZ n) (ofZ d).

(** ** Exceptions *)

Inductive exn := TypeError.

Inductive result (A : Type) : Type :=
| Ok (a : A)
| Throw (e : exn).
Arguments Ok {A} a.
Arguments Throw {A} e.

Definition bind {A B} (m : result A) (k : A -> result B) : result B :=
  match m with
  | Ok a => k a
  | Throw e => Throw e
  end.

(** ** Arrays *)

(** [arr[i]] for an integer [i]: [undefined] (here [None]) out of range. *)
Definition get {A} (arr : list A) (i : Z) : option A :=
  if i <? 0 then None else arr !! Z.to_nat i.

(** The clamping of a relative index done by [Array.prototype.slice]. *)
Definition relative_index (len i : Z) : Z :=
  if i <? 0 then Z.max (len + i) 0 else Z.min i len.

(** [arr.slice(start, end)]. *)
Definition slice {A} (arr : list A) (start end_ : Z) : list A :=
  let len := Z.of_nat (length arr) in
  let k := relative_index len start in
  let final := relative_index len end_ in
  take (Z.to_nat (final - k)) (drop (Z.to_nat k) arr).

(** [arr.push(v)], as a new array. *)
Definition push {A} (arr : list A) (v : A) : list A := arr ++ [v].

(** [Array.prototype.sort(comparefn)].  The language fixes that the sort is
    stable and that a comparator result of NaN counts as +0; the sequence
    of comparator calls is left to the engine.  The model is the stable
    insertion sort: an element moves behind a neighbour exactly when the
    comparator, called on (element, neighbour), is positive.  A comparator
    that raises aborts the sort.  For a comparator that is not a consistent
    order (one that returns NaN for some pairs) the resulting order depends
    on the engine's algorithm, and the model gives the order of this one
    algorithm; that the result is a permutation of the input holds for
    every algorithm. *)
Definition positive_result (v : number) : bool := lt (S754_zero false) v.

Fixpoint sort_insert {A} (comparefn : A -> A -> result number)
    (a : A) (sorted : list A) : result (list A) :=
  match sorted with
  | [] => Ok [a]
  | b :: rest =>
      bind (comparefn a b) (fun v =>
      if positive_result v
      then bind (sort_insert comparefn a rest) (fun rest' => Ok (b :: rest'))
      else Ok (a :: b :: rest))
  end.

Fixpoint sort {A} (comparefn : A -> A -> result number)
    (arr : list A) : result (list A) :=
  match arr with
  | [] => Ok []
  | a :: rest => bind (sort comparefn rest) (sort_insert comparefn a)
  end.

End JS.

#[global] Instance result_bind : MBind JS.result := fun _ _ k m => JS.bind m k.
#[global] Instance result_ret : MRet JS.result := fun _ a => JS.Ok a.

(* ===================================================================== *)
(** * Word geometry and text reconstruction                               *)
(* ===================================================================== *)

Module Reconstruct.
Import JS.

(** [interface BoundingBox].  A field absent at run time reads as
    [undefined], which every arithmetic use below coerces to NaN: such a
    field is the value [NaN] here. *)
Record BoundingBox := {
  x : number;
  y : number;
  width : number;
  height : number;
}.

(** [interface Word].  The analysis result is a cast of parsed JSON and is
    never validated, so at run time the [boundingBox] property can be
    absent ([None]). *)
Record Word := {
  text : jsstring;
  boundingBox : option BoundingBox;
}.

(** [word.boundingBox.<field>]: reading a field of an absent box raises. *)
Definition box (word : option Word) : result BoundingBox :=
  match word with
  | Some {| boundingBox := Some b |} => Ok b
  | _ => Throw TypeError
  end.

(** [(a, b) => a.boundingBox.y - b.boundingBox.y] *)
Definition by_y_ascending (a b : Word) : result number :=
  ba ← box (Some a); bb ← box (Some b); Ok (sub (y ba) (y bb)).

(** [(a, b) => b.boundingBox.x - a.boundingBox.x] *)
Definition by_x_descending (a b : Word) : result number :=
  bb ← box (Some b); ba ← box (Some a); Ok (sub (x bb) (x ba)).

(** [b.y + b.height / 2] *)
Definition centerY (b : BoundingBox) : number :=
  add (y b) (div (height b) lit_2).

(** The test of line 253:
    [Math.abs(wordCenterY - referenceCenterY) < ref.height * 0.7]. *)
Definition distance (ref word : BoundingBox) : number :=
  Math_abs (sub (centerY word) (centerY ref)).

Definition threshold (ref : BoundingBox) : number :=
  mul (height ref) lit_0_7.

Definition same_line (ref word : BoundingBox) : bool :=
  lt (distance ref word) (threshold ref).

(** The [for] loop of lines 248-259 over [sortedWords[1..]].  In the source
    [lines] holds the array [currentLine] by reference and [push] mutates
    it in place; here [lines] holds the lines already closed and
    [currentLine] the one still growing, which is appended at loop exit. *)
Fixpoint group_loop (rest : list Word) (lines : list (list Word))
    (currentLine : list Word) : result (list (list Word)) :=
  match rest with
  | [] => Ok (push lines currentLine)
  | word :: rest' =>
      ref ← box (get currentLine 0);
      wb ← box (Some word);
      if same_line ref wb
      then group_loop rest' lines (push currentLine word)
      else group_loop rest' (push lines currentLine) [word]
  end.

(** Lines 243-260. *)
Definition group_lines (words : list Word) : result (list (list Word)) :=
  match words with
  | [] => Ok []
  | _ =>
      sortedWords ← sort by_y_ascending words;
      match sortedWords with
      | [] => Ok []
      | first :: rest => group_loop rest [] [first]
      end
  end.

(** The text nodes appended for one (already sorted) line, lines 265-275:
    the word's text, then a space unless the word is the last one. *)
Definition line_nodes (line : list Word) : list jsstring :=
  imap (fun wordIndex word =>
          text word ++
          (if Z.of_nat wordIndex <? Z.of_nat (length line) - 1
           then [SPACE] else []))
       line.

(** Lines 263-280: each line is sorted right to left, its nodes are
    appended, then a newline unless the line is the last one. *)
Fixpoint render_loop (n : Z) (lineIndex : nat) (lines : list (list Word))
    : result (list jsstring) :=
  match lines with
  | [] => Ok []
  | line :: lines' =>
      sortedLine ← sort by_x_descending line;
      nodes ← render_loop n (S lineIndex) lines';
      Ok (line_nodes sortedLine ++
          (if Z.of_nat lineIndex <? n - 1 then [[NEWLINE]] else []) ++
          nodes)
  end.

(** [editorRef.current.innerText] of an element styled
    [white-space: pre-wrap] whose children are spans and text nodes: the
    concatenation of their texts. *)
Definition innerText (nodes : list jsstring) : jsstring := concat nodes.

(** The whole effect body up to [initialText], lines 243-281. *)
Definition reconstruct (words : list Word) : result jsstring :=
  lines ← group_lines words;
  nodes ← render_loop (Z.of_nat (length lines)) 0 lines;
  Ok (innerText nodes).

(** The render of the word overlay by [ZoomableImage], lines 150-170 of
    the file: the [x], [y], [width] and [height] of every word's box are
    read to place its rectangle, so a word without [boundingBox] makes the
    render raise. *)
Fixpoint overlay (words : list Word) : result (list BoundingBox) :=
  match words with
  | [] => Ok []
  | word :: words' =>
      b ← box (Some word); boxes ← overlay words'; Ok (b :: boxes)
  end.

(** The subnormal double of mantissa [m]: [m * 2^-1074]. *)
Definition subnormal (m : positive) : number := S754_finite false m (-1074).

(** [height * 0.69 < height * 0.7], as computed. *)
Definition products_differ (h : number) : bool :=
  lt (mul h (decimal 69 100)) (mul h lit_0_7).

(** The mantissas below 200 of the subnormal heights at which the two
    products round to the same double. *)
Definition collapsing_mantissas : list positive :=
  Eval vm_compute in
    filter (fun m => products_differ (subnormal m) = false)
           (map Z.to_pos (seqZ 1 199)).

Definition collapsing_heights : list number :=
  map subnormal collapsing_mantissas.

(** The word carries a [boundingBox] object. *)
Definition has_box (word : Word) : Prop := is_Some (boundingBox word).

(** [t] is a contiguous part of [buffer]. *)
Definition occurs_in (t buffer : jsstring) : Prop :=
  exists before after, buffer = before ++ t ++ after.

(** A word with the given text and geometry. *)
Definition word_at (t : jsstring) (bx by_ bw bh : number) : Word :=
  {| text := t;
     boundingBox := Some {| x := bx; y := by_; width := bw; height := bh |} |}.

End Reconstruct.

(* ===================================================================== *)
(** * Zoom controls of [ZoomableImage]                                    *)
(* ===================================================================== *)

Module Zoom.
Import JS.

(** [handleZoomIn]: the value passed to [onScaleChange], which the owner
    stores and hands back as the next [scale] prop. *)
Definition handleZoomIn (scale : number) : number :=
  Math_min (mul scale lit_1_2) lit_5.

(** [handleZoomOut]. *)
Definition handleZoomOut (scale : number) : number :=
  Math_max (div scale lit_1_2) lit_0_5.

(** [handleWheel]: one discrete step per event, by the sign of [deltaY]. *)
Definition handleWheel (deltaY scale : number) : number :=
  if lt deltaY (S754_zero false) then handleZoomIn scale
  else handleZoomOut scale.

(** [handleReset], scale part. *)
Definition handleReset (scale : number) : number := lit_1.

(** [n] clicks on a zoom button. *)
Definition repeat_zoom (zoom : number -> number) (n : nat) (scale : number)
    : number :=
  Nat.iter n zoom scale.

(** The controls of the viewer that change the scale. *)
Inductive action :=
| ZoomIn
| ZoomOut
| Reset
| Wheel (deltaY : number).

Definition act (scale : number) (a : action) : number :=
  match a with
  | ZoomIn => handleZoomIn scale
  | ZoomOut => handleZoomOut scale
  | Reset => handleReset scale
  | Wheel deltaY => handleWheel deltaY scale
  end.


#[global] Instance number_eq_dec : EqDecision number.
Proof. solve_decision. Defined.

(** One round of exploration: the scales at hand and those one click away. *)
Definition explore (scales : list number) : list number :=
  remove_dups
    (scales ++ map handleZoomIn scales ++ map handleZoomOut scales).

(** The scales that clicks can produce from the initial scale 1. *)
Definition reachable_scales : list number :=
  Eval vm_compute in Nat.iter 30 explore [lit_1].

End Zoom.

(* ===================================================================== *)
(** * Removal of diacritics for copy and export                           *)
(* ===================================================================== *)

Module Diacritics.
Import JS.

(** A character class is a list of inclusive code-unit ranges. *)
Definition char_class := list (codeunit * codeunit).

Definition class_matches (cls : char_class) (c : codeunit) : bool :=
  existsb (fun '(lo, hi) => (lo <=? c)%N && (c <=? hi)%N) cls.

(** [text.replace(/[cls]/g, replacement)] for a pattern that is a single
    character class (no [u] flag, so it matches one code unit): the scan
    goes left to right, every matching code unit is replaced, every other
    one is copied. *)
Fixpoint replace_class_global (cls : char_class) (replacement : jsstring)
    (text : jsstring) : jsstring :=
  match text with
  | [] => []
  | c :: rest =>
      (if class_matches cls c then replacement else [c])
        ++ replace_class_global cls replacement rest
  end.

(** The class of [/[\u064B-\u0652\u0640]/g]. *)
Definition diacritics_class : char_class :=
  [(0x064B, 0x0652); (0x0640, 0x0640)]%N.

Definition removeDiacritics (text : jsstring) : jsstring :=
  replace_class_global diacritics_class [] text.

(** The transform as the specification words it: drop the characters in
    U+064B..U+0652 and U+0640, keep the others in order. *)
Definition is_stripped (c : codeunit) : Prop :=
  (0x064B <= c <= 0x0652)%N \/ c = 0x0640%N.

#[global] Instance is_stripped_dec c : Decision (is_stripped c).
Proof. unfold is_stripped. apply _. Defined.

Definition strip_spec (s : jsstring) : jsstring :=
  filter (fun c => ~ is_stripped c) s.

End Diacritics.

(* ===================================================================== *)
(** * The undo/redo history                                               *)
(* ===================================================================== *)

Module History.
Import JS.

(** [{stack: string[], index: number}] *)
Record t := {
  stack : list jsstring;
  index : Z;
}.

(** [useState({ stack: [''], index: 0 })] *)
Definition initial : t := {| stack := [[]]; index := 0 |}.

(** [setHistory({ stack: [initialText], index: 0 })] *)
Definition reset (initialText : jsstring) : t :=
  {| stack := [initialText]; index := 0 |}.

(** [history.stack[history.index]] *)
Definition current (h : t) : option jsstring := get (stack h) (index h).

(** The updater of lines 298-305. *)
Definition commit (currentText : jsstring) (prevHistory : t) : t :=
  if decide (Some currentText = current prevHistory) then prevHistory
  else
    let newStack :=
      push (slice (stack prevHistory) 0 (index prevHistory + 1))
           currentText in
    {| stack := newStack; index := Z.of_nat (length newStack) - 1 |}.

Definition isEdited (h : t) : bool := 0 <? index h.
Definition canUndo (h : t) : bool := 0 <? index h.
Definition canRedo (h : t) : bool :=
  index h <? Z.of_nat (length (stack h)) - 1.

(** [{ ...prev, index: newIndex }] *)
Definition move (newIndex : Z) (prev : t) : t :=
  {| stack := stack prev; index := newIndex |}.

(** The history part of [handleUndo] and [handleRedo]. *)
Definition undo (h : t) : t :=
  if canUndo h then move (index h - 1) h else h.

Definition redo (h : t) : t :=
  if canRedo h then move (index h + 1) h else h.

(** The invariant of the data model: the cursor is inside the snapshot
    sequence, whose first entry is the reconstructed text. *)
Definition in_bounds (h : t) : Prop :=
  0 <= index h < Z.of_nat (length (stack h)).

Definition invariant (initialText : jsstring) (h : t) : Prop :=
  in_bounds h /\ get (stack h) 0 = Some initialText.

(** The cursor is on the newest snapshot: nothing to redo. *)
Definition at_tail (h : t) : Prop :=
  index h = Z.of_nat (length (stack h)) - 1.

End History.

(* ===================================================================== *)
(** * One [ResultDisplay] instance                                        *)
(* ===================================================================== *)

Module Session.
Import JS Reconstruct.

(** The state hooks and refs of the component.  Every handler below runs on
    the state of the latest render: the updates of one click or input event
    are flushed before the next event is dispatched, so the [history] a
    handler tests and the [prev] its updater receives are the same value. *)
Record t := {
  diacriticsVisible : bool;
  highlightedWord : option Word;
  history : History.t;
  editor : jsstring;              (* editorRef.current.innerText *)
  debouncePending : bool;         (* a commit timer is armed *)
  hasEditedSinceLoad : bool;
}.

(** The state at mount. *)
Definition mount : t := {|
  diacriticsVisible := true;
  highlightedWord := None;
  history := History.initial;
  editor := [];
  debouncePending := false;
  hasEditedSinceLoad := false;
|}.

(** A new [result] arrives.  The view is rendered first, which draws the
    word overlay of [ZoomableImage]; a raise in render takes the view down
    before any effect runs.  Then the effect on [result.words], lines
    241-285, rebuilds the editor and the history; a raise inside the effect
    leaves it unfinished. *)
Definition load (words : list Word) (s : t) : result t :=
  _ ← overlay words;
  initialText ← reconstruct words;
  Ok {| diacriticsVisible := diacriticsVisible s;
        highlightedWord := highlightedWord s;
        history := History.reset initialText;
        editor := initialText;
        debouncePending := debouncePending s;
        hasEditedSinceLoad := false |}.

Definition setHighlightedWord (w : option Word) (s : t) : t :=
  {| diacriticsVisible := diacriticsVisible s;
     highlightedWord := w;
     history := history s;
     editor := editor s;
     debouncePending := debouncePending s;
     hasEditedSinceLoad := hasEditedSinceLoad s |}.

Definition handleWordEnter (word : Word) (s : t) : t :=
  if hasEditedSinceLoad s then s else setHighlightedWord (Some word) s.

Definition handleWordSpanMouseLeave (s : t) : t :=
  if hasEditedSinceLoad s then s else setHighlightedWord None s.

(** [handleInput], lines 287-295, run after the browser has changed the
    editable buffer to [currentText]: the latch is set, the highlight is
    cleared on the first edit, the commit timer is re-armed. *)
Definition handleInput (currentText : jsstring) (s : t) : t :=
  {| diacriticsVisible := diacriticsVisible s;
     highlightedWord :=
       if hasEditedSinceLoad s then highlightedWord s else None;
     history := history s;
     editor := currentText;
     debouncePending := true;
     hasEditedSinceLoad := true |}.

(** The timer callback, lines 295-307. *)
Definition debounceFire (s : t) : t :=
  if debouncePending s then
    {| diacriticsVisible := diacriticsVisible s;
       highlightedWord := highlightedWord s;
       history := History.commit (editor s) (history s);
       editor := editor s;
       debouncePending := false;
       hasEditedSinceLoad := hasEditedSinceLoad s |}
  else s.

(** [editorRef.current.innerText = prev.stack[newIndex]] followed by the
    index update.  The buffer then reads as the setter has laid the
    snapshot out: with every CR and CR LF turned into LF. *)
Definition restore (newIndex : Z) (s : t) : t :=
  {| diacriticsVisible := diacriticsVisible s;
     highlightedWord := highlightedWord s;
     history := History.move newIndex (history s);
     editor := innerText_written
                 (default undefined_string
                    (get (History.stack (history s)) newIndex));
     debouncePending := debouncePending s;
     hasEditedSinceLoad := hasEditedSinceLoad s |}.

Definition handleUndo (s : t) : t :=
  if History.canUndo (history s)
  then restore (History.index (history s) - 1) s else s.

Definition handleRedo (s : t) : t :=
  if History.canRedo (history s)
  then restore (History.index (history s) + 1) s else s.

Definition toggleDiacritics (s : t) : t :=
  {| diacriticsVisible := negb (diacriticsVisible s);
     highlightedWord := highlightedWord s;
     history := history s;
     editor := editor s;
     debouncePending := debouncePending s;
     hasEditedSinceLoad := hasEditedSinceLoad s |}.

(** [getTextToProcess], lines 336-339. *)
Definition getTextToProcess (s : t) : jsstring :=
  let rawText := default [] (History.current (history s)) in
  if diacriticsVisible s then rawText
  else Diacritics.removeDiacritics rawText.

(** What can happen to a mounted instance. *)
Inductive event :=
| NewResult (words : list Word)
| WordEnter (word : Word)
| WordLeave
| Input (currentText : jsstring)
| DebounceFire
| Undo
| Redo
| ToggleDiacritics.

Definition step (s : t) (ev : event) : result t :=
  match ev with
  | NewResult words => load words s
  | WordEnter word => Ok (handleWordEnter word s)
  | WordLeave => Ok (handleWordSpanMouseLeave s)
  | Input currentText => Ok (handleInput currentText s)
  | DebounceFire => Ok (debounceFire s)
  | Undo => Ok (handleUndo s)
  | Redo => Ok (handleRedo s)
  | ToggleDiacritics => Ok (toggleDiacritics s)
  end.

Fixpoint run (evs : list event) (s : t) : result t :=
  match evs with
  | [] => Ok s
  | ev :: evs' => s' ← step s ev; run evs' s'
  end.

Definition is_new_result (ev : event) : bool :=
  match ev with NewResult _ => true | _ => false end.

(** A coalesced edit: the user brings the buffer to [text], then stays
    quiet until the timer fires. *)
Definition edit (text : jsstring) (s : t) : t :=
  debounceFire (handleInput text s).

(** The editable buffer shows the snapshot under the cursor. *)
Definition synced (s : t) : Prop :=
  History.current (history s) = Some (editor s).

(** The editable buffer shows the snapshot under the cursor as the
    [innerText] setter lays it out. *)
Definition laid_out (s : t) : Prop :=
  exists snapshot, History.current (history s) = Some snapshot /\
                   editor s = innerText_written snapshot.

(** An event that keeps the analysis result of the session. *)
Definition same_result (ev : event) : Prop := is_new_result ev = false.

End Session.

(* ===================================================================== *)
(** * Derived notions used to state facts about a session                 *)
(* ===================================================================== *)

Module Editing.
Import JS.

(** No snapshot or buffer is out of step: the cursor is inside the history,
    and whenever no commit timer is armed the editable buffer shows the
    snapshot under the cursor, as it was read or as the [innerText] setter
    has laid it out. *)
Definition settled (s : Session.t) : Prop :=
  History.in_bounds (Session.history s) /\
  (Session.debouncePending s = false ->
   Session.synced s \/ Session.laid_out s).

(** The session with the editable buffer showing [text]. *)
Definition showing (text : jsstring) (s : Session.t) : Session.t :=
  {| Session.diacriticsVisible := Session.diacriticsVisible s;
     Session.highlightedWord := Session.highlightedWord s;
     Session.history := Session.history s;
     Session.editor := text;
     Session.debouncePending := Session.debouncePending s;
     Session.hasEditedSinceLoad := Session.hasEditedSinceLoad s |}.

(** A burst of raw edit events, the buffer going through [texts]. *)
Definition burst (texts : list jsstring) (s : Session.t) : Session.t :=
  foldl (fun s text => Session.handleInput text s) s texts.

End Editing.

(* ===================================================================== *)
(** * Derived notions used to state facts about the reconstructed text    *)
(* ===================================================================== *)

Module Layout.
Import JS Reconstruct.

(** The number of code units of all the words' texts. *)
Definition text_total (words : list Word) : nat :=
  sum_list_with (fun w => length (text w)) words.

(** A reference height that can attract a following word: a positive finite
    number, normal or subnormal. *)
Definition attracting (h : number) : Prop :=
  classify h = PNormal \/ classify h = PSubn.

End Layout.

(* ===================================================================== *)
(** * String operations of the application shell                          *)
(* ===================================================================== *)

Module Text.
Import JS.

(** A source literal made of ASCII characters, as code units. *)
Definition str (s : String.string) : jsstring :=
  map N_of_ascii (list_ascii_of_string s).

(** The string of a non-negative integer, as a template literal inserts
    it: its decimal digits. *)
Definition digits (n : N) : jsstring :=
  str (NilZero.string_of_uint (N.to_uint n)).

(** [parts.join(sep)] *)
Fixpoint join (sep : jsstring) (parts : list jsstring) : jsstring :=
  match parts with
  | [] => []
  | [part] => part
  | part :: rest => part ++ sep ++ join sep rest
  end.

(** [s.startsWith(prefix)] *)
Fixpoint startsWith (s prefix : jsstring) : bool :=
  match prefix, s with
  | [], _ => true
  | p :: prefix', c :: s' => (p =? c)%N && startsWith s' prefix'
  | _ :: _, [] => false
  end.

(** The code units that [trim] removes: white space and line terminators. *)
Definition is_white_space (c : codeunit) : bool :=
  bool_decide (c ∈ [0x0009; 0x000A; 0x000B; 0x000C; 0x000D; 0x0020; 0x00A0;
                    0x1680; 0x2028; 0x2029; 0x202F; 0x205F; 0x3000;
                    0xFEFF]%N)
  || ((0x2000 <=? c)%N && (c <=? 0x200A)%N).

Fixpoint trimStart (s : jsstring) : jsstring :=
  match s with
  | c :: s' => if is_white_space c then trimStart s' else s
  | [] => []
  end.

Definition trimEnd (s : jsstring) : jsstring :=
  reverse (trimStart (reverse s)).

(** [s.trim()] *)
Definition trim (s : jsstring) : jsstring := trimEnd (trimStart s).

End Text.

(* ===================================================================== *)
(** * Extraction modes: the selector of [App] and the prompt of the service *)
(* ===================================================================== *)

Module Modes.
Import JS Text.

(** [type ExtractionMode = 'all' | 'arabic' | 'foreign' | 'numbers'] *)
Inductive ExtractionMode := All | Arabic | Foreign | Numbers.

#[global] Instance ExtractionMode_eq_dec : EqDecision ExtractionMode.
Proof. solve_decision. Defined.

(** [modes.includes(mode)] *)
Definition includes (modes : list ExtractionMode) (mode : ExtractionMode)
    : bool :=
  bool_decide (mode ∈ modes).

(** [useState<ExtractionMode[]>(['all'])] *)
Definition initial : list ExtractionMode := [All].

Definition granularOptions : list ExtractionMode := [Arabic; Foreign; Numbers].

(** The updater of [handleModeChange]. *)
Definition handleModeChange (mode : ExtractionMode)
    (prevModes : list ExtractionMode) : list ExtractionMode :=
  if decide (mode = All) then [All]
  else
    let newModes := filter (fun m => m <> All) prevModes in
    let newModes :=
      if includes newModes mode
      then filter (fun m => m <> mode) newModes
      else push newModes mode in
    if (length newModes =? 0)%nat then [All]
    else if forallb (fun opt => includes newModes opt) granularOptions
    then [All]
    else newModes.

(** The selection after a sequence of clicks on the selector. *)
Definition clicks (modes : list ExtractionMode)
    (clicked : list ExtractionMode) : list ExtractionMode :=
  foldl (fun modes mode => handleModeChange mode modes) modes clicked.

(** The [extractionInstruction] computed at the head of
    [analyzeArabicFont]. *)
Definition extractionInstruction (extractionModes : list ExtractionMode)
    : jsstring :=
  if (length extractionModes =? 0)%nat || includes extractionModes All
  then str "Extract all text content found in the image."
  else
    let partsToExtract :=
      (if includes extractionModes Arabic
       then [str "Arabic script text"] else []) ++
      (if includes extractionModes Foreign
       then [str "non-Arabic text (e.g., English, Latin script)"] else []) ++
      (if includes extractionModes Numbers
       then [str "numerical digits"] else []) in
    let instruction :=
      str "You MUST extract " ++ join (str " AND ") partsToExtract
        ++ str " ONLY." in
    let instruction :=
      if negb (includes extractionModes Numbers)
      then instruction ++ str " You MUST ignore all numerical digits."
      else instruction in
    let instruction :=
      if negb (includes extractionModes Arabic)
      then instruction ++ str " You MUST ignore all Arabic script text."
      else instruction in
    if negb (includes extractionModes Foreign)
    then instruction ++ str " You MUST ignore all non-Arabic text."
    else instruction.

(** [isFontAnalysisNeeded] *)
Definition isFontAnalysisNeeded (extractionModes : list ExtractionMode)
    : bool :=
  (length extractionModes =? 0)%nat || includes extractionModes All
  || includes extractionModes Arabic.

(** A selection the selector shows as consistent: either 'all' alone, or
    some but not all of the three kinds, each once. *)
Definition consistent (modes : list ExtractionMode) : Prop :=
  modes = [All] \/
  ((modes <> []) /\ (All ∉ modes) /\ NoDup modes /\
   ~ ((Arabic ∈ modes) /\ (Foreign ∈ modes) /\ (Numbers ∈ modes))).

(** The kinds selected after [mode] is toggled in [prevModes]. *)
Definition toggled (mode : ExtractionMode) (prevModes : list ExtractionMode)
    (m : ExtractionMode) : Prop :=
  m <> All /\
  ((m = mode /\ (mode ∉ prevModes)) \/ (m <> mode /\ (m ∈ prevModes))).

(** The list built inside [handleModeChange] before the two fallbacks. *)
Definition toggle_list (mode : ExtractionMode)
    (prevModes : list ExtractionMode) : list ExtractionMode :=
  let newModes := filter (fun m => m <> All) prevModes in
  if includes newModes mode
  then filter (fun m => m <> mode) newModes
  else push newModes mode.

End Modes.

(* ===================================================================== *)
(** * Pointer handling of [ZoomableImage] and its two owners              *)
(* ===================================================================== *)

Module Viewer.
Import JS.

Record Position := {
  x : number;
  y : number;
}.

(** [{ scale: number; position: { x: number; y: number } }] *)
Record ZoomState := {
  scale : number;
  position : Position;
}.

Definition lit_0 : number := S754_zero false.

Definition origin : Position := {| x := lit_0; y := lit_0 |}.

(** [{ scale: 1, position: { x: 0, y: 0 } }]: the initial state of the modal
    and the fallback of the result view. *)
Definition unzoomed : ZoomState := {| scale := lit_1; position := origin |}.

(** A call of one of the two callback props of [ZoomableImage]. *)
Inductive call :=
| OnScaleChange (scale : number)
| OnPositionChange (position : Position).

(** The state hooks of one [ZoomableImage] that its handlers read:
    [isDragging] and [startPos] ([isWheeling] only selects the CSS
    transition). *)
Record t := {
  isDragging : bool;
  startPos : Position;
}.

Definition mount : t := {| isDragging := false; startPos := origin |}.

(** The handlers, on the props [scale] and [position] of the latest render.
    A handler returns the calls it makes on the callback props, in order. *)
Definition handleZoomIn (props : ZoomState) : list call :=
  [OnScaleChange (Zoom.handleZoomIn (scale props))].

Definition handleZoomOut (props : ZoomState) : list call :=
  [OnScaleChange (Zoom.handleZoomOut (scale props))].

Definition handleReset : list call :=
  [OnScaleChange lit_1; OnPositionChange origin].

Definition handleWheel (deltaY : number) (props : ZoomState) : list call :=
  if lt deltaY lit_0 then handleZoomIn props else handleZoomOut props.

Definition handleMouseDown (button : Z) (clientX clientY : number)
    (props : ZoomState) (s : t) : t :=
  if negb (button =? 0) then s
  else {| isDragging := true;
          startPos := {| x := sub clientX (x (position props));
                         y := sub clientY (y (position props)) |} |}.

Definition handleMouseMove (clientX clientY : number) (s : t) : list call :=
  if negb (isDragging s) then []
  else [OnPositionChange {| x := sub clientX (x (startPos s));
                            y := sub clientY (y (startPos s)) |}].

Definition handleMouseUpOrLeave (s : t) : t :=
  {| isDragging := false; startPos := startPos s |}.

(** The DOM events the component listens to. *)
Inductive event :=
| ClickZoomIn
| ClickZoomOut
| ClickReset
| Wheel (deltaY : number)
| MouseDown (button : Z) (clientX clientY : number)
| MouseMove (clientX clientY : number)
| MouseUp
| MouseLeave.

Definition handle (props : ZoomState) (s : t) (e : event) : t * list call :=
  match e with
  | ClickZoomIn => (s, handleZoomIn props)
  | ClickZoomOut => (s, handleZoomOut props)
  | ClickReset => (s, handleReset)
  | Wheel deltaY => (s, handleWheel deltaY props)
  | MouseDown button clientX clientY =>
      (handleMouseDown button clientX clientY props s, [])
  | MouseMove clientX clientY => (s, handleMouseMove clientX clientY s)
  | MouseUp | MouseLeave => (handleMouseUpOrLeave s, [])
  end.

(** ** [ImageZoomModal]: [onScaleChange={setScale}],
    [onPositionChange={setPosition}], two independent state hooks. *)
Definition modal_call (st : ZoomState) (c : call) : ZoomState :=
  match c with
  | OnScaleChange scale' => {| scale := scale'; position := position st |}
  | OnPositionChange position' =>
      {| scale := scale st; position := position' |}
  end.

(** One event in the modal: the handler runs on the rendered state, the
    state setters it calls are applied in order. *)
Definition modal_step (st : ZoomState * t) (e : event) : ZoomState * t :=
  let '(s', calls) := handle (fst st) (snd st) e in
  (foldl modal_call (fst st) calls, s').

Definition modal_run (st : ZoomState * t) (es : list event)
    : ZoomState * t :=
  foldl modal_step st es.

(** ** [ResultDisplay]: one [zoomState] object owned by the gallery. *)

(** [initialZoomState ?? { scale: 1, position: { x: 0, y: 0 } }] *)
Definition zoomState (initialZoomState : option ZoomState) : ZoomState :=
  default unzoomed initialZoomState.

(** [handleScaleChange] and [handlePositionChange]: the object each hands to
    [onZoomChange], spread from the [zoomState] of the render the handler
    was created in. *)
Definition handleScaleChange (zoomState : ZoomState) (newScale : number)
    : ZoomState :=
  {| scale := newScale; position := position zoomState |}.

Definition handlePositionChange (zoomState : ZoomState)
    (newPosition : Position) : ZoomState :=
  {| scale := scale zoomState; position := newPosition |}.

(** The argument of [onZoomChange] for one call of a callback prop. *)
Definition onZoomChange_arg (zoomState : ZoomState) (c : call) : ZoomState :=
  match c with
  | OnScaleChange newScale => handleScaleChange zoomState newScale
  | OnPositionChange newPosition => handlePositionChange zoomState newPosition
  end.

(** Events that come from the pointer only. *)
Definition is_mouse (e : event) : bool :=
  match e with
  | MouseDown _ _ _ | MouseMove _ _ | MouseUp | MouseLeave => true
  | _ => false
  end.

(** A press of the primary button. *)
Definition is_left_press (e : event) : bool :=
  match e with
  | MouseDown button _ _ => button =? 0
  | _ => false
  end.

End Viewer.

(* ===================================================================== *)
(** * The gallery of [App]: images, selection, analysis, export           *)
(* ===================================================================== *)

Module Gallery.
Import JS Text Reconstruct.

(** The fields of a DOM [File] that the application reads. *)
Record File := {
  name : jsstring;
  type : jsstring;
}.

Record SimilarFont := {
  font_name : jsstring;
  font_url : jsstring;
}.

(** [interface AnalysisResult], as parsed from the service's JSON, which is
    cast and never validated: [words] and [similarFonts] can be absent. *)
Record AnalysisResult := {
  words : option (list Word);
  identifiedFontName : jsstring;
  similarFonts : option (list SimilarFont);
}.

(** [interface ImageState] *)
Record ImageState := {
  id : jsstring;
  file : File;
  previewUrl : jsstring;
  result : option AnalysisResult;
  isLoading : bool;
  error : option jsstring;
  zoomState : option Viewer.ZoomState;
}.

(** The two state hooks [images] and [selectedImage] of [App]. *)
Record t := {
  images : list ImageState;
  selectedImage : option ImageState;
}.

Definition mount : t := {| images := []; selectedImage := None |}.

(** U+002D, the hyphen. *)
Definition HYPHEN : codeunit := 45%N.

(** The string of an integer in a template literal. *)
Definition of_int (z : Z) : jsstring :=
  if z <? 0 then str "-" ++ digits (Z.to_N (- z)) else digits (Z.to_N z).

(** [`${Date.now()}-${index}`], for the clock reading [now]. *)
Definition new_id (now : Z) (index : nat) : jsstring :=
  of_int now ++ str "-" ++ digits (N.of_nat index).

Record Upload := {
  upload_file : File;
  upload_previewUrl : jsstring;
}.

(** [handleImageUpload].  The callback is memoised on [selectedImage] and
    called from image-load events, so the selection it tests ([seen]) is
    that of the render in which the files were picked.  Each upload comes
    with the clock reading taken when its id is built. *)
Definition newImages (uploads : list (Z * Upload)) : list ImageState :=
  imap (fun index u =>
          {| id := new_id (fst u) index;
             file := upload_file (snd u);
             previewUrl := upload_previewUrl (snd u);
             result := None;
             isLoading := false;
             error := None;
             zoomState := None |})
       uploads.

Definition handleImageUpload (seen : option ImageState)
    (uploads : list (Z * Upload)) (s : t) : t :=
  {| images := images s ++ newImages uploads;
     selectedImage :=
       match seen with
       | None => head (newImages uploads)
       | Some _ => selectedImage s
       end |}.

(** [img.id === id] *)
Definition has_id (id' : jsstring) (img : ImageState) : bool :=
  bool_decide (id img = id').

(** [images.find(img => img.id === id)] *)
Definition find_id (id' : jsstring) (images : list ImageState)
    : option ImageState :=
  List.find (has_id id') images.

(** [onSelect={setSelectedImage}] *)
Definition select (img : ImageState) (s : t) : t :=
  {| images := images s; selectedImage := Some img |}.

(** [handleRemoveImage], on the state of the latest render. *)
Definition handleRemoveImage (id' : jsstring) (s : t) : t :=
  {| images := filter (fun img => id img <> id') (images s);
     selectedImage :=
       match selectedImage s with
       | Some sel =>
           if has_id id' sel
           then if (1 <? length (images s))%nat
                then List.find (fun img => negb (has_id id' img)) (images s)
                else None
           else Some sel
       | None => None
       end |}.

Definition clearAll (s : t) : t := mount.

(** [handleZoomChange] *)
Definition handleZoomChange (id' : jsstring)
    (newZoomState : Viewer.ZoomState) (s : t) : t :=
  {| images :=
       map (fun img =>
              if has_id id' img
              then {| id := id img; file := file img;
                      previewUrl := previewUrl img; result := result img;
                      isLoading := isLoading img; error := error img;
                      zoomState := Some newZoomState |}
              else img)
           (images s);
     selectedImage := selectedImage s |}.

(** The head of [handleAnalyze]: the image to analyse is looked up in the
    [images] of the render the handler was created in, and nothing happens
    if it is missing or already loading. *)
Definition imageToAnalyze (rendered : list ImageState) (id' : jsstring)
    : option ImageState :=
  match find_id id' rendered with
  | Some img => if isLoading img then None else Some img
  | None => None
  end.

(** [handleAnalyze] up to the [await]: the image is marked as loading. *)
Definition handleAnalyze_begin (id' : jsstring) (s : t) : t :=
  {| images :=
       map (fun img =>
              if has_id id' img
              then {| id := id img; file := file img;
                      previewUrl := previewUrl img; result := None;
                      isLoading := true; error := None;
                      zoomState := zoomState img |}
              else img)
           (images s);
     selectedImage := selectedImage s |}.

(** The [catch] branch of [handleAnalyze]. *)
Definition handleAnalyze_rejected (id' : jsstring) (errorMessage : jsstring)
    (s : t) : t :=
  {| images :=
       map (fun img =>
              if has_id id' img
              then {| id := id img; file := file img;
                      previewUrl := previewUrl img; result := result img;
                      isLoading := false; error := Some errorMessage;
                      zoomState := zoomState img |}
              else img)
           (images s);
     selectedImage := selectedImage s |}.

(** [!analysisResult.words || analysisResult.words.length === 0] *)
Definition no_words (analysisResult : AnalysisResult) : bool :=
  match words analysisResult with
  | None | Some [] => true
  | Some (_ :: _) => false
  end.

Definition updatedImage (imageToAnalyze : ImageState)
    (analysisResult : AnalysisResult) : ImageState :=
  {| id := id imageToAnalyze; file := file imageToAnalyze;
     previewUrl := previewUrl imageToAnalyze;
     result := Some analysisResult; isLoading := false; error := None;
     zoomState := zoomState imageToAnalyze |}.

(** [handleAnalyze] after the [await] has resolved.  [imageToAnalyze] is the
    object found when the analysis was started. *)
Definition handleAnalyze_fulfilled (imageToAnalyze : ImageState)
    (analysisResult : AnalysisResult) (s : t) : t :=
  if no_words analysisResult
  then handleAnalyze_rejected (id imageToAnalyze)
         (str "Could not detect text in the image. Please try a different image.")
         s
  else
    {| images :=
         map (fun img =>
                if has_id (id imageToAnalyze) img
                then updatedImage imageToAnalyze analysisResult else img)
             (images s);
       selectedImage :=
         match selectedImage s with
         | None => Some (updatedImage imageToAnalyze analysisResult)
         | Some current =>
             if has_id (id imageToAnalyze) current
             then Some (updatedImage imageToAnalyze analysisResult)
             else Some current
         end |}.

(** The effect that keeps [selectedImage] in sync with [images]. *)
Definition sync (s : t) : t :=
  match selectedImage s with
  | Some sel =>
      match find_id (id sel) (images s) with
      | Some updatedVersion =>
          {| images := images s; selectedImage := Some updatedVersion |}
      | None => s
      end
  | None => s
  end.

(** What happens to the gallery. *)
Inductive event :=
| Uploaded (seen : option ImageState) (uploads : list (Z * Upload))
| Selected (img : ImageState)
| Removed (id' : jsstring)
| Cleared
| ZoomChanged (newZoomState : Viewer.ZoomState)
| AnalysisStarted (rendered : list ImageState) (id' : jsstring)
| AnalysisFulfilled (imageToAnalyze : ImageState)
    (analysisResult : AnalysisResult)
| AnalysisRejected (id' : jsstring) (errorMessage : jsstring).

Definition handle (e : event) (s : t) : t :=
  match e with
  | Uploaded seen uploads => handleImageUpload seen uploads s
  | Selected img => select img s
  | Removed id' => handleRemoveImage id' s
  | Cleared => clearAll s
  | ZoomChanged newZoomState =>
      match selectedImage s with
      | Some sel => handleZoomChange (id sel) newZoomState s
      | None => s
      end
  | AnalysisStarted rendered id' =>
      match imageToAnalyze rendered id' with
      | Some _ => handleAnalyze_begin id' s
      | None => s
      end
  | AnalysisFulfilled imageToAnalyze analysisResult =>
      handleAnalyze_fulfilled imageToAnalyze analysisResult s
  | AnalysisRejected id' errorMessage =>
      handleAnalyze_rejected id' errorMessage s
  end.

(** One event, then the effect of the render that follows. *)
Definition step (s : t) (e : event) : t := sync (handle e s).

Definition run (s : t) (es : list event) : t := foldl step s es.

(** ** [processFiles] *)

(** [Array.from(files).filter(file => file.type.startsWith('image/'))] *)
Definition validImageFiles (files : list File) : list File :=
  filter (fun file => startsWith (type file) (str "image/") = true) files.

(** How a call of [processFiles] goes on: it returns at once, it alerts, or
    it starts to load the valid files. *)
Inductive started :=
| Ignored
| Alerted
| Loading (valid : list File).

Definition processFiles (files : option (list File)) : started :=
  match files with
  | None | Some [] => Ignored
  | Some files =>
      match validImageFiles files with
      | [] => Alerted
      | valid => Loading valid
      end
  end.

(** The end of one image load: [onload] with a canvas context, [onload]
    without one, or [onerror]. *)
Inductive settled :=
| Loaded (file : File) (standardizedDataUrl : jsstring)
| NoContext (file : File)
| Failed (file : File).

(** The two variables the load callbacks of one call share. *)
Record batch := {
  uploads : list Upload;
  processedCount : nat;
}.

Definition batch_start : batch := {| uploads := []; processedCount := 0 |}.

(** One load callback; [Some uploads] is a call [handleImageUpload(uploads)]. *)
Definition settle (total : nat) (b : batch) (c : settled)
    : batch * option (list Upload) :=
  let uploads' :=
    match c with
    | Loaded file standardizedDataUrl =>
        push (uploads b)
             {| upload_file := file;
                upload_previewUrl := standardizedDataUrl |}
    | _ => uploads b
    end in
  let processedCount' := S (processedCount b) in
  ({| uploads := uploads'; processedCount := processedCount' |},
   if (processedCount' =? total)%nat then Some uploads' else None).

(** The calls of [handleImageUpload] made while the loads in [cs] end. *)
Fixpoint settle_all (total : nat) (b : batch) (cs : list settled)
    : list (list Upload) :=
  match cs with
  | [] => []
  | c :: cs' =>
      let '(b', call) := settle total b c in
      match call with
      | Some uploads' => uploads' :: settle_all total b' cs'
      | None => settle_all total b' cs'
      end
  end.

(** The uploads of the loads that produced an image, in the order the loads
    ended. *)
Definition loaded (cs : list settled) : list Upload :=
  omap (fun c => match c with
                 | Loaded file standardizedDataUrl =>
                     Some {| upload_file := file;
                             upload_previewUrl := standardizedDataUrl |}
                 | _ => None
                 end) cs.

(** ** [handleDownload] *)

Definition similarFontsText (result : AnalysisResult) : jsstring :=
  match similarFonts result with
  | Some ((_ :: _) as fonts) =>
      join [NEWLINE]
        (map (fun font =>
                str "- " ++ font_name font ++ str ": " ++ font_url font)
             fonts)
  | _ => str "No similar fonts were found."
  end.

(** The template of [content] up to the edited text. *)
Definition heading (file : File) (result : AnalysisResult) : jsstring :=
  str "Analysis Result" ++ [NEWLINE] ++
  str "================" ++ [NEWLINE] ++
  str "File: " ++ name file ++ [NEWLINE] ++
  str "Font: " ++ identifiedFontName result ++ [NEWLINE; NEWLINE] ++
  str "Similar Fonts" ++ [NEWLINE] ++
  str "-------------" ++ [NEWLINE] ++
  similarFontsText result ++ [NEWLINE; NEWLINE] ++
  str "Extracted Text" ++ [NEWLINE] ++
  str "--------------" ++ [NEWLINE].

(** The file offered for download: its name and its text. *)
Record Download := {
  download : jsstring;
  blob : jsstring;
}.

Definition handleDownload (editedText : jsstring) (s : t) : option Download :=
  match selectedImage s with
  | Some sel =>
      match result sel with
      | Some result =>
          Some {| download := str "analysis_" ++ name (file sel) ++ str ".txt";
                  blob := trim (heading (file sel) result ++ editedText) |}
      | None => None
      end
  | None => None
  end.

(** ** The result view of the selected image *)

(** One event on the [ZoomableImage] of the result view: the handler runs
    on the [zoomState] of the rendered selection, each call of a callback
    prop ends in [handleZoomChange] with an object spread from that same
    [zoomState], and the updates are applied in order before the next
    render. *)
Definition result_view_event (e : Viewer.event) (st : t * Viewer.t)
    : t * Viewer.t :=
  match selectedImage (fst st) with
  | Some sel =>
      let rendered := Viewer.zoomState (zoomState sel) in
      let '(v', calls) := Viewer.handle rendered (snd st) e in
      (sync (foldl (fun s c =>
                      handleZoomChange (id sel)
                        (Viewer.onZoomChange_arg rendered c) s)
                   (fst st) calls),
       v')
  | None => st
  end.

(** The zoom state the result view shows for the selection. *)
Definition shown_zoom (s : t) : option Viewer.ZoomState :=
  sel ← selectedImage s; Some (Viewer.zoomState (zoomState sel)).

(** Every analysis result held by an image has at least one word. *)
Definition has_words (img : ImageState) : Prop :=
  match result img with
  | Some r => no_words r = false
  | None => True
  end.

(** The selection, if any, is the gallery's own entry for its id. *)
Definition selection_in_gallery (s : t) : Prop :=
  match selectedImage s with
  | Some sel => find_id (id sel) (images s) = Some sel
  | None => True
  end.

(** A card that is clicked shows an image of the gallery. *)
Definition card_rendered (s : t) (e : event) : Prop :=
  match e with
  | Selected img => img ∈ images s
  | _ => True
  end.

(** An analysis that ends well belongs to an image still in the gallery. *)
Definition answer_awaited (s : t) (e : event) : Prop :=
  match e with
  | AnalysisFulfilled imageToAnalyze _ =>
      id imageToAnalyze ∈ map id (images s)
  | _ => True
  end.

(** [P] holds of every event of the run, in the state the event meets. *)
Fixpoint along (P : t -> event -> Prop) (s : t) (es : list event) : Prop :=
  match es with
  | [] => True
  | e :: es' => P s e /\ along P (step s e) es'
  end.

(** ** Auxiliary notions for the facts below *)

(** A replacement of the images with a given id that keeps their id. *)
Definition update (id' : jsstring) (g : ImageState -> ImageState)
    (images : list ImageState) : list ImageState :=
  map (fun img => if has_id id' img then g img else img) images.

(** Every stored result has words, in the gallery and in the selection. *)
Definition all_have_words (s : t) : Prop :=
  Forall has_words (images s) /\
  (forall sel, selectedImage s = Some sel -> has_words sel).

(** The id of the selection is an id of the gallery. *)
Definition selection_listed (s : t) : Prop :=
  forall sel, selectedImage s = Some sel -> id sel ∈ map id (images s).

(** The image [img] with its zoom state replaced. *)
Definition with_zoom (z : Viewer.ZoomState) (img : ImageState) : ImageState :=
  {| id := id img; file := file img; previewUrl := previewUrl img;
     result := result img; isLoading := isLoading img; error := error img;
     zoomState := Some z |}.

(** The id of [img] was built from the clock reading [now]. *)
Definition made_at (now : Z) (img : ImageState) : Prop :=
  exists index, id img = new_id now index.

(** The clock readings of an upload differ from those the ids of the
    gallery were built from. *)
Definition clock_advanced (s : t) (e : event) : Prop :=
  match e with
  | Uploaded _ uploads =>
      forall img u, img ∈ images s -> u ∈ uploads -> ~ made_at (fst u) img
  | _ => True
  end.

End Gallery.

(* ===================================================================== *)
(** * The answer of the analysis service                                  *)
(* ===================================================================== *)

Module Service.
Import JS Text Gallery.

(** What [analyzeArabicFont] reads of the service's response:
    [response.text], [response.candidates?.[0]?.finishReason] and whether
    some safety rating of the first candidate is blocked. *)
Record Response := {
  text : option jsstring;
  finishReason : option jsstring;
  blocked : bool;
}.

(** [!response.text] *)
Definition no_text (response : Response) : bool :=
  match text response with
  | None | Some [] => true
  | Some (_ :: _) => false
  end.

(** The three errors of lines 153-165. *)
Definition no_text_error (response : Response) : jsstring :=
  if bool_decide (finishReason response = Some (str "SAFETY"))
     || blocked response
  then str "Analysis blocked: The image may contain sensitive content. Please try a different image."
  else
    match finishReason response with
    | Some ((_ :: _) as blockReason) =>
        str "Analysis failed. Reason: " ++ blockReason
          ++ str ". Please try a different image or adjust settings."
    | _ =>
        str "The AI returned an empty response. This could be a temporary issue, please try again."
    end.

(** The error of the inner [catch], lines 178-181. *)
Definition invalid_format : jsstring :=
  str "The AI returned an invalid response format. This can happen with complex images. Please try again or use a clearer image.".

(** The outcome of [JSON.parse] followed by the read of
    [identifiedFontName]: either of them raises, or the value is an object
    described by the fields the application reads. *)
Inductive parsed :=
| Raised
| Parsed (parsedResult : AnalysisResult).

(** Lines 172-174. *)
Definition without_fonts_if_not_applicable (parsedResult : AnalysisResult)
    : AnalysisResult :=
  if bool_decide (identifiedFontName parsedResult = str "N/A")
  then {| words := words parsedResult;
          identifiedFontName := identifiedFontName parsedResult;
          similarFonts := Some [] |}
  else parsedResult.

(** The test of line 190: the error is thrown again as it is. *)
Definition thrown_again (errorMessage : jsstring) : bool :=
  startsWith errorMessage (str "Analysis blocked:")
  || startsWith errorMessage (str "Analysis failed.")
  || startsWith errorMessage (str "The AI returned").

Section Respond.
Variable JSON_parse : jsstring -> parsed.

(** The body of the outer [try] once the service has answered, lines
    152-181: the result, or the message of the error it throws. *)
Definition respond (response : Response) : AnalysisResult + jsstring :=
  match text response with
  | Some ((_ :: _) as t) =>
      match JSON_parse (trim t) with
      | Parsed parsedResult =>
          inl (without_fonts_if_not_applicable parsedResult)
      | Raised => inr invalid_format
      end
  | _ => inr (no_text_error response)
  end.

End Respond.

End Service.

(* ===================================================================== *)
(** * The chat of the result view                                         *)
(* ===================================================================== *)

Module Chat.
Import JS Text.

Inductive Role := user | model.

#[global] Instance Role_eq_dec : EqDecision Role.
Proof. solve_decision. Defined.

Record Message := {
  role : Role;
  text : jsstring;
}.

(** The state hooks of [ChatComponent], and two counters that are not
    state of the component but of the promises it awaits: how many
    greetings requested by the effect of lines 24-42 are still awaited, and
    how many messages sent by [handleSendMessage] are. *)
Record t := {
  chat : bool;                    (* chat !== null *)
  messages : list Message;
  userInput : jsstring;
  isLoading : bool;
  error : option jsstring;
  greetings_awaited : nat;
  answers_awaited : nat;
}.

(** The initial values of the state hooks, lines 17-21. *)
Definition initial : t :=
  {| chat := false; messages := []; userInput := []; isLoading := true;
     error := None; greetings_awaited := 0; answers_awaited := 0 |}.

(** The synchronous part of [initializeChat], lines 25-39: [createChat]
    returns a session, which is stored and asked for a greeting, or it
    raises, which sets the error and clears the loading flag.  Neither the
    transcript nor, when a session is created, the loading flag is
    touched. *)
Definition initializeChat (created : bool) (s : t) : t :=
  if created
  then {| chat := true; messages := messages s; userInput := userInput s;
          isLoading := isLoading s; error := error s;
          greetings_awaited := S (greetings_awaited s);
          answers_awaited := answers_awaited s |}
  else {| chat := chat s; messages := messages s; userInput := userInput s;
          isLoading := false;
          error := Some (str "Failed to start a chat session.");
          greetings_awaited := greetings_awaited s;
          answers_awaited := answers_awaited s |}.

(** The state after the effect has run at mount. *)
Definition mounted (created : bool) : t := initializeChat created initial.

(** A greeting arrives. *)
Definition greeted (text' : jsstring) (s : t) : t :=
  {| chat := chat s; messages := [{| role := model; text := text' |}];
     userInput := userInput s; isLoading := false; error := error s;
     greetings_awaited := pred (greetings_awaited s);
     answers_awaited := answers_awaited s |}.

(** The request for a greeting fails. *)
Definition greeting_failed (s : t) : t :=
  {| chat := chat s; messages := messages s; userInput := userInput s;
     isLoading := false;
     error := Some (str "Failed to start a chat session.");
     greetings_awaited := pred (greetings_awaited s);
     answers_awaited := answers_awaited s |}.

(** [onChange] of the input. *)
Definition setUserInput (value : jsstring) (s : t) : t :=
  {| chat := chat s; messages := messages s; userInput := value;
     isLoading := isLoading s; error := error s;
     greetings_awaited := greetings_awaited s;
     answers_awaited := answers_awaited s |}.

(** [handleSendMessage] up to the [await]. *)
Definition handleSendMessage (s : t) : t :=
  if bool_decide (trim (userInput s) = []) || negb (chat s) || isLoading s
  then s
  else {| chat := chat s;
          messages := messages s ++ [{| role := user; text := userInput s |}];
          userInput := []; isLoading := true; error := None;
          greetings_awaited := greetings_awaited s;
          answers_awaited := S (answers_awaited s) |}.

(** The answer to a sent message arrives. *)
Definition answered (text' : jsstring) (s : t) : t :=
  {| chat := chat s;
     messages := messages s ++ [{| role := model; text := text' |}];
     userInput := userInput s; isLoading := false; error := error s;
     greetings_awaited := greetings_awaited s;
     answers_awaited := pred (answers_awaited s) |}.

(** The request for an answer fails. *)
Definition unanswered (s : t) : t :=
  {| chat := chat s; messages := messages s; userInput := userInput s;
     isLoading := false;
     error := Some (str "Sorry, I couldn't get a response. Please try again.");
     greetings_awaited := greetings_awaited s;
     answers_awaited := pred (answers_awaited s) |}.

(** What can happen to a mounted chat.  [ResultChanged]: the
    [analysisResult] prop changes while the component stays mounted (it is
    rendered without a key), so the effect of lines 24-42 runs again, on the
    state as it is. *)
Inductive event :=
| ResultChanged (created : bool)
| Greeted (text' : jsstring)
| GreetingFailed
| Typed (value : jsstring)
| Submitted
| Answered (text' : jsstring)
| Unanswered.

Definition step (s : t) (e : event) : t :=
  match e with
  | ResultChanged created => initializeChat created s
  | Greeted text' => greeted text' s
  | GreetingFailed => greeting_failed s
  | Typed value => setUserInput value s
  | Submitted => handleSendMessage s
  | Answered text' => answered text' s
  | Unanswered => unanswered s
  end.

Definition run (s : t) (es : list event) : t := foldl step s es.

(** A promise settles only while it is awaited. *)
Definition settles_awaited (s : t) (e : event) : Prop :=
  match e with
  | Greeted _ | GreetingFailed => (0 < greetings_awaited s)%nat
  | Answered _ | Unanswered => (0 < answers_awaited s)%nat
  | _ => True
  end.

Fixpoint along (P : t -> event -> Prop) (s : t) (es : list event) : Prop :=
  match es with
  | [] => True
  | e :: es' => P s e /\ along P (step s e) es'
  end.

Definition is_result_change (e : event) : bool :=
  match e with ResultChanged _ => true | _ => false end.

(** The analysis result stays the same all along: the effect runs at mount
    and never again. *)
Definition same_result (es : list event) : Prop :=
  Forall (fun e => is_result_change e = false) es.

(** The number of messages of a role. *)
Definition count (r : Role) (ms : list Message) : nat :=
  length (filter (fun m => role m = r) ms).

(** What holds between the events of a chat whose result stays the same. *)
Definition orderly (s : t) : Prop :=
  (answers_awaited s <= 1)%nat /\
  (greetings_awaited s <= 1)%nat /\
  (isLoading s = false ->
     answers_awaited s = 0%nat /\ greetings_awaited s = 0%nat) /\
  ((0 < greetings_awaited s)%nat ->
     answers_awaited s = 0%nat /\ messages s = [] /\ chat s = true) /\
  (chat s = false -> messages s = [] /\ answers_awaited s = 0%nat) /\
  (count model (messages s) + answers_awaited s
   <= count user (messages s) + 1)%nat.

(** What holds between the events of every chat. *)
Definition sound (s : t) : Prop :=
  (chat s = false ->
     messages s = [] /\ answers_awaited s = 0%nat /\
     greetings_awaited s = 0%nat) /\
  Forall (fun m => role m = user -> trim (text m) <> []) (messages s).

(** A chat is greeted; the result changes; the user sends a message before
    the new greeting arrives, and another one after it. *)
Definition result_changed_between : list event :=
  [Greeted (str "hello"); ResultChanged true; Typed (str "a"); Submitted;
   Greeted (str "hello again"); Typed (str "b"); Submitted].

End Chat.

(* ===================================================================== *)
(** * Facts about arrays                                                  *)
(* ===================================================================== *)

Module JSFacts.
Import JS.

Lemma get_lookup {A} (arr : list A) (i : Z) :
  0 <= i -> get arr i = arr !! Z.to_nat i.
Proof. unfold get. intros Hi. destruct (Z.ltb_spec i 0); [lia | done]. Qed.

Lemma get_in_range {A} (arr : list A) (i : Z) :
  0 <= i < Z.of_nat (length arr) -> is_Some (get arr i).
Proof.
  intros Hi. rewrite get_lookup by lia. apply lookup_lt_is_Some. lia.
Qed.

Lemma get_push_last {A} (arr : list A) (v : A) :
  get (push arr v) (Z.of_nat (length (push arr v)) - 1) = Some v.
Proof.
  unfold push. rewrite length_app. simpl length.
  rewrite get_lookup by lia.
  replace (Z.to_nat (Z.of_nat (length arr + 1) - 1)) with (length arr + 0)%nat
    by lia.
  by rewrite lookup_app_r, Nat.add_0_r, Nat.sub_diag by lia.
Qed.

(** Inside the array, [slice(0, k)] is the prefix of length [k]. *)
Lemma slice_prefix {A} (arr : list A) (k : Z) :
  0 <= k <= Z.of_nat (length arr) ->
  slice arr 0 k = take (Z.to_nat k) arr.
Proof.
  intros Hk. unfold slice, relative_index.
  destruct (Z.ltb_spec 0 0); [lia |].
  destruct (Z.ltb_spec k 0); [lia |].
  rewrite Z.min_l, Z.min_l by lia. simpl. by rewrite Z.sub_0_r.
Qed.

Lemma length_slice_prefix {A} (arr : list A) (k : Z) :
  0 <= k <= Z.of_nat (length arr) ->
  Z.of_nat (length (slice arr 0 k)) = k.
Proof. intros Hk. rewrite slice_prefix, length_take by done. lia. Qed.

Lemma get_slice_prefix {A} (arr : list A) (k i : Z) :
  0 <= k <= Z.of_nat (length arr) -> 0 <= i < k ->
  get (slice arr 0 k) i = get arr i.
Proof.
  intros Hk Hi. rewrite slice_prefix, !get_lookup by lia.
  apply lookup_take_lt. lia.
Qed.

Lemma get_push_old {A} (arr : list A) (v : A) (i : Z) :
  0 <= i < Z.of_nat (length arr) -> get (push arr v) i = get arr i.
Proof.
  intros Hi. unfold push. rewrite !get_lookup by lia.
  apply lookup_app_l. lia.
Qed.

(** ** [innerText] written and read back *)

Lemma innerText_written_id (s : jsstring) :
  CR ∉ s -> innerText_written s = s.
Proof.
  induction s as [| c s IH]; [done |]. intros Hnot.
  apply not_elem_of_cons in Hnot as [Hc Hs]. cbn [innerText_written].
  destruct (N.eqb_spec c CR) as [-> | _]; [done |]. by rewrite IH.
Qed.

Lemma innerText_written_no_CR (s : jsstring) : CR ∉ innerText_written s.
Proof.
  assert (H : forall n s, (length s <= n)%nat -> CR ∉ innerText_written s).
  { clear s. induction n as [| n IH]; intros [| c s] Hlen;
      try (apply not_elem_of_nil); [cbn in Hlen; lia |].
    cbn [length] in Hlen. cbn [innerText_written].
    destruct (N.eqb_spec c CR) as [-> | Hc].
    - apply not_elem_of_cons. split; [done |].
      destruct s as [| d s']; [apply not_elem_of_nil |].
      cbn [length] in Hlen.
      destruct (d =? NEWLINE)%N; apply IH; cbn [length]; lia.
    - apply not_elem_of_cons. split; [congruence |]. apply IH. lia. }
  by apply (H (length s)).
Qed.

(** The buffer reads what was written exactly when the text holds no CR. *)
Lemma innerText_written_fixed (s : jsstring) :
  innerText_written s = s <-> CR ∉ s.
Proof.
  split; [| apply innerText_written_id].
  intros <-. apply innerText_written_no_CR.
Qed.

End JSFacts.

(* ===================================================================== *)
(** * The history: commit, undo, redo                                     *)
(* ===================================================================== *)

Module HistoryFacts.
Import JS JSFacts History.

Lemma commit_same (text : jsstring) (h : t) :
  current h = Some text -> commit text h = h.
Proof. intros Hc. unfold commit. by rewrite decide_True. Qed.

Lemma commit_new (text : jsstring) (h : t) :
  current h <> Some text ->
  commit text h =
    {| stack := slice (stack h) 0 (index h + 1) ++ [text];
       index := Z.of_nat (length (slice (stack h) 0 (index h + 1) ++ [text]))
                - 1 |}.
Proof. intros Hc. unfold commit. by rewrite decide_False. Qed.

(** Whatever the history, the committed text is the current snapshot
    afterwards. *)
Lemma current_commit (text : jsstring) (h : t) :
  current (commit text h) = Some text.
Proof.
  destruct (decide (current h = Some text)) as [Hc | Hc].
  - by rewrite commit_same.
  - rewrite commit_new by done. unfold current. simpl.
    apply (get_push_last (slice (stack h) 0 (index h + 1)) text).
Qed.

Lemma commit_at_tail (text : jsstring) (h : t) :
  at_tail h -> at_tail (commit text h).
Proof.
  intros Ht. destruct (decide (current h = Some text)) as [Hc | Hc].
  - by rewrite commit_same.
  - rewrite commit_new by done. by unfold at_tail.
Qed.

Lemma commit_in_bounds (text : jsstring) (h : t) :
  in_bounds h -> in_bounds (commit text h).
Proof.
  intros Hb. destruct (decide (current h = Some text)) as [Hc | Hc].
  - by rewrite commit_same.
  - rewrite commit_new by done. unfold in_bounds. simpl.
    rewrite length_app. simpl. lia.
Qed.

Lemma commit_keeps_first (text initialText : jsstring) (h : t) :
  invariant initialText h -> get (stack (commit text h)) 0 = Some initialText.
Proof.
  intros [Hb H0]. unfold in_bounds in Hb.
  destruct (decide (current h = Some text)) as [Hc | Hc].
  - by rewrite commit_same.
  - rewrite commit_new by done. simpl.
    change (?l ++ [text]) with (push l text).
    rewrite get_push_old by (rewrite length_slice_prefix; lia).
    rewrite get_slice_prefix by lia. done.
Qed.

Lemma undo_at_zero (h : t) : index h = 0 -> undo h = h.
Proof. intros Hi. unfold undo, canUndo. by rewrite Hi. Qed.

Lemma redo_at_last (h : t) :
  index h = Z.of_nat (length (stack h)) - 1 -> redo h = h.
Proof.
  intros Hi. unfold redo, canRedo. rewrite Hi.
  by rewrite Z.ltb_irrefl.
Qed.

Lemma undo_stack (h : t) : stack (undo h) = stack h.
Proof. unfold undo. by destruct (canUndo h). Qed.

Lemma redo_stack (h : t) : stack (redo h) = stack h.
Proof. unfold redo. by destruct (canRedo h). Qed.

Lemma undo_index (h : t) :
  index (undo h) = if 0 <? index h then index h - 1 else index h.
Proof. unfold undo, canUndo. by destruct (0 <? index h). Qed.

Lemma redo_index (h : t) :
  index (redo h) =
    if index h <? Z.of_nat (length (stack h)) - 1
    then index h + 1 else index h.
Proof.
  unfold redo, canRedo.
  by destruct (index h <? Z.of_nat (length (stack h)) - 1).
Qed.

Lemma undo_invariant (initialText : jsstring) (h : t) :
  invariant initialText h -> invariant initialText (undo h).
Proof.
  intros [Hb H0]. unfold invariant, in_bounds in *.
  rewrite undo_stack, undo_index.
  split; [| done]. destruct (Z.ltb_spec 0 (index h)); lia.
Qed.

Lemma redo_invariant (initialText : jsstring) (h : t) :
  invariant initialText h -> invariant initialText (redo h).
Proof.
  intros [Hb H0]. unfold invariant, in_bounds in *.
  rewrite redo_stack, redo_index.
  split; [| done].
  destruct (Z.ltb_spec (index h) (Z.of_nat (length (stack h)) - 1)); lia.
Qed.

Lemma commit_invariant (text initialText : jsstring) (h : t) :
  invariant initialText h -> invariant initialText (commit text h).
Proof.
  intros Hi. split.
  - apply commit_in_bounds, Hi.
  - by apply commit_keeps_first.
Qed.

Lemma reset_invariant (initialText : jsstring) :
  invariant initialText (reset initialText).
Proof. unfold invariant, in_bounds. simpl. split; [lia | done]. Qed.

(** C2.  A commit of the text that is already the snapshot at the cursor
    returns the history unchanged, so that a second commit of the same text
    changes nothing, the length of the snapshot sequence included; a commit
    of any other text keeps the snapshots 0..cursor, appends the text and
    puts the cursor on it, the new last index. *)
Theorem commit_spec (text : jsstring) (h : t) :
  in_bounds h ->
  (current h = Some text -> commit text h = h) /\
  (current h <> Some text ->
     stack (commit text h) = take (Z.to_nat (index h + 1)) (stack h) ++ [text]
     /\ index (commit text h) = index h + 1
     /\ index (commit text h)
        = Z.of_nat (length (stack (commit text h))) - 1) /\
  commit text (commit text h) = commit text h /\
  length (stack (commit text (commit text h)))
    = length (stack (commit text h)).
Proof.
  intros Hb. unfold in_bounds in Hb.
  assert (Hidem : commit text (commit text h) = commit text h)
    by apply commit_same, current_commit.
  split; [apply commit_same |].
  split; [| by rewrite Hidem].
  intros Hc. rewrite commit_new by done. simpl.
  rewrite length_app, slice_prefix, length_take by lia. simpl.
  split; [done | lia].
Qed.

Lemma commit_spec_witness :
  in_bounds (reset [65%N]) /\
  commit [66%N] (commit [66%N] (reset [65%N])) = commit [66%N] (reset [65%N]).
Proof.
  assert (Hb : in_bounds (reset [65%N])) by (unfold in_bounds; simpl; lia).
  split; [exact Hb |].
  exact (proj1 (proj2 (proj2 (commit_spec [66%N] (reset [65%N]) Hb)))).
Defined.

End HistoryFacts.

(* ===================================================================== *)
(** * The session: history operations seen from the handlers              *)
(* ===================================================================== *)

Module SessionFacts.
Import JS JSFacts History HistoryFacts Session.

Lemma history_handleUndo (s : Session.t) :
  history (handleUndo s) = undo (history s).
Proof. unfold handleUndo, undo. by destruct (canUndo (history s)). Qed.

Lemma history_handleRedo (s : Session.t) :
  history (handleRedo s) = redo (history s).
Proof. unfold handleRedo, redo. by destruct (canRedo (history s)). Qed.

Lemma history_edit (text : jsstring) (s : Session.t) :
  history (edit text s) = commit text (history s).
Proof. done. Qed.

Lemma editor_edit (text : jsstring) (s : Session.t) :
  editor (edit text s) = text.
Proof. done. Qed.

Lemma synced_edit (text : jsstring) (s : Session.t) : synced (edit text s).
Proof.
  unfold synced. rewrite history_edit, editor_edit. apply current_commit.
Qed.

Lemma laid_out_restore (newIndex : Z) (s : Session.t) :
  0 <= newIndex < Z.of_nat (length (stack (history s))) ->
  laid_out (restore newIndex s).
Proof.
  intros Hi. unfold laid_out, current. cbn [history editor restore move
    stack index].
  destruct (get_in_range (stack (history s)) newIndex Hi) as [v ->].
  by exists v.
Qed.

Lemma laid_out_handleUndo (s : Session.t) :
  in_bounds (history s) -> canUndo (history s) = true ->
  laid_out (handleUndo s).
Proof.
  intros Hb Hc. unfold handleUndo. rewrite Hc.
  unfold canUndo, in_bounds in *. apply laid_out_restore. lia.
Qed.

Lemma laid_out_handleRedo (s : Session.t) :
  in_bounds (history s) -> canRedo (history s) = true ->
  laid_out (handleRedo s).
Proof.
  intros Hb Hc. unfold handleRedo. rewrite Hc.
  unfold canRedo, in_bounds in *. apply laid_out_restore. lia.
Qed.

Lemma handleUndo_idle (s : Session.t) :
  canUndo (history s) = false -> handleUndo s = s.
Proof. intros Hc. unfold handleUndo. by rewrite Hc. Qed.

Lemma handleRedo_idle (s : Session.t) :
  canRedo (history s) = false -> handleRedo s = s.
Proof. intros Hc. unfold handleRedo. by rewrite Hc. Qed.

(** A snapshot without CR is laid out as it is. *)
Lemma laid_out_synced (s : Session.t) (snapshot : jsstring) :
  laid_out s -> current (history s) = Some snapshot -> CR ∉ snapshot ->
  synced s.
Proof.
  intros (v & Hv & He) Hc Hcr. unfold synced. rewrite Hc in Hv.
  injection Hv as <-. by rewrite He, innerText_written_id.
Qed.

(** [k] undos move the cursor down by [k], stopping at 0. *)
Lemma iter_handleUndo (k : nat) (s : Session.t) :
  in_bounds (history s) ->
  let s' := Nat.iter k handleUndo s in
  stack (history s') = stack (history s) /\
  index (history s') = Z.max 0 (index (history s) - Z.of_nat k) /\
  (index (history s) = 0 -> s' = s).
Proof.
  intros Hb. induction k as [| k (Hst & Hix & Hid)]; simpl.
  - unfold in_bounds in Hb. split; [done | split; [lia | done]].
  - rewrite history_handleUndo, undo_stack, undo_index, Hix.
    split; [done |]. split.
    + destruct (Z.ltb_spec 0 (Z.max 0 (index (history s) - Z.of_nat k))); lia.
    + intros H0. rewrite (Hid H0). apply handleUndo_idle.
      unfold canUndo. rewrite H0. done.
Qed.

(** [k] redos move the cursor up by [k], stopping at the last index; if the
    first one moves it, the buffer ends laid out. *)
Lemma iter_handleRedo (k : nat) (s : Session.t) :
  in_bounds (history s) ->
  let s' := Nat.iter k handleRedo s in
  stack (history s') = stack (history s) /\
  index (history s')
    = Z.min (Z.of_nat (length (stack (history s))) - 1)
            (index (history s) + Z.of_nat k) /\
  (canRedo (history s) = false -> s' = s) /\
  (canRedo (history s) = true -> (0 < k)%nat -> laid_out s').
Proof.
  intros Hb. induction k as [| k (Hst & Hix & Hid & Hlaid)]; simpl.
  - unfold in_bounds in Hb.
    split; [done | split; [lia | split; [done | lia]]].
  - assert (Hb' : in_bounds (history (Nat.iter k handleRedo s))).
    { unfold in_bounds in *. rewrite Hst, Hix. lia. }
    rewrite history_handleRedo, redo_stack, redo_index, Hix, Hst.
    split; [done |]. split.
    { destruct (Z.ltb_spec
        (Z.min (Z.of_nat (length (stack (history s))) - 1)
               (index (history s) + Z.of_nat k))
        (Z.of_nat (length (stack (history s))) - 1)); lia. }
    split.
    { intros Hc. rewrite (Hid Hc). by apply handleRedo_idle. }
    intros Hc _.
    destruct (canRedo (history (Nat.iter k handleRedo s))) eqn:Hc'.
    + by apply laid_out_handleRedo.
    + rewrite handleRedo_idle by done.
      destruct k as [| k']; [| apply Hlaid; [done | lia]].
      simpl in Hc'. congruence.
Qed.

(** Committing texts one after the other from a history whose cursor is on
    its last snapshot: the cursor stays on the last snapshot, which is the
    last text committed. *)
Lemma edits_from_tail (texts : list jsstring) (s : Session.t) :
  in_bounds (history s) -> at_tail (history s) ->
  let s' := foldl (fun s text => edit text s) s texts in
  in_bounds (history s') /\ at_tail (history s') /\
  forall final, last texts = Some final ->
    editor s' = final /\ synced s'.
Proof.
  revert s. induction texts as [| text texts IH] using rev_ind;
    intros s Hb Ht; cbv zeta.
  - split; [done | split; [done |]]. intros final Hl. discriminate Hl.
  - rewrite foldl_app. cbn [foldl].
    destruct (IH s Hb Ht) as (Hb' & Ht' & _).
    rewrite history_edit.
    split; [by apply commit_in_bounds |].
    split; [by apply commit_at_tail |].
    intros final Hl. rewrite last_snoc in Hl. simplify_eq.
    split; [done | apply synced_edit].
Qed.

(** After two different texts committed in a row there is something to
    undo. *)
Lemma edits_distinct_index (texts : list jsstring) (s : Session.t) :
  in_bounds (history s) -> at_tail (history s) ->
  NoDup texts -> (2 <= length texts)%nat ->
  0 < index (history (foldl (fun s text => edit text s) s texts)).
Proof.
  intros Hb Ht Hnd Hlen.
  destruct texts as [| b texts _] using rev_ind; [simpl in Hlen; lia |].
  destruct texts as [| a texts _] using rev_ind;
    [simpl in Hlen; lia |].
  rewrite !foldl_app. cbn [foldl].
  set (u := foldl (fun s text => edit text s) s texts).
  destruct (edits_from_tail texts s Hb Ht) as (Hbu & _). fold u in Hbu.
  assert (Hne : a <> b).
  { intros ->. rewrite <- app_assoc in Hnd. apply NoDup_app in Hnd as (_ & _ & Hnd).
    apply NoDup_cons in Hnd as [Hnot _]. apply Hnot. left. }
  rewrite !history_edit.
  assert (Hb1 : in_bounds (commit a (history u))) by by apply commit_in_bounds.
  rewrite (commit_new b).
  - cbn [index]. rewrite length_app, Nat2Z.inj_add, length_slice_prefix.
    + unfold in_bounds in Hb1. cbn [length]. lia.
    + unfold in_bounds in Hb1. lia.
  - rewrite current_commit. congruence.
Qed.

(** The walk of commits, undos and redos, for any texts and any number [k]
    of undos and redos: the history comes back, and the buffer shows the
    last text as it was typed if nothing moved, laid out by the setter if
    something did. *)
Lemma roundtrip_general (s : Session.t) (texts : list jsstring)
    (final : jsstring) (k : nat) :
  in_bounds (history s) -> at_tail (history s) ->
  last texts = Some final ->
  let committed := foldl (fun s text => edit text s) s texts in
  let s' := Nat.iter k handleRedo (Nat.iter k handleUndo committed) in
  history s' = history committed /\
  current (history s') = Some final /\
  (k = 0%nat \/ index (history committed) = 0 -> editor s' = final) /\
  ((0 < k)%nat -> 0 < index (history committed) ->
   editor s' = innerText_written final).
Proof.
  intros Hb Ht Hlast committed s'.
  destruct (edits_from_tail texts s Hb Ht) as (Hb1 & Ht1 & Hfin).
  destruct (Hfin final Hlast) as [Hed Hsy].
  fold committed in Hb1, Ht1, Hed, Hsy.
  destruct (iter_handleUndo k committed Hb1) as (Hst2 & Hix2 & Hid2).
  assert (Hb2 : in_bounds (history (Nat.iter k handleUndo committed))).
  { unfold in_bounds in *. rewrite Hst2, Hix2. lia. }
  destruct (iter_handleRedo k _ Hb2) as (Hst3 & Hix3 & Hid3 & Hlaid3).
  fold s' in Hst3, Hix3, Hid3, Hlaid3.
  assert (Heq : history s' = history committed).
  { rewrite Hst2 in Hst3, Hix3. rewrite Hix2 in Hix3.
    unfold at_tail, in_bounds in *.
    destruct (history s') as [st ix], (history committed) as [st0 ix0].
    simpl in *. subst st. f_equal. lia. }
  assert (Hcur : current (history s') = Some final).
  { rewrite Heq. unfold synced in Hsy. by rewrite Hsy, Hed. }
  split; [done |]. split; [done |]. split.
  - intros Hidle.
    assert (Hu : Nat.iter k handleUndo committed = committed).
    { destruct Hidle as [-> | H0]; [done | by apply Hid2]. }
    unfold s'. rewrite Hu in Hid3 |- *. unfold s' in Hid3.
    rewrite Hu in Hid3. rewrite Hid3; [done |].
    unfold canRedo. unfold at_tail in Ht1. rewrite Ht1.
    apply Z.ltb_irrefl.
  - intros Hk Hix.
    destruct Hlaid3 as (v & Hv & He); [| done |].
    + unfold canRedo. rewrite Hst2, Hix2. unfold at_tail in Ht1.
      apply Z.ltb_lt. lia.
    + rewrite Hcur in Hv. injection Hv as <-. done.
Qed.

(** C3, as the code has it.  In a session whose history is fresh,
    committing N pairwise distinct texts in order, then undoing N-1 times,
    then redoing N-1 times, brings back the history, with the last text
    committed as the snapshot under the cursor.  The editable buffer shows
    that text as the [innerText] setter lays it out, every CR and CR LF
    turned into LF, as soon as one redo has written it (N >= 2); it is the
    last text itself when that text holds no CR, and when N <= 1. *)
Theorem undo_redo_roundtrip (s : Session.t) (initialText : jsstring)
    (texts : list jsstring) (final : jsstring) :
  history s = reset initialText ->
  NoDup texts ->
  last texts = Some final ->
  let N := length texts in
  let committed := foldl (fun s text => edit text s) s texts in
  let s' :=
    Nat.iter (N - 1) handleRedo (Nat.iter (N - 1) handleUndo committed) in
  history s' = history committed /\
  current (history s') = Some final /\
  ((2 <= N)%nat -> editor s' = innerText_written final) /\
  ((N <= 1)%nat -> editor s' = final) /\
  (CR ∉ final -> editor s' = final).
Proof.
  intros Hfresh Hnd Hlast N committed s'.
  assert (Hb : in_bounds (history s))
    by (rewrite Hfresh; unfold in_bounds; simpl; lia).
  assert (Ht : at_tail (history s)) by by rewrite Hfresh.
  destruct (roundtrip_general s texts final (N - 1) Hb Ht Hlast)
    as (Hh & Hc & Hsame & Hlaid).
  fold committed in Hh, Hc, Hsame, Hlaid. fold s' in Hh, Hc, Hsame, Hlaid.
  assert (Hmoved : (2 <= N)%nat -> editor s' = innerText_written final).
  { intros HN. apply Hlaid; [lia |].
    by apply edits_distinct_index. }
  assert (Hstill : (N <= 1)%nat -> editor s' = final).
  { intros HN. apply Hsame. left. lia. }
  split; [done |]. split; [done |]. split; [done |]. split; [done |].
  intros Hcr. destruct (Nat.le_gt_cases N 1) as [HN | HN]; [by apply Hstill |].
  rewrite Hmoved by lia. by apply innerText_written_id.
Qed.

Lemma undo_redo_roundtrip_witness :
  let texts := [[66]; [67]; [68]]%N in
  let committed := foldl (fun s text => edit text s) mount texts in
  let s' := Nat.iter 2 handleRedo (Nat.iter 2 handleUndo committed) in
  (editor (Nat.iter 2 handleUndo committed) = [66]%N) /\
  editor s' = [68]%N /\ current (history s') = Some [68]%N.
Proof.
  split; [reflexivity |].
  destruct (undo_redo_roundtrip mount [] [[66]; [67]; [68]]%N [68]%N)
    as (_ & Hc & _ & _ & He).
  - reflexivity.
  - apply (bool_decide_unpack _). vm_compute. reflexivity.
  - reflexivity.
  - split; [apply He | exact Hc].
    apply (bool_decide_unpack _). vm_compute. exact I.
Defined.

(** C3 fails as stated for a text that holds a carriage return: after the
    texts "a" and "b CR c" are committed, one undo and one redo leave the
    snapshot "b CR c" under the cursor, but the buffer reads "b LF c". *)
Lemma undo_redo_carriage_return_counterexample :
  let texts := [[97]; [98; 13; 99]]%N in
  let committed := foldl (fun s text => edit text s) mount texts in
  let s' := Nat.iter 1 handleRedo (Nat.iter 1 handleUndo committed) in
  NoDup texts /\
  history mount = reset [] /\
  editor committed = [98; 13; 99]%N /\
  current (history s') = Some [98; 13; 99]%N /\
  editor s' = [98; 10; 99]%N /\
  editor s' <> [98; 13; 99]%N.
Proof.
  split; [apply (bool_decide_unpack _); vm_compute; exact I |].
  vm_compute. by repeat split.
Qed.

(** ** The invariant along a session *)

Lemma history_debounceFire (s : Session.t) :
  history (debounceFire s) = history s \/
  history (debounceFire s) = commit (editor s) (history s).
Proof.
  unfold debounceFire. destruct (debouncePending s); [right | left]; done.
Qed.

Lemma step_invariant (initialText : jsstring) (s : Session.t) (ev : event) :
  same_result ev -> invariant initialText (history s) ->
  exists s', step s ev = Ok s' /\ invariant initialText (history s').
Proof.
  intros Hev Hinv. destruct ev; try discriminate Hev; simpl;
    eexists; (split; [reflexivity |]).
  - unfold handleWordEnter. by destruct (hasEditedSinceLoad s).
  - unfold handleWordSpanMouseLeave. by destruct (hasEditedSinceLoad s).
  - done.
  - destruct (history_debounceFire s) as [-> | ->];
      [done | by apply commit_invariant].
  - rewrite history_handleUndo. by apply undo_invariant.
  - rewrite history_handleRedo. by apply redo_invariant.
  - done.
Qed.

Lemma run_invariant (initialText : jsstring) (evs : list event)
    (s : Session.t) :
  Forall same_result evs -> invariant initialText (history s) ->
  exists s', run evs s = Ok s' /\ invariant initialText (history s').
Proof.
  intros Hevs. revert s.
  induction Hevs as [| ev evs Hev _ IH]; intros s Hinv; simpl.
  - by exists s.
  - destruct (step_invariant initialText s ev Hev Hinv) as (s1 & -> & H1).
    simpl. by apply IH.
Qed.

Lemma load_fresh (words : list Reconstruct.Word) (s0 s1 : Session.t) :
  load words s0 = Ok s1 ->
  Reconstruct.reconstruct words = Ok (editor s1) /\
  history s1 = reset (editor s1) /\
  hasEditedSinceLoad s1 = false.
Proof.
  unfold load.
  destruct (Reconstruct.overlay words) as [boxes | e]; simpl;
    [| intros Heq; discriminate Heq].
  destruct (Reconstruct.reconstruct words) as [t0 | e]; simpl;
    intros Heq; [| discriminate Heq].
  by injection Heq as <-.
Qed.

(** C9.  The reconstruction installs a history that satisfies
    [0 <= cursor < length snapshots] with the reconstructed text at index
    0; commit, undo and redo each preserve both facts, and so does every
    sequence of events of a session that keeps its analysis result; undo
    does nothing at cursor 0 and redo does nothing at the last index. *)
Theorem history_invariant (initialText text : jsstring) (h : History.t) :
  invariant initialText h ->
  invariant initialText (reset initialText) /\
  invariant initialText (commit text h) /\
  invariant initialText (undo h) /\
  invariant initialText (redo h) /\
  (index h = 0 -> undo h = h) /\
  (index h = Z.of_nat (length (stack h)) - 1 -> redo h = h) /\
  (forall words s0 s1, load words s0 = Ok s1 ->
     invariant (editor s1) (history s1)) /\
  (forall s evs, history s = h -> Forall same_result evs ->
     exists s', run evs s = Ok s' /\ invariant initialText (history s')).
Proof.
  intros Hinv.
  split; [apply reset_invariant |].
  split; [by apply commit_invariant |].
  split; [by apply undo_invariant |].
  split; [by apply redo_invariant |].
  split; [apply undo_at_zero |].
  split; [apply redo_at_last |].
  split.
  - intros words s0 s1 Hload.
    destruct (load_fresh words s0 s1 Hload) as (_ & -> & _).
    apply reset_invariant.
  - intros s evs <- Hevs. by apply run_invariant.
Qed.

Lemma history_invariant_witness :
  let h := commit [66%N] (reset [65%N]) in
  invariant [65%N] h /\
  invariant [65%N] (commit [67%N] (undo h)) /\
  undo (undo h) = undo h /\ redo h = h.
Proof.
  intros h.
  assert (Hinv : invariant [65%N] h).
  { unfold invariant, in_bounds. simpl. split; [lia | reflexivity]. }
  split; [exact Hinv |].
  destruct (history_invariant [65%N] [67%N] h Hinv)
    as (_ & _ & Hundo & _ & _ & Hredo & _).
  split.
  - exact (proj1 (proj2 (history_invariant [65%N] [67%N] (undo h) Hundo))).
  - split.
    + refine (proj1 (proj2 (proj2 (proj2 (proj2
        (history_invariant [65%N] [67%N] (undo h) Hundo))))) _).
      reflexivity.
    + apply Hredo. reflexivity.
Defined.

(** ** The highlight latch *)

Lemma step_latched (s : Session.t) (ev : event) :
  same_result ev -> hasEditedSinceLoad s = true ->
  exists s', step s ev = Ok s' /\
    hasEditedSinceLoad s' = true /\
    highlightedWord s' = highlightedWord s.
Proof.
  intros Hev Hl. destruct ev; try discriminate Hev; simpl;
    eexists; (split; [reflexivity |]).
  - unfold handleWordEnter. by rewrite Hl.
  - unfold handleWordSpanMouseLeave. by rewrite Hl.
  - simpl. by rewrite Hl.
  - unfold debounceFire. by destruct (debouncePending s).
  - unfold handleUndo. by destruct (canUndo (history s)).
  - unfold handleRedo. by destruct (canRedo (history s)).
  - done.
Qed.

Lemma run_latched (evs : list event) (s : Session.t) :
  Forall same_result evs -> hasEditedSinceLoad s = true ->
  exists s', run evs s = Ok s' /\
    hasEditedSinceLoad s' = true /\
    highlightedWord s' = highlightedWord s.
Proof.
  intros Hevs. revert s.
  induction Hevs as [| ev evs Hev _ IH]; intros s Hl; simpl.
  - by exists s.
  - destruct (step_latched s ev Hev Hl) as (s1 & -> & Hl1 & Hh1). simpl.
    destruct (IH s1 Hl1) as (s' & Hrun & Hl' & Hh').
    exists s'. by rewrite Hh', Hh1.
Qed.

(** C4.  After one raw edit event, whatever events follow while the
    analysis result stays the same (hovers, further edits, timer firings,
    undos, redos), the latch is still set and the highlight is the one left
    by the edit; in the state reached a mouse-enter on any word and a
    mouse-leave both leave the highlight as it is.  Once a new analysis
    result has been loaded the latch is released: a mouse-enter highlights
    its word and a mouse-leave clears the highlight. *)
Theorem highlight_latch (s : Session.t) (currentText : jsstring)
    (evs : list event) :
  Forall same_result evs ->
  let edited := handleInput currentText s in
  exists s', run evs edited = Ok s' /\
    hasEditedSinceLoad s' = true /\
    highlightedWord s' = highlightedWord edited /\
    (forall word,
       highlightedWord (handleWordEnter word s') = highlightedWord s') /\
    highlightedWord (handleWordSpanMouseLeave s') = highlightedWord s' /\
    (forall words s'', load words s' = Ok s'' ->
       hasEditedSinceLoad s'' = false /\
       (forall word,
          highlightedWord (handleWordEnter word s'') = Some word) /\
       highlightedWord (handleWordSpanMouseLeave s'') = None).
Proof.
  intros Hevs edited.
  destruct (run_latched evs edited Hevs eq_refl) as (s' & Hrun & Hl & Hh).
  exists s'. split; [done |]. split; [done |]. split; [done |].
  split; [| split].
  - intros word. unfold handleWordEnter. by rewrite Hl.
  - unfold handleWordSpanMouseLeave. by rewrite Hl.
  - intros words s'' Hload.
    destruct (load_fresh words s' s'' Hload) as (_ & _ & Hfalse).
    split; [done |]. split.
    + intros word. unfold handleWordEnter. by rewrite Hfalse.
    + unfold handleWordSpanMouseLeave. by rewrite Hfalse.
Qed.

Lemma highlight_latch_witness :
  let word := {| Reconstruct.text := [65%N];
                 Reconstruct.boundingBox := None |} in
  let hovered := handleWordEnter word mount in
  highlightedWord hovered = Some word /\
  exists s', run [WordEnter word; Undo; WordLeave; DebounceFire; WordEnter word]
                 (handleInput [66%N] hovered) = Ok s' /\
             highlightedWord s' = None.
Proof.
  intros word hovered. split; [reflexivity |].
  destruct (highlight_latch hovered [66%N]
              [WordEnter word; Undo; WordLeave; DebounceFire; WordEnter word])
    as (s' & Hrun & _ & Hh & _).
  - repeat constructor.
  - exists s'. split; [exact Hrun | exact Hh].
Defined.

End SessionFacts.

(* ===================================================================== *)
(** * Diacritics                                                          *)
(* ===================================================================== *)

Module DiacriticsFacts.
Import JS Diacritics.

Lemma class_matches_diacritics (c : codeunit) :
  class_matches diacritics_class c = bool_decide (is_stripped c).
Proof.
  unfold class_matches, diacritics_class, is_stripped. simpl.
  rewrite orb_false_r.
  destruct (N.leb_spec 0x064B c), (N.leb_spec c 0x0652),
           (N.leb_spec 0x0640 c), (N.leb_spec c 0x0640); simpl;
    symmetry; first [ apply bool_decide_eq_true | apply bool_decide_eq_false ];
    lia.
Qed.

(** The regular-expression replacement is the filter of the
    specification. *)
Lemma removeDiacritics_filter (s : jsstring) :
  removeDiacritics s = strip_spec s.
Proof.
  unfold removeDiacritics, strip_spec.
  induction s as [| c s IH]; [done |].
  cbn [replace_class_global]. rewrite class_matches_diacritics, IH.
  destruct (decide (is_stripped c)) as [Hc | Hc].
  - rewrite bool_decide_eq_true_2 by done.
    by rewrite filter_cons_False by (by intros Hn).
  - rewrite bool_decide_eq_false_2 by done.
    by rewrite filter_cons_True by done.
Qed.

(** C10.  [removeDiacritics] keeps, in their order, exactly the code units
    of its argument that are neither in U+064B..U+0652 nor U+0640: its
    result is that filter of the argument, a code unit occurs in the result
    iff it occurs in the argument and is not one of those, and a second
    application changes nothing.  The text handed to copy and export is the
    snapshot under the cursor, unchanged when diacritics are shown and
    stripped when they are hidden. *)
Theorem removeDiacritics_spec (s : jsstring) (session : Session.t)
    (rawText : jsstring) :
  History.current (Session.history session) = Some rawText ->
  removeDiacritics s = filter (fun c => ~ is_stripped c) s /\
  sublist (removeDiacritics s) s /\
  (forall c, c ∈ removeDiacritics s <-> c ∈ s /\ ~ is_stripped c) /\
  removeDiacritics (removeDiacritics s) = removeDiacritics s /\
  (Session.diacriticsVisible session = true ->
     Session.getTextToProcess session = rawText) /\
  (Session.diacriticsVisible session = false ->
     Session.getTextToProcess session = removeDiacritics rawText).
Proof.
  intros Hcur.
  split; [apply removeDiacritics_filter |].
  split; [rewrite removeDiacritics_filter; apply sublist_filter |].
  split.
  { intros c. rewrite removeDiacritics_filter. unfold strip_spec.
    rewrite list_elem_of_filter. tauto. }
  split.
  { rewrite !removeDiacritics_filter. unfold strip_spec.
    apply list_filter_filter_l. tauto. }
  unfold Session.getTextToProcess. rewrite Hcur. simpl.
  split; intros ->; done.
Qed.

Lemma removeDiacritics_spec_witness :
  (* kaf, fatha, tatweel, ta, shadda, ba *)
  let s := [0x0643; 0x064E; 0x0640; 0x062A; 0x0651; 0x0628]%N in
  let session := Session.toggleDiacritics (Session.edit s Session.mount) in
  removeDiacritics s = [0x0643; 0x062A; 0x0628]%N /\
  Session.getTextToProcess session = removeDiacritics s.
Proof.
  intros s session. split; [reflexivity |].
  refine (proj2 (proj2 (proj2 (proj2 (proj2
    (removeDiacritics_spec s session s _))))) _); reflexivity.
Defined.

End DiacriticsFacts.

(* ===================================================================== *)
(** * Facts about binary64 comparison                                     *)
(* ===================================================================== *)

Module NumberFacts.
Import JS.

(** The literals are the correctly rounded quotients of their decimals. *)
Lemma literals_nearest :
  lit_0_5 = div (ofZ 5) (ofZ 10) /\
  lit_0_7 = div (ofZ 7) (ofZ 10) /\
  lit_1_2 = div (ofZ 12) (ofZ 10) /\
  lit_1 = ofZ 1 /\ lit_2 = ofZ 2 /\ lit_5 = ofZ 5.
Proof. vm_compute. repeat split. Qed.

Lemma compare_antisym (a b : number) :
  SFcompare b a = option_map CompOpp (SFcompare a b).
Proof.
  destruct a as [s1 | s1 | | s1 m1 e1], b as [s2 | s2 | | s2 m2 e2];
    try destruct s1; try destruct s2; simpl; try reflexivity;
    rewrite (Z.compare_antisym e2 e1);
    destruct (e2 ?= e1) eqn:He; simpl; try reflexivity;
    change (Pos.compare_cont Eq ?p ?q) with (Pos.compare p q);
    rewrite (Pos.compare_antisym m2 m1);
    by destruct (m2 ?= m1)%positive.
Qed.

Lemma lt_irrefl (a : number) : lt a a = false.
Proof.
  unfold lt, SFltb. pose proof (compare_antisym a a) as H.
  destruct (SFcompare a a) as [[ | | ] |]; simpl in H; congruence.
Qed.

(** Nothing is below an absolute value of zero. *)
Lemma abs_not_below_zero (d : number) (s : bool) :
  lt (Math_abs d) (S754_zero s) = false.
Proof. by destruct d as [? | ? | | ? ? ?]. Qed.



End NumberFacts.

(* ===================================================================== *)
(** * Rounding of binary64 products                                       *)
(* ===================================================================== *)

Module RoundingFacts.
Import JS.

(** The powers of two that bound mantissas and products, as literals. *)
Ltac pow_literals :=
  change (2 ^ 52) with 4503599627370496 in *;
  change (2 ^ 53) with 9007199254740992 in *;
  change (2 ^ 104) with 20282409603651670423947251286016 in *;
  change (2 ^ 105) with 40564819207303340847894502572032 in *;
  change (2 ^ 106) with 81129638414606681695789005144064 in *.

(** The quotient [a / b] by a positive literal, as an unknown [q] between
    its two bounds. *)
Ltac quotient a b q :=
  pose proof (Z.mul_div_le a b eq_refl);
  pose proof (Z.mul_succ_div_gt a b eq_refl);
  set (q := a / b) in *; clearbody q.

(** ** Binary digits and right shifts *)

Lemma digits2_pos_bounds (p : positive) :
  2 ^ (Zpos (digits2_pos p) - 1) <= Zpos p < 2 ^ Zpos (digits2_pos p).
Proof.
  induction p as [p IH | p IH |]; cbn [digits2_pos].
  3: simpl; lia.
  all: rewrite Pos2Z.inj_succ, Z.pow_succ_r by lia;
    replace (Z.succ (Zpos (digits2_pos p)) - 1)
      with (Z.succ (Zpos (digits2_pos p) - 1)) by lia;
    rewrite Z.pow_succ_r by lia; lia.
Qed.

Lemma digits2_pos_unique (p : positive) (d : Z) :
  2 ^ (d - 1) <= Zpos p < 2 ^ d -> 0 < d -> Zpos (digits2_pos p) = d.
Proof.
  intros Hd Hpos. pose proof (digits2_pos_bounds p) as Hp.
  set (k := Zpos (digits2_pos p)) in *.
  assert (0 < k) by (subst k; lia).
  destruct (Z.lt_trichotomy k d) as [Hlt | [Heq | Hgt]]; [| done |].
  - assert (2 ^ k <= 2 ^ (d - 1)) by (apply Z.pow_le_mono_r; lia). lia.
  - assert (2 ^ d <= 2 ^ (k - 1)) by (apply Z.pow_le_mono_r; lia). lia.
Qed.

Lemma shr_1_m (mrs : shr_record) :
  0 <= shr_m mrs -> shr_m (shr_1 mrs) = shr_m mrs / 2.
Proof.
  destruct mrs as [m r s]. cbn [shr_m]. intros Hm.
  destruct m as [| [p | p |] | p]; cbn [shr_1 shr_m];
    [reflexivity | | | reflexivity | lia].
  - apply Z.div_unique with 1; lia.
  - apply Z.div_unique with 0; lia.
Qed.

Lemma iter_pos_shr_m (p : positive) (mrs : shr_record) :
  0 <= shr_m mrs ->
  shr_m (SpecFloat.iter_pos shr_1 p mrs) = shr_m mrs / 2 ^ Zpos p.
Proof.
  revert mrs. induction p as [p IH | p IH |]; intros mrs Hm;
    cbn [SpecFloat.iter_pos].
  - assert (H1 : 0 <= shr_m (shr_1 mrs)).
    { rewrite shr_1_m by done. apply Z.div_pos; lia. }
    assert (H2 : 0 <= shr_m (SpecFloat.iter_pos shr_1 p (shr_1 mrs))).
    { rewrite IH by done.
      apply Z.div_pos; [done | apply Z.pow_pos_nonneg; lia]. }
    assert (Hp : 2 ^ Zpos p~1 = 2 * 2 ^ Zpos p * 2 ^ Zpos p).
    { rewrite <- Z.mul_assoc, <- Z.pow_add_r, <- Z.pow_succ_r by lia.
      f_equal. lia. }
    rewrite IH, IH, shr_1_m, Hp by done.
    rewrite !Z.div_div by (try apply Z.pow_pos_nonneg; lia).
    by rewrite Z.mul_assoc.
  - assert (H2 : 0 <= shr_m (SpecFloat.iter_pos shr_1 p mrs)).
    { rewrite IH by done.
      apply Z.div_pos; [done | apply Z.pow_pos_nonneg; lia]. }
    assert (Hp : 2 ^ Zpos p~0 = 2 ^ Zpos p * 2 ^ Zpos p).
    { rewrite <- Z.pow_add_r by lia. f_equal. lia. }
    rewrite IH, IH, Hp by done.
    by rewrite !Z.div_div by (try apply Z.pow_pos_nonneg; lia).
  - rewrite shr_1_m by done. done.
Qed.

Lemma round_nearest_even_bounds (q : Z) (l : location) :
  q <= round_nearest_even q l <= q + 1.
Proof.
  destruct l as [| [ | | ]]; simpl; try lia. destruct (Z.even q); lia.
Qed.

(** ** Rounding to nearest even *)

Lemma fexp_binary64 (e : Z) : fexp 53 1024 e = Z.max (e - 53) (-1074).
Proof. reflexivity. Qed.

Lemma shr_nonpos (mrs : shr_record) (e n : Z) :
  n <= 0 -> shr mrs e n = (mrs, e).
Proof. intros Hn. destruct n; [done | lia | done]. Qed.

Lemma shr_pos_m (mrs : shr_record) (e n : Z) :
  0 < n -> 0 <= shr_m mrs ->
  shr_m (fst (shr mrs e n)) = shr_m mrs / 2 ^ n /\ snd (shr mrs e n) = e + n.
Proof.
  intros Hn Hm. destruct n as [| p | p]; [lia | | lia]. simpl.
  split; [by apply iter_pos_shr_m | done].
Qed.

(** The shape of a rounded positive value [P * 2^E] that needs [n > 0] bits
    shifted out and whose quotient fits the precision. *)
Lemma binary_round_aux_shape (P : positive) (E n : Z) :
  let q := Zpos P / 2 ^ n in
  n = fexp 53 1024 (Zpos (digits2_pos P) + E) - E ->
  0 < n -> 0 < q < 9007199254740992 ->
  E + n <= 971 -> (q + 1 = 9007199254740992 -> E + n + 1 <= 971) ->
  exists m' e',
    binary_round_aux 53 1024 false (Zpos P) E loc_Exact
      = S754_finite false m' e' /\
    ((e' = E + n /\ q <= Zpos m' <= q + 1 /\ Zpos m' < 9007199254740992) \/
     (e' = E + n + 1 /\ Zpos m' = 4503599627370496 /\
      q + 1 = 9007199254740992)).
Proof.
  intros q Hn Hpos Hq Hmax Hcarry.
  unfold binary_round_aux, shr_fexp. cbn [Zdigits2 shr_record_of_loc].
  rewrite <- Hn.
  destruct (shr_pos_m {| shr_m := Zpos P; shr_r := false; shr_s := false |}
              E n Hpos) as [Hm He]; [simpl; lia |].
  destruct (shr _ E n) as [mrs' e']. cbn [fst snd shr_m] in Hm, He. subst e'.
  fold q in Hm.
  pose proof (round_nearest_even_bounds (shr_m mrs') (loc_of_shr_record mrs'))
    as Hq'.
  set (q' := round_nearest_even (shr_m mrs') (loc_of_shr_record mrs')) in *.
  rewrite Hm in Hq'.
  assert (Hemin : -1074 <= E + n).
  { rewrite Hn, fexp_binary64. lia. }
  destruct (Z.eq_dec q' 9007199254740992) as [Hc | Hnc].
  - rewrite Hc.
    replace (fexp 53 1024 (Zdigits2 9007199254740992 + (E + n)) - (E + n))
      with 1 by (rewrite fexp_binary64; simpl Zdigits2; lia).
    simpl.
    change (1024 - 53) with 971.
    destruct (Z.leb_spec (E + n + 1) 971); [| lia].
    eexists _, _. split; [reflexivity |]. right. lia.
  - destruct q' as [| m' | m'] eqn:Hq'eq; [lia | | lia].
    rewrite shr_nonpos.
    + simpl. change (1024 - 53) with 971.
      destruct (Z.leb_spec (E + n) 971); [| lia].
      eexists _, _. split; [reflexivity |]. left. lia.
    + rewrite fexp_binary64. cbn [Zdigits2].
      pose proof (digits2_pos_bounds m') as Hd.
      assert (Zpos (digits2_pos m') <= 53); [| lia].
      destruct (Z.le_gt_cases (Zpos (digits2_pos m')) 53) as [| Hgt]; [done |].
      assert (2 ^ 53 <= 2 ^ (Zpos (digits2_pos m') - 1))
        by (apply Z.pow_le_mono_r; lia).
      change (2 ^ 53) with 9007199254740992 in *. lia.
Qed.

Lemma ltb_finite (m1 m2 : positive) (e1 e2 : Z) :
  e1 < e2 \/ (e1 = e2 /\ Zpos m1 < Zpos m2) ->
  SFltb (S754_finite false m1 e1) (S754_finite false m2 e2) = true.
Proof.
  intros H. unfold SFltb, SFcompare.
  destruct (Z.compare_spec e1 e2) as [Heq | Hlt | Hgt]; [| done | lia].
  change (Pos.compare_cont Eq m1 m2) with (Pos.compare m1 m2).
  destruct (Pos.compare_spec m1 m2); [lia | done | lia].
Qed.

(** The same for the product of two 53-bit mantissas, the right one at most
    that of 0.7, at exponent [e - 53]. *)
Lemma round_product_shape (P : positive) (e : Z) :
  let n := product_shift (Zpos P) e in
  let q := Zpos P / 2 ^ n in
  2 ^ 104 <= Zpos P < 2 ^ 53 * 6305039478318695 ->
  -1074 <= e <= 971 ->
  exists m' e',
    binary_round_aux 53 1024 false (Zpos P) (e + -53) loc_Exact
      = S754_finite false m' e' /\
    ((e' = e - 53 + n /\ q <= Zpos m' <= q + 1 /\ Zpos m' < 2 ^ 53) \/
     (e' = e - 53 + n + 1 /\ Zpos m' = 2 ^ 52 /\ q + 1 = 2 ^ 53)).
Proof.
  intros n q HP He.
  assert (Hd : Zpos (digits2_pos P) = if Zpos P <? 2 ^ 105 then 105 else 106).
  { destruct (Z.ltb_spec (Zpos P) (2 ^ 105)); apply digits2_pos_unique;
      change (2 ^ (105 - 1)) with (2 ^ 104);
      change (2 ^ (106 - 1)) with (2 ^ 105); pow_literals; lia. }
  assert (Hn : n = fexp 53 1024 (Zpos (digits2_pos P) + (e + -53)) - (e + -53)).
  { rewrite Hd, fexp_binary64. unfold n, product_shift.
    destruct (Z.ltb_spec (Zpos P) (2 ^ 105)), (Z.leb_spec (-1073) e);
      simpl andb; cbv iota; lia. }
  assert (Hcases : (n = 52 /\ Zpos P < 2 ^ 105) \/ n = 53).
  { unfold n, product_shift.
    destruct (Z.ltb_spec (Zpos P) (2 ^ 105)), (Z.leb_spec (-1073) e);
      simpl andb; cbv iota; auto. }
  replace (e - 53 + n) with (e + -53 + n) by lia.
  pow_literals.
  apply binary_round_aux_shape; [exact Hn | | | | ];
    fold q; destruct Hcases as [[Hn' HP'] | Hn']; subst q; rewrite Hn';
    pow_literals; Z.to_euclidean_division_equations; lia.
Qed.

Lemma normal_bounds (m : positive) (e : Z) :
  Zpos (digits2_pos m) = 53 -> bounded 53 1024 m e = true ->
  2 ^ 52 <= Zpos m < 2 ^ 53 /\ -1074 <= e <= 971.
Proof.
  intros Hd Hb. pose proof (digits2_pos_bounds m) as Hm. rewrite Hd in Hm.
  split; [exact Hm |].
  unfold bounded, canonical_mantissa in Hb. rewrite Hd, fexp_binary64 in Hb.
  apply andb_prop in Hb as [Hc He]. lia.
Qed.

(** For a positive normal [h], the products [h * 0.69] and [h * 0.7] round
    to different doubles, in that order. *)
Lemma mul_069_below_mul_07 (m : positive) (e : Z) :
  Zpos (digits2_pos m) = 53 -> bounded 53 1024 m e = true ->
  lt (mul (S754_finite false m e) (decimal 69 100))
     (mul (S754_finite false m e) lit_0_7) = true.
Proof.
  intros Hd Hb. destruct (normal_bounds m e Hd Hb) as [Hm He].
  change (decimal 69 100) with (S754_finite false 6214967485771284 (-53)).
  unfold lt, mul, lit_0_7, prec, emax. cbn [SFmul xorb].
  destruct (round_product_shape (m * 6214967485771284) e)
    as (m1 & e1 & -> & H1); [| exact He |].
  { rewrite Pos2Z.inj_mul. pow_literals. lia. }
  destruct (round_product_shape (m * 6305039478318694) e)
    as (m2 & e2 & -> & H2); [| exact He |].
  { rewrite Pos2Z.inj_mul. pow_literals. lia. }
  apply ltb_finite.
  rewrite !Pos2Z.inj_mul in H1, H2.
  set (M := Zpos m) in *.
  set (n1 := product_shift (M * 6214967485771284) e) in *.
  set (n2 := product_shift (M * 6305039478318694) e) in *.
  assert (Hn : (n1 = 52 /\ n2 = 52 /\ -1073 <= e) \/
               (n1 = 52 /\ n2 = 53 /\ -1073 <= e /\
                M * 6214967485771284 < 40564819207303340847894502572032) \/
               (n1 = 53 /\ n2 = 53)).
  { unfold n1, n2, product_shift. pow_literals.
    destruct (Z.ltb_spec (M * 6214967485771284)
                40564819207303340847894502572032),
             (Z.ltb_spec (M * 6305039478318694)
                40564819207303340847894502572032),
             (Z.leb_spec (-1073) e); cbn [andb]; lia. }
  clearbody n1 n2. pow_literals.
  destruct Hn as [(-> & -> & Hlow) | [(-> & -> & Hlow & Hsmall) | (-> & ->)]];
    pow_literals.
  - quotient (M * 6214967485771284) 4503599627370496 q1.
    quotient (M * 6305039478318694) 4503599627370496 q2.
    destruct H1 as [H1 | H1], H2 as [H2 | H2]; lia.
  - quotient (M * 6214967485771284) 4503599627370496 q1.
    quotient (M * 6305039478318694) 9007199254740992 q2.
    destruct H1 as [H1 | H1], H2 as [H2 | H2]; lia.
  - quotient (M * 6214967485771284) 9007199254740992 q1.
    quotient (M * 6305039478318694) 9007199254740992 q2.
    destruct H1 as [H1 | H1], H2 as [H2 | H2]; lia.
Qed.

(** The product of a subnormal of mantissa [M >= 200] with a 53-bit
    mantissa [c] at exponent -53, not above that of 0.7: the result is
    subnormal, its mantissa the quotient by 2^53, rounded. *)
Lemma subnormal_product_shape (M c : positive) :
  200 <= Zpos M < 2 ^ 52 ->
  2 ^ 52 <= Zpos c < 6305039478318695 ->
  let q := Zpos (M * c) / 2 ^ 53 in
  exists m',
    binary_round_aux 53 1024 false (Zpos (M * c)) (-1074 + -53) loc_Exact
      = S754_finite false m' (-1074) /\
    q <= Zpos m' <= q + 1.
Proof.
  intros HM Hc q.
  assert (HP : 2 ^ 53 <= Zpos (M * c) < 2 ^ 105).
  { rewrite Pos2Z.inj_mul. pow_literals. nia. }
  assert (Hd : Zpos (digits2_pos (M * c)) <= 105).
  { pose proof (digits2_pos_bounds (M * c)) as Hb.
    destruct (Z.le_gt_cases (Zpos (digits2_pos (M * c))) 105) as [| Hgt];
      [done |].
    assert (2 ^ 105 <= 2 ^ (Zpos (digits2_pos (M * c)) - 1))
      by (apply Z.pow_le_mono_r; lia).
    lia. }
  assert (Hq : 0 < q < 4503599627370496).
  { subst q. pow_literals. rewrite Pos2Z.inj_mul in *.
    split.
    - apply Z.div_str_pos. lia.
    - apply Z.div_lt_upper_bound; [lia |]. nia. }
  destruct (binary_round_aux_shape (M * c) (-1074 + -53) 53)
    as (m' & e' & Heq & Hshape).
  - rewrite fexp_binary64. lia.
  - lia.
  - fold q. lia.
  - lia.
  - lia.
  - fold q in Hshape. exists m'.
    destruct Hshape as [(-> & Hm' & _) | (_ & _ & Hcarry)]; [| lia].
    split; [exact Heq | exact Hm'].
Qed.

End RoundingFacts.

(* ===================================================================== *)
(** * Zoom bounds                                                         *)
(* ===================================================================== *)

Module ZoomFacts.
Import JS NumberFacts Zoom.

Lemma reachable_start : lit_1 ∈ reachable_scales.
Proof. apply (bool_decide_unpack _). vm_compute. exact I. Qed.

Lemma reachable_closed (scale : number) :
  scale ∈ reachable_scales ->
  handleZoomIn scale ∈ reachable_scales /\
  handleZoomOut scale ∈ reachable_scales.
Proof.
  revert scale. apply Forall_forall.
  apply (bool_decide_unpack _). vm_compute. exact I.
Qed.


Lemma act_reachable (scale : number) (a : action) :
  scale ∈ reachable_scales -> act scale a ∈ reachable_scales.
Proof.
  intros Hs. destruct (reachable_closed scale Hs) as [Hin Hout].
  destruct a; simpl; try done.
  - apply reachable_start.
  - unfold handleWheel. by destruct (lt deltaY (S754_zero false)).
Qed.

Lemma foldl_act_reachable (actions : list action) (scale : number) :
  scale ∈ reachable_scales -> foldl act scale actions ∈ reachable_scales.
Proof.
  revert scale. induction actions as [| a actions IH]; intros scale Hs; simpl.
  - done.
  - by apply IH, act_reachable.
Qed.



End ZoomFacts.

(* ===================================================================== *)
(** * Reconstruction of the editable text                                 *)
(* ===================================================================== *)

Module ReconstructFacts.
Import JS NumberFacts RoundingFacts Reconstruct.

(** ** Sorting permutes, and fails only if the comparator does *)

Section Sort.
Context {A : Type} (comparefn : A -> A -> result number).

Lemma sort_insert_perm (a : A) (sorted r : list A) :
  sort_insert comparefn a sorted = Ok r -> r ≡ₚ a :: sorted.
Proof.
  revert r. induction sorted as [| b rest IH]; intros r; simpl.
  - intros [= <-]. done.
  - destruct (comparefn a b) as [v | e]; simpl; [| done].
    destruct (positive_result v).
    + destruct (sort_insert comparefn a rest) as [rest' | e]; simpl; [| done].
      intros [= <-]. rewrite (IH rest' eq_refl). apply Permutation_swap.
    + intros [= <-]. done.
Qed.

Lemma sort_perm (arr r : list A) : sort comparefn arr = Ok r -> r ≡ₚ arr.
Proof.
  revert r. induction arr as [| a rest IH]; intros r; simpl.
  - intros [= <-]. done.
  - destruct (sort comparefn rest) as [s | e]; simpl; [| done].
    intros Hins. rewrite (sort_insert_perm _ _ _ Hins).
    by rewrite (IH s eq_refl).
Qed.

Lemma sort_insert_total (P : A -> Prop) (a : A) (sorted : list A) :
  (forall u v, P u -> P v -> exists n, comparefn u v = Ok n) ->
  P a -> Forall P sorted ->
  exists r, sort_insert comparefn a sorted = Ok r.
Proof.
  intros Hcmp Ha. induction 1 as [| b rest Hb Hrest [r' IH]]; simpl.
  - by eexists.
  - destruct (Hcmp a b Ha Hb) as [v ->]. simpl.
    destruct (positive_result v); [rewrite IH; simpl |]; by eexists.
Qed.

Lemma sort_total (P : A -> Prop) (arr : list A) :
  (forall u v, P u -> P v -> exists n, comparefn u v = Ok n) ->
  Forall P arr -> exists r, sort comparefn arr = Ok r.
Proof.
  intros Hcmp. induction 1 as [| a rest Ha Hrest [s IH]]; simpl.
  - by eexists.
  - rewrite IH. simpl. apply (sort_insert_total P); [done | done |].
    by rewrite (sort_perm _ _ IH).
Qed.

Lemma Forall_or_Exists (P : A -> Prop) (l : list A) :
  (forall u, P u \/ ~ P u) -> Forall P l \/ Exists (fun u => ~ P u) l.
Proof.
  intros Hdec. induction l as [| a l [IH | IH]].
  - left. constructor.
  - destruct (Hdec a) as [Ha | Ha].
    + left. by constructor.
    + right. by constructor.
  - right. by constructor 2.
Qed.

(** With two elements or more, one element on which the comparator raises
    makes the sort raise. *)
Lemma sort_raises (P : A -> Prop) (arr : list A) :
  (forall u v, P u -> P v -> exists n, comparefn u v = Ok n) ->
  (forall u v, ~ P u \/ ~ P v -> comparefn u v = Throw TypeError) ->
  (forall u, P u \/ ~ P u) ->
  (2 <= length arr)%nat -> Exists (fun u => ~ P u) arr ->
  sort comparefn arr = Throw TypeError.
Proof.
  intros Hok Hraise Hdec. induction arr as [| a rest IH]; simpl; [lia |].
  intros Hlen Hex.
  destruct rest as [| b rest'] eqn:Hrest; [simpl in Hlen; lia |].
  rewrite <- Hrest in *.
  assert (Hcases : Exists (fun u => ~ P u) rest \/ (~ P a /\ Forall P rest)).
  { destruct (proj1 (Exists_cons _ _ _) Hex) as [Ha | Hr]; [| by left].
    destruct (Forall_or_Exists P rest Hdec) as [Hall | Hsome];
      [right | left]; done. }
  destruct Hcases as [Hr | [Ha Hall]].
  - destruct rest' as [| c rest''].
    + subst rest. simpl.
      rewrite Hraise; [done |].
      apply Exists_cons in Hr as [Hb | Hnil]; [by right |].
      by apply Exists_nil in Hnil.
    + rewrite IH; [done | subst rest; simpl; lia | done].
  - destruct (sort_total P rest Hok Hall) as [s Hs]. rewrite Hs. simpl.
    destruct s as [| b0 s'].
    + apply sort_perm, Permutation_nil_l in Hs. by subst rest.
    + simpl. rewrite Hraise; [done | by left].
Qed.

End Sort.

(** ** The comparators and the geometry reads *)

Lemma has_box_dec (w : Word) : has_box w \/ ~ has_box w.
Proof.
  unfold has_box. destruct (boundingBox w); [left | right].
  - by eexists.
  - by intros [? ?].
Qed.

Lemma box_ok (w : Word) : has_box w -> exists b, box (Some w) = Ok b.
Proof. destruct w as [t [b |]]; intros [? Hb]; [by eexists | done]. Qed.

Lemma box_raises (w : Word) : ~ has_box w -> box (Some w) = Throw TypeError.
Proof.
  destruct w as [t [b |]]; intros Hb; [| done]. destruct Hb. by eexists.
Qed.

Lemma by_y_ascending_ok (u v : Word) :
  has_box u -> has_box v -> exists n, by_y_ascending u v = Ok n.
Proof.
  intros [bu Hu]%box_ok [bv Hv]%box_ok. unfold by_y_ascending.
  rewrite Hu, Hv. by eexists.
Qed.

Lemma by_x_descending_ok (u v : Word) :
  has_box u -> has_box v -> exists n, by_x_descending u v = Ok n.
Proof.
  intros [bu Hu]%box_ok [bv Hv]%box_ok. unfold by_x_descending.
  rewrite Hu, Hv. by eexists.
Qed.

Lemma by_y_ascending_raises (u v : Word) :
  ~ has_box u \/ ~ has_box v -> by_y_ascending u v = Throw TypeError.
Proof.
  unfold by_y_ascending. intros [Hu | Hv].
  - by rewrite (box_raises u Hu).
  - rewrite (box_raises v Hv). by destruct (box (Some u)) as [? | []].
Qed.

(** ** Grouping keeps the words and their order *)

Lemma group_loop_total (rest : list Word) (lines : list (list Word))
    (currentLine : list Word) :
  Forall has_box rest -> Forall has_box currentLine -> currentLine <> [] ->
  exists r, group_loop rest lines currentLine = Ok r /\
            concat r = concat lines ++ currentLine ++ rest.
Proof.
  intros Hrest. revert lines currentLine.
  induction Hrest as [| word rest Hw Hrest IH];
    intros lines currentLine Hcur Hne; cbn [group_loop].
  - eexists. split; [done |]. unfold push.
    rewrite concat_app. simpl. by rewrite !app_nil_r.
  - destruct currentLine as [| ref more]; [done |].
    apply Forall_cons in Hcur as [Href Hmore].
    change (get (ref :: more) 0) with (Some ref).
    destruct (box_ok ref Href) as [rb ->], (box_ok word Hw) as [wb ->].
    cbn [mbind result_bind bind]. destruct (same_line rb wb).
    + destruct (IH lines (push (ref :: more) word)) as (r & -> & Hr).
      * unfold push. apply Forall_app. split; by repeat constructor.
      * done.
      * exists r. split; [done |]. rewrite Hr. unfold push.
        by rewrite <- !app_assoc.
    + destruct (IH (push lines (ref :: more)) [word]) as (r & -> & Hr).
      * by repeat constructor.
      * done.
      * exists r. split; [done |]. rewrite Hr. unfold push.
        rewrite concat_app. simpl. by rewrite app_nil_r, <- !app_assoc.
Qed.

Lemma group_lines_total (words : list Word) :
  Forall has_box words ->
  exists lines, group_lines words = Ok lines /\ concat lines ≡ₚ words.
Proof.
  intros Hall. destruct words as [| w0 words0] eqn:Hw.
  { by exists []. }
  rewrite <- Hw in *. unfold group_lines.
  destruct (sort_total by_y_ascending has_box words by_y_ascending_ok Hall)
    as [sorted Hsorted].
  pose proof (sort_perm _ _ _ Hsorted) as Hperm.
  assert (Hbody : exists lines,
            (sortedWords ← sort by_y_ascending words;
             match sortedWords with
             | [] => Ok []
             | first :: rest => group_loop rest [] [first]
             end) = Ok lines /\ concat lines ≡ₚ words).
  { rewrite Hsorted. simpl.
    destruct sorted as [| first rest].
    - exists []. split; [done |]. by rewrite <- Hperm.
    - assert (Hs : Forall has_box (first :: rest)) by by rewrite Hperm.
      apply Forall_cons in Hs as [Hf Hr].
      destruct (group_loop_total rest [] [first]) as (r & -> & Hc);
        [done | by repeat constructor | done |].
      exists r. split; [done |]. rewrite Hc. simpl. done. }
  by rewrite Hw in *.
Qed.

(** ** Rendering shows every word *)

Lemma occurs_in_app_l (t a b : jsstring) :
  occurs_in t a -> occurs_in t (a ++ b).
Proof.
  intros (p & q & ->). exists p, (q ++ b). by rewrite <- !app_assoc.
Qed.

Lemma occurs_in_app_r (t a b : jsstring) :
  occurs_in t b -> occurs_in t (a ++ b).
Proof.
  intros (p & q & ->). exists (a ++ p), q. by rewrite <- !app_assoc.
Qed.

Lemma imap_occurs {B} (f : nat -> B -> jsstring) (g : B -> jsstring)
    (l : list B) (b : B) :
  (forall i u, occurs_in (g u) (f i u)) -> b ∈ l ->
  occurs_in (g b) (concat (imap f l)).
Proof.
  intros Hf (l1 & l2 & ->)%list_elem_of_split.
  rewrite imap_app, imap_cons, concat_app. simpl.
  apply occurs_in_app_r, occurs_in_app_l, Hf.
Qed.

Lemma line_nodes_occurs (line : list Word) (w : Word) :
  w ∈ line -> occurs_in (text w) (concat (line_nodes line)).
Proof.
  apply (imap_occurs _ text). intros i u. exists [].
  by eexists.
Qed.

Lemma render_loop_total (n : Z) (lineIndex : nat) (lines : list (list Word)) :
  Forall (Forall has_box) lines ->
  exists nodes, render_loop n lineIndex lines = Ok nodes /\
    forall line w, line ∈ lines -> w ∈ line ->
                   occurs_in (text w) (concat nodes).
Proof.
  intros Hall. revert lineIndex.
  induction Hall as [| line lines Hline Hlines IH]; intros lineIndex; simpl.
  - exists []. split; [done |]. intros line w Hin. by apply elem_of_nil in Hin.
  - destruct (sort_total by_x_descending has_box line by_x_descending_ok Hline)
      as [sortedLine Hs].
    rewrite Hs. simpl.
    destruct (IH (S lineIndex)) as (nodes & -> & Hnodes). simpl.
    eexists. split; [done |].
    intros line' w Hin Hw. rewrite !concat_app.
    apply elem_of_cons in Hin as [-> | Hin].
    + apply occurs_in_app_l, line_nodes_occurs.
      by rewrite (sort_perm _ _ _ Hs).
    + apply occurs_in_app_r, occurs_in_app_r. by apply (Hnodes line').
Qed.

Lemma elem_of_concat {B} (ls : list (list B)) (b : B) :
  b ∈ concat ls <-> exists l, l ∈ ls /\ b ∈ l.
Proof.
  rewrite list_elem_of_In, in_concat.
  split; intros (l & Hl & Hb); exists l; by rewrite ?list_elem_of_In in *.
Qed.

Lemma reconstruct_total (words : list Word) :
  Forall has_box words ->
  exists buffer, reconstruct words = Ok buffer /\
    forall w, w ∈ words -> occurs_in (text w) buffer.
Proof.
  intros Hall. unfold reconstruct.
  destruct (group_lines_total words Hall) as (lines & -> & Hperm). simpl.
  assert (Hboxes : Forall (Forall has_box) lines).
  { apply Forall_forall. intros line Hline. apply Forall_forall. intros w Hw.
    apply (proj1 (Forall_forall _ _) Hall). rewrite <- Hperm.
    apply elem_of_concat. by exists line. }
  destruct (render_loop_total (Z.of_nat (length lines)) 0 lines Hboxes)
    as (nodes & -> & Hnodes). simpl.
  eexists. split; [done |].
  intros w Hw. rewrite <- Hperm in Hw.
  apply elem_of_concat in Hw as (line & Hl & Hwl).
  by apply (Hnodes line).
Qed.

Lemma reconstruct_raises (words : list Word) :
  (2 <= length words)%nat -> Exists (fun w => ~ has_box w) words ->
  reconstruct words = Throw TypeError.
Proof.
  intros Hlen Hex. unfold reconstruct, group_lines.
  rewrite (sort_raises by_y_ascending has_box words
             by_y_ascending_ok by_y_ascending_raises has_box_dec Hlen Hex).
  destruct words; [simpl in Hlen; lia | done].
Qed.

Lemma reconstruct_single (w : Word) : reconstruct [w] = Ok (text w).
Proof.
  unfold reconstruct, innerText. simpl. by rewrite !app_nil_r.
Qed.

(** One turn of the grouping loop, for a reference word and a next word that
    carry boxes. *)
Lemma group_loop_step (refWord word : Word) (ref wb : BoundingBox)
    (rest more : list Word) (lines : list (list Word)) :
  boundingBox refWord = Some ref -> boundingBox word = Some wb ->
  group_loop (word :: rest) lines (refWord :: more)
    = if same_line ref wb
      then group_loop rest lines (push (refWord :: more) word)
      else group_loop rest (push lines (refWord :: more)) [word].
Proof.
  intros Href Hword. cbn [group_loop].
  change (get (refWord :: more) 0) with (Some refWord).
  destruct refWord as [rt rbox], word as [wt wbox]. simpl in Href, Hword.
  by subst rbox wbox.
Qed.

Lemma normal_positive (h : number) :
  is_number h = true -> classify h = PNormal ->
  exists m e, h = S754_finite false m e /\
              Zpos (digits2_pos m) = 53 /\ bounded 53 1024 m e = true.
Proof.
  intros Hnum Hclass. destruct h as [[ | ] | [ | ] | | [ | ] m e];
    try discriminate Hclass.
  - unfold classify, SFclassify in Hclass.
    by destruct (Z.pos (digits2_pos m) =? prec).
  - exists m, e. split; [done |]. split; [| exact Hnum].
    unfold classify, SFclassify in Hclass.
    by destruct (Z.eqb_spec (Z.pos (digits2_pos m)) prec).
Qed.

(** ** The claims on reconstruction *)

(** C1.  The words "B" (y=0.5, x=0.1), "A" (y=0.5, x=0.3) and "C" (y=0.1,
    x=0.2), each of height 0.05 and of any width, are grouped into the lines
    [C] and [B; A]; the rendered buffer is "C", newline, "A B", and loading
    them makes that buffer the only snapshot, under the cursor. *)
Theorem reading_order (widthB widthA widthC : number) (s : Session.t) :
  let h := decimal 5 100 in
  let B := word_at [66]%N (decimal 1 10) (decimal 5 10) widthB h in
  let A := word_at [65]%N (decimal 3 10) (decimal 5 10) widthA h in
  let C := word_at [67]%N (decimal 2 10) (decimal 1 10) widthC h in
  let buffer := [67; 10; 65; 32; 66]%N in
  group_lines [B; A; C] = Ok [[C]; [B; A]] /\
  reconstruct [B; A; C] = Ok buffer /\
  exists s', Session.load [B; A; C] s = Ok s' /\
             Session.history s' = History.reset buffer /\
             Session.editor s' = buffer /\
             History.current (Session.history s') = Some buffer.
Proof.
  intros h B A C buffer.
  assert (Hrec : reconstruct [B; A; C] = Ok buffer)
    by (vm_compute; reflexivity).
  split; [vm_compute; reflexivity |]. split; [exact Hrec |].
  unfold Session.load. rewrite Hrec. simpl. eexists. by repeat split.
Qed.

(** C6, as the code has it.  When the reference word of the current line has
    height zero (of either sign), the test of line 253 fails for every next
    word, whatever its vertical centre, so that word starts a new line; and a
    single word, zero-height or not, is a line of its own that renders as its
    text: the only division is by the constant 2. *)
Theorem zero_height_reference (refWord word single : Word)
    (ref wb : BoundingBox) (s : bool)
    (rest more : list Word) (lines : list (list Word)) :
  boundingBox refWord = Some ref ->
  boundingBox word = Some wb ->
  height ref = S754_zero s ->
  same_line ref wb = false /\
  group_loop (word :: rest) lines (refWord :: more)
    = group_loop rest (push lines (refWord :: more)) [word] /\
  group_lines [single] = Ok [[single]] /\
  reconstruct [single] = Ok (text single).
Proof.
  intros Href Hword Hzero.
  assert (Hsame : same_line ref wb = false).
  { unfold same_line, threshold. rewrite Hzero. apply abs_not_below_zero. }
  split; [exact Hsame |]. split; [| split].
  - cbn [group_loop]. change (get (refWord :: more) 0) with (Some refWord).
    destruct refWord as [rt rbox], word as [wt wbox]. simpl in Href, Hword.
    subst rbox wbox. simpl. by rewrite Hsame.
  - done.
  - apply reconstruct_single.
Qed.

Lemma zero_height_reference_witness :
  let ref := word_at [65]%N (decimal 3 10) (decimal 5 10) (decimal 1 10)
               (S754_zero false) in
  let word := word_at [66]%N (decimal 1 10) (decimal 5 10) (decimal 1 10)
                (decimal 5 100) in
  group_loop [word] [] [ref] = group_loop [] [[ref]] [word] /\
  reconstruct [ref] = Ok [65]%N.
Proof.
  intros ref word.
  destruct (zero_height_reference ref word ref
              {| x := decimal 3 10; y := decimal 5 10; width := decimal 1 10;
                 height := S754_zero false |}
              {| x := decimal 1 10; y := decimal 5 10; width := decimal 1 10;
                 height := decimal 5 100 |}
              false [] [] [])
    as (_ & Hloop & _ & Hsingle); try reflexivity.
  split; [exact Hloop | exact Hsingle].
Defined.

(** C6 fails as stated: two zero-height words whose vertical centres are
    equal are put on two lines. *)
Lemma zero_height_same_center_counterexample :
  let refBox := {| x := decimal 3 10; y := decimal 5 10;
                   width := decimal 1 10; height := S754_zero false |} in
  let wordBox := {| x := decimal 1 10; y := decimal 5 10;
                    width := decimal 1 10; height := S754_zero false |} in
  let ref := {| text := [65]%N; boundingBox := Some refBox |} in
  let word := {| text := [66]%N; boundingBox := Some wordBox |} in
  height refBox = S754_zero false /\
  centerY wordBox = centerY refBox /\
  same_line refBox wordBox = false /\
  group_lines [ref; word] = Ok [[ref]; [word]] /\
  reconstruct [ref; word] = Ok [65; 10; 66]%N.
Proof. vm_compute. by repeat split. Qed.

Lemma overlay_total (words : list Word) :
  Forall has_box words -> exists boxes, overlay words = Ok boxes.
Proof.
  induction 1 as [| w words Hw _ (boxes & IH)]; [by exists [] |].
  destruct (box_ok w Hw) as [b Hb]. cbn [overlay]. rewrite Hb, IH.
  by eexists.
Qed.

Lemma overlay_raises (before after : list Word) (broken : Word) :
  boundingBox broken = None ->
  overlay (before ++ broken :: after) = Throw TypeError.
Proof.
  intros Hbroken. induction before as [| w before IH]; cbn [app overlay].
  - rewrite box_raises; [reflexivity |]. unfold has_box. rewrite Hbroken.
    by intros [? ?].
  - rewrite IH. by destruct (box (Some w)) as [b | []].
Qed.

(** C7, as the code has it.  A word list in which every word carries a
    bounding box, whatever numbers it holds, is loaded without error: the
    overlay is rendered and the reconstruction gives a buffer in which
    every word's text occurs.  No box is substituted for a missing one: a
    word without [boundingBox], wherever it stands and even alone, makes the
    view raise [TypeError] when the result is loaded, in the render of the
    overlay; and among two words or more the reconstruction itself raises
    as well. *)
Theorem reconstruct_defensive (words before after : list Word)
    (broken : Word) (s : Session.t) :
  Forall has_box words ->
  boundingBox broken = None ->
  (exists s', Session.load words s = Ok s' /\
     reconstruct words = Ok (Session.editor s') /\
     forall w, w ∈ words -> occurs_in (text w) (Session.editor s')) /\
  (exists lines, group_lines words = Ok lines /\ concat lines ≡ₚ words) /\
  Session.load (before ++ broken :: after) s = Throw TypeError /\
  (before ++ after <> [] ->
   reconstruct (before ++ broken :: after) = Throw TypeError).
Proof.
  intros Hall Hbroken.
  split; [| split; [by apply group_lines_total | split]].
  - destruct (reconstruct_total words Hall) as (buffer & Hrec & Hocc).
    destruct (overlay_total words Hall) as (boxes & Hov).
    unfold Session.load. rewrite Hov, Hrec. cbn.
    eexists. split; [reflexivity |]. by split.
  - unfold Session.load. by rewrite overlay_raises.
  - intros Hne. apply reconstruct_raises.
    + rewrite length_app. simpl.
      destruct before, after; simpl; try lia. done.
    + apply Exists_app. right. constructor.
      unfold has_box. rewrite Hbroken. by intros [? ?].
Qed.

Lemma reconstruct_defensive_witness :
  let good := word_at [66]%N (decimal 1 10) (decimal 5 10) NaN NaN in
  let broken := {| text := [65]%N; boundingBox := None |} in
  (exists s', Session.load [good; good] Session.mount = Ok s' /\
     reconstruct [good; good] = Ok (Session.editor s') /\
     forall w, w ∈ [good; good] -> occurs_in (text w) (Session.editor s')) /\
  Session.load [broken] Session.mount = Throw TypeError /\
  reconstruct ([good] ++ broken :: []) = Throw TypeError.
Proof.
  intros good broken.
  destruct (reconstruct_defensive [good; good] [good] [] broken Session.mount)
    as (Hok & _ & _ & Hraise).
  - repeat constructor; by eexists.
  - reflexivity.
  - split; [exact Hok |]. split.
    + exact (proj1 (proj2 (proj2 (reconstruct_defensive [good; good] [] []
               broken Session.mount
               ltac:(repeat constructor; by eexists) eq_refl)))).
    + apply Hraise. discriminate.
Defined.

(** C7 fails as stated: one word without geometry aborts the reconstruction
    of a two-word list, on whichever side it stands, and the view that
    loads such a list, or that word alone, raises. *)
Lemma missing_box_counterexample :
  let good := word_at [66]%N (decimal 1 10) (decimal 5 10) (decimal 1 10)
                (decimal 5 100) in
  let broken := {| text := [65]%N; boundingBox := None |} in
  reconstruct [broken; good] = Throw TypeError /\
  reconstruct [good; broken] = Throw TypeError /\
  Session.load [broken; good] Session.mount = Throw TypeError /\
  Session.load [good; broken] Session.mount = Throw TypeError /\
  Session.load [broken] Session.mount = Throw TypeError.
Proof. vm_compute. by repeat split. Qed.

(** ** Heights at which [height * 0.69] and [height * 0.7] differ *)

Lemma products_differ_normal (h : number) :
  is_number h = true -> classify h = PNormal -> products_differ h = true.
Proof.
  intros Hnum Hclass.
  destruct (normal_positive h Hnum Hclass) as (m & e & -> & Hd & Hb).
  by apply mul_069_below_mul_07.
Qed.

Lemma subnormal_table (m : positive) :
  Zpos m < 200 ->
  products_differ (subnormal m)
  = negb (bool_decide (m ∈ collapsing_mantissas)).
Proof.
  intros Hm.
  assert (Hin : m ∈ map Z.to_pos (seqZ 1 199)).
  { apply list_elem_of_fmap. exists (Zpos m). split; [done |].
    apply elem_of_seqZ. lia. }
  clear Hm. revert m Hin.
  apply (proj1 (Forall_forall
    (fun m => products_differ (subnormal m)
              = negb (bool_decide (m ∈ collapsing_mantissas))) _)).
  apply (bool_decide_unpack _). vm_compute. exact I.
Qed.

Lemma mul_069_below_mul_07_subnormal (m : positive) :
  200 <= Zpos m < 2 ^ 52 -> products_differ (subnormal m) = true.
Proof.
  intros Hm. unfold products_differ, subnormal.
  change (decimal 69 100) with (S754_finite false 6214967485771284 (-53)).
  unfold lt, mul, lit_0_7, prec, emax. cbn [SFmul xorb].
  destruct (subnormal_product_shape m 6214967485771284 Hm)
    as (m1 & -> & H1); [pow_literals; lia |].
  destruct (subnormal_product_shape m 6305039478318694 Hm)
    as (m2 & -> & H2); [pow_literals; lia |].
  apply ltb_finite. right. split; [done |].
  rewrite !Pos2Z.inj_mul in H1, H2. pow_literals.
  set (M := Zpos m) in *.
  quotient (M * 6214967485771284) 9007199254740992 q1.
  quotient (M * 6305039478318694) 9007199254740992 q2.
  lia.
Qed.

Lemma positive_subnormal (h : number) :
  is_number h = true -> classify h = PSubn ->
  exists m, h = subnormal m /\ Zpos m < 2 ^ 52.
Proof.
  intros Hnum Hclass. destruct h as [[ | ] | [ | ] | | [ | ] m e];
    try discriminate Hclass.
  - unfold classify, SFclassify in Hclass.
    by destruct (Z.pos (digits2_pos m) =? prec).
  - unfold classify, SFclassify, prec in Hclass.
    destruct (Z.eqb_spec (Z.pos (digits2_pos m)) 53) as [| Hd];
      [discriminate Hclass |].
    unfold is_number, valid_binary, bounded, canonical_mantissa, prec, emax
      in Hnum.
    rewrite fexp_binary64 in Hnum. apply andb_prop in Hnum as [Hc He].
    pose proof (digits2_pos_bounds m) as Hm.
    assert (He' : e = -1074) by lia. subst e.
    exists m. split; [done |].
    assert (2 ^ Zpos (digits2_pos m) <= 2 ^ 52)
      by (apply Z.pow_le_mono_r; lia).
    lia.
Qed.

(** The heights at which the two products differ: every positive finite
    double but the collapsing ones. *)
Lemma products_differ_spec (h : number) :
  is_number h = true -> Layout.attracting h ->
  products_differ h = true <-> h ∉ collapsing_heights.
Proof.
  intros Hnum [Hn | Hs].
  - split; [| by intros _; apply products_differ_normal].
    intros Hd Hin.
    assert (Hall : Forall (fun h => products_differ h = false)
                     collapsing_heights)
      by (apply (bool_decide_unpack _); vm_compute; exact I).
    rewrite (proj1 (Forall_forall _ _) Hall h Hin) in Hd. discriminate Hd.
  - destruct (positive_subnormal h Hnum Hs) as (m & -> & Hm).
    assert (Hmem : subnormal m ∈ collapsing_heights
                   <-> m ∈ collapsing_mantissas).
    { unfold collapsing_heights. rewrite list_elem_of_fmap. split.
      - intros (m' & [= ->] & Hin). done.
      - intros Hin. by exists m. }
    rewrite Hmem. destruct (Z.lt_ge_cases (Zpos m) 200) as [Hlt | Hge].
    + rewrite subnormal_table by done.
      rewrite negb_true_iff, bool_decide_eq_false. done.
    + rewrite mul_069_below_mul_07_subnormal by lia.
      split; [| done]. intros _ Hin.
      assert (Hsmall : Zpos m < 200); [| lia].
      clear Hm Hge Hmem Hnum Hs. revert m Hin.
      apply (proj1 (Forall_forall (fun m => Zpos m < 200) _)).
      apply (bool_decide_unpack _). vm_compute. exact I.
Qed.

(** C5, as the code has it.  The boundary is strict for every reference
    height: a next word whose computed vertical-centre distance is the
    computed [height * 0.7] starts a new line.  A next word whose computed
    distance is the computed [height * 0.69] joins the current line for
    every positive finite reference height, normal or subnormal, except the
    54 subnormal heights [m * 2^-1074], none above [95 * 2^-1074], listed in
    [collapsing_heights]; at those heights, and at an infinite one, the two
    products are the same double and the word starts a new line. *)
Theorem line_threshold (refWord word : Word) (ref wb : BoundingBox)
    (rest more : list Word) (lines : list (list Word)) :
  boundingBox refWord = Some ref ->
  boundingBox word = Some wb ->
  (distance ref wb = mul (height ref) lit_0_7 ->
     same_line ref wb = false /\
     group_loop (word :: rest) lines (refWord :: more)
       = group_loop rest (push lines (refWord :: more)) [word]) /\
  (distance ref wb = mul (height ref) (decimal 69 100) ->
     is_number (height ref) = true -> Layout.attracting (height ref) ->
     (height ref ∉ collapsing_heights) ->
     same_line ref wb = true /\
     group_loop (word :: rest) lines (refWord :: more)
       = group_loop rest lines (push (refWord :: more) word)) /\
  (distance ref wb = mul (height ref) (decimal 69 100) ->
     height ref ∈ collapsing_heights \/ height ref = S754_infinity false ->
     same_line ref wb = false /\
     group_loop (word :: rest) lines (refWord :: more)
       = group_loop rest (push lines (refWord :: more)) [word]) /\
  length collapsing_heights = 54%nat /\
  Forall (fun h => exists m, h = subnormal m /\ Zpos m <= 95)
         collapsing_heights.
Proof.
  intros Href Hword.
  pose proof (group_loop_step refWord word ref wb rest more lines Href Hword)
    as Hstep.
  assert (H69 : distance ref wb = mul (height ref) (decimal 69 100) ->
                same_line ref wb = products_differ (height ref)).
  { intros Hdist. unfold same_line, threshold, products_differ.
    by rewrite Hdist. }
  split; [| split; [| split; [| split]]].
  - intros Hdist.
    assert (Hsame : same_line ref wb = false).
    { unfold same_line, threshold. rewrite Hdist. apply lt_irrefl. }
    by rewrite Hstep, Hsame.
  - intros Hdist Hnum Hpos Hnot.
    assert (Hsame : same_line ref wb = true).
    { rewrite H69 by done. by apply products_differ_spec. }
    by rewrite Hstep, Hsame.
  - intros Hdist Hcase.
    assert (Hsame : same_line ref wb = false).
    { rewrite H69 by done. destruct Hcase as [Hin | ->]; [| reflexivity].
      assert (Hall : Forall (fun h => products_differ h = false)
                       collapsing_heights)
        by (apply (bool_decide_unpack _); vm_compute; exact I).
      exact (proj1 (Forall_forall _ _) Hall _ Hin). }
    by rewrite Hstep, Hsame.
  - reflexivity.
  - unfold collapsing_heights. apply Forall_fmap, Forall_forall.
    intros m Hin. exists m. split; [done |].
    revert m Hin. apply (proj1 (Forall_forall (fun m => Zpos m <= 95) _)).
    apply (bool_decide_unpack _). vm_compute. exact I.
Qed.

Lemma line_threshold_witness :
  let ref := word_at [65]%N (decimal 3 10) (decimal 25 100) (decimal 1 10)
               (decimal 5 10) in
  let near := word_at [66]%N (decimal 1 10) (decimal 845 1000) (decimal 1 10)
                (S754_zero false) in
  let far := word_at [67]%N (decimal 1 10) (decimal 85 100) (decimal 1 10)
               (S754_zero false) in
  group_loop [near] [] [ref] = group_loop [] [] [ref; near] /\
  group_loop [far] [] [ref] = group_loop [] [[ref]] [far].
Proof.
  intros ref near far. split.
  - refine (proj2 (proj1 (proj2 (line_threshold ref near
      {| x := decimal 3 10; y := decimal 25 100; width := decimal 1 10;
         height := decimal 5 10 |}
      {| x := decimal 1 10; y := decimal 845 1000; width := decimal 1 10;
         height := S754_zero false |}
      [] [] [] _ _)) _ _ _ _)); try reflexivity.
    + by left.
    + apply (bool_decide_unpack _). vm_compute. exact I.
  - refine (proj2 (proj1 (line_threshold ref far
      {| x := decimal 3 10; y := decimal 25 100; width := decimal 1 10;
         height := decimal 5 10 |}
      {| x := decimal 1 10; y := decimal 85 100; width := decimal 1 10;
         height := S754_zero false |}
      [] [] [] _ _) _)); reflexivity.
Defined.

(** C5 fails as stated for the smallest positive height 2^-1074: there
    [height * 0.69] and [height * 0.7] both round to the height itself, and a
    word at that computed distance starts a new line. *)
Lemma line_threshold_counterexample :
  let tiny := S754_finite false 1 (-1074) in
  let refBox := {| x := decimal 3 10; y := S754_zero false;
                   width := decimal 1 10; height := tiny |} in
  let wordBox := {| x := decimal 1 10; y := tiny;
                    width := decimal 1 10; height := S754_zero false |} in
  let ref := {| text := [65]%N; boundingBox := Some refBox |} in
  let word := {| text := [66]%N; boundingBox := Some wordBox |} in
  is_number tiny = true /\
  lt (S754_zero false) tiny = true /\
  distance refBox wordBox = mul tiny (decimal 69 100) /\
  same_line refBox wordBox = false /\
  group_lines [ref; word] = Ok [[ref]; [word]].
Proof. vm_compute. by repeat split. Qed.

End ReconstructFacts.

(* ===================================================================== *)
(** * Editing: what undo, redo, the timer and the toggles do together      *)
(* ===================================================================== *)

Module EditingFacts.
Import JS JSFacts History HistoryFacts Session SessionFacts.



(** X2.  Undo and redo are inverse up to the layout of the buffer: when
    undo is available, undo then redo gives back the same session (history,
    cursor, latch, highlight, timer) with the buffer showing the snapshot
    under the cursor as the [innerText] setter lays it out, CR and CR LF
    turned into LF; when redo is available so does redo then undo.  On a
    session whose buffer shows a snapshot without U+000D this is the very
    same session state. *)
Theorem undo_redo_inverse (s : Session.t) (snapshot : jsstring) :
  in_bounds (history s) ->
  current (history s) = Some snapshot ->
  (canUndo (history s) = true ->
     handleRedo (handleUndo s)
     = Editing.showing (innerText_written snapshot) s) /\
  (canRedo (history s) = true ->
     handleUndo (handleRedo s)
     = Editing.showing (innerText_written snapshot) s) /\
  (synced s -> CR ∉ snapshot ->
     Editing.showing (innerText_written snapshot) s = s).
Proof.
  destruct s as [dv hw [st ix] ed dp he].
  unfold in_bounds, synced, current, handleUndo, handleRedo, canUndo, canRedo,
    Editing.showing.
  cbn [history stack index editor diacriticsVisible highlightedWord
       debouncePending hasEditedSinceLoad]. intros Hb Hs.
  split; [| split].
  - intros Hcan; rewrite Hcan; apply Z.ltb_lt in Hcan.
    unfold restore, History.move;
    cbn [history stack index editor diacriticsVisible highlightedWord
         debouncePending hasEditedSinceLoad].
    destruct (Z.ltb_spec (ix - 1) (Z.of_nat (length st) - 1)); [| lia].
    replace (ix - 1 + 1) with ix by lia. by rewrite Hs.
  - intros Hcan; rewrite Hcan; apply Z.ltb_lt in Hcan.
    unfold restore, History.move;
    cbn [history stack index editor diacriticsVisible highlightedWord
         debouncePending hasEditedSinceLoad].
    destruct (Z.ltb_spec 0 (ix + 1)); [| lia].
    replace (ix + 1 - 1) with ix by lia. by rewrite Hs.
  - intros Hsy Hcr. rewrite innerText_written_id by done.
    rewrite Hs in Hsy. by injection Hsy as ->.
Qed.

Lemma undo_redo_inverse_witness :
  let s := edit [66%N] mount in
  handleRedo (handleUndo s) = s.
Proof.
  intros s.
  assert (Hb : in_bounds (history s)) by (unfold in_bounds; simpl; lia).
  assert (Hcr : CR ∉ [66%N]) by (by intros [[=] | []%elem_of_nil]%elem_of_cons).
  destruct (undo_redo_inverse s [66%N] Hb eq_refl) as (Hundo & _ & Hsame).
  rewrite (Hundo eq_refl). exact (Hsame eq_refl Hcr).
Defined.

(** On a snapshot that holds a CR, undo then redo does not give back the
    buffer the snapshot was read from. *)
Lemma undo_redo_loses_carriage_return :
  let s := edit [98; 13; 99]%N mount in
  synced s /\ canUndo (history s) = true /\
  editor (handleRedo (handleUndo s)) = [98; 10; 99]%N /\
  handleRedo (handleUndo s) <> s.
Proof.
  intros s. split; [reflexivity |]. split; [reflexivity |].
  split; [reflexivity |]. intros Heq.
  apply (f_equal editor) in Heq. discriminate Heq.
Qed.

Lemma step_settled (s s' : Session.t) (ev : event) :
  Editing.settled s -> step s ev = Ok s' -> Editing.settled s'.
Proof.
  intros [Hb Hs] Hstep. destruct ev; simpl in Hstep.
  - apply load_fresh in Hstep as (_ & Hh & _).
    unfold Editing.settled, synced. rewrite Hh.
    split; [unfold in_bounds; simpl; lia | by left].
  - injection Hstep as <-. unfold handleWordEnter.
    by destruct (hasEditedSinceLoad s).
  - injection Hstep as <-. unfold handleWordSpanMouseLeave.
    by destruct (hasEditedSinceLoad s).
  - injection Hstep as <-. split; [done | discriminate].
  - injection Hstep as <-. unfold debounceFire.
    destruct (debouncePending s) eqn:Hp;
      [| split; [done | intros _; by apply Hs]].
    split; [by apply commit_in_bounds |].
    intros _. left. apply current_commit.
  - injection Hstep as <-. split.
    + rewrite history_handleUndo. unfold in_bounds in *.
      rewrite undo_stack, undo_index.
      destruct (Z.ltb_spec 0 (index (history s))); lia.
    + unfold handleUndo, canUndo.
      destruct (Z.ltb_spec 0 (index (history s))); [| exact Hs].
      intros _. right. apply laid_out_restore. unfold in_bounds in Hb. lia.
  - injection Hstep as <-. split.
    + rewrite history_handleRedo. unfold in_bounds in *.
      rewrite redo_stack, redo_index.
      destruct (Z.ltb_spec (index (history s))
                  (Z.of_nat (length (stack (history s))) - 1)); lia.
    + unfold handleRedo, canRedo.
      destruct (Z.ltb_spec (index (history s))
                  (Z.of_nat (length (stack (history s))) - 1)); [| exact Hs].
      intros _. right. apply laid_out_restore. unfold in_bounds in Hb. lia.
  - injection Hstep as <-. by split.
Qed.

(** X3.  Along every run of a mounted instance (new results, hovers, raw
    edits, timer firings, undos, redos, toggles) that does not raise, the
    cursor stays inside the snapshot sequence, so there is a snapshot under
    it and undo and redo never write the string "undefined"; and whenever no
    commit timer is armed the editable buffer is that snapshot, either as it
    was read or as the [innerText] setter lays it out (CR and CR LF turned
    into LF): exactly the snapshot when it holds no U+000D. *)
Theorem buffer_agrees_with_history (evs : list event) (s : Session.t) :
  run evs mount = Ok s ->
  in_bounds (history s) /\
  exists snapshot,
    current (history s) = Some snapshot /\
    (debouncePending s = false ->
       (editor s = snapshot \/ editor s = innerText_written snapshot) /\
       (CR ∉ snapshot -> editor s = snapshot)).
Proof.
  assert (Hgen : forall s0, Editing.settled s0 -> run evs s0 = Ok s ->
                            Editing.settled s).
  { induction evs as [| ev evs IH]; intros s0 H0 Hrun; simpl in Hrun.
    - by injection Hrun as <-.
    - destruct (step s0 ev) as [s1 | e] eqn:Hstep; [| discriminate Hrun].
      simpl in Hrun. apply (IH s1); [| done].
      by apply (step_settled s0 s1 ev). }
  intros Hrun.
  destruct (Hgen mount) as [Hb Hs];
    [split; [unfold in_bounds; simpl; lia | by left] | done |].
  split; [exact Hb |].
  destruct (get_in_range (stack (history s)) (index (history s)))
    as [snapshot Hcur]; [unfold in_bounds in Hb; lia |].
  exists snapshot. split; [exact Hcur |]. intros Hidle.
  assert (Hdisj : editor s = snapshot \/ editor s = innerText_written snapshot).
  { destruct (Hs Hidle) as [Hsy | (v & Hv & He)].
    - left. unfold synced, current in Hsy. rewrite Hcur in Hsy.
      by injection Hsy as ->.
    - right. unfold current in Hv. rewrite Hcur in Hv.
      by injection Hv as ->. }
  split; [exact Hdisj |].
  intros Hcr. destruct Hdisj as [-> | ->]; [done |].
  by apply innerText_written_id.
Qed.

Lemma buffer_agrees_with_history_witness :
  exists s, run [Input [66%N]; DebounceFire; Input [67%N]; Undo] mount = Ok s /\
            in_bounds (history s) /\ editor s = [].
Proof.
  eexists. split; [reflexivity |].
  split; [| reflexivity].
  exact (proj1 (buffer_agrees_with_history
                  [Input [66%N]; DebounceFire; Input [67%N]; Undo] _ eq_refl)).
Defined.

Lemma history_burst (texts : list jsstring) (s : Session.t) :
  history (Editing.burst texts s) = history s.
Proof.
  unfold Editing.burst. revert s.
  induction texts as [| t texts IH]; intros s; [done |]. simpl. by rewrite IH.
Qed.

Lemma burst_last (texts : list jsstring) (final : jsstring) (s : Session.t) :
  last texts = Some final ->
  editor (Editing.burst texts s) = final /\
  debouncePending (Editing.burst texts s) = true /\
  hasEditedSinceLoad (Editing.burst texts s) = true.
Proof.
  unfold Editing.burst.
  destruct texts as [| t texts _] using rev_ind; [done |].
  rewrite last_snoc, foldl_app. by intros [= <-].
Qed.

(** X4.  A burst of raw edit events followed by one firing of the timer
    commits once, with the last text of the burst: the raw events leave the
    history alone, the firing appends at most one snapshot, and a second
    firing without a new edit changes nothing. *)
Theorem debounce_coalesces (texts : list jsstring) (final : jsstring)
    (s : Session.t) :
  last texts = Some final ->
  let fired := debounceFire (Editing.burst texts s) in
  history (Editing.burst texts s) = history s /\
  history fired = commit final (history s) /\
  editor fired = final /\
  (length (stack (history fired)) <= S (length (stack (history s))))%nat /\
  debounceFire fired = fired.
Proof.
  intros Hlast fired.
  destruct (burst_last texts final s Hlast) as (Hed & Hp & _).
  split; [apply history_burst |].
  assert (Hh : history fired = commit final (history s)).
  { unfold fired, debounceFire. rewrite Hp. cbn [history].
    by rewrite Hed, history_burst. }
  split; [exact Hh |].
  split; [unfold fired, debounceFire; by rewrite Hp |].
  split.
  - rewrite Hh. unfold commit.
    destruct (decide (Some final = current (history s))); [lia |].
    cbn [stack]. unfold push, slice. rewrite length_app, length_take.
    rewrite length_drop. simpl. lia.
  - unfold fired, debounceFire. rewrite Hp. done.
Qed.

Lemma debounce_coalesces_witness :
  history (debounceFire (Editing.burst [[66]; [66; 67]; [66; 67; 68]]%N mount))
    = commit [66; 67; 68]%N (history mount).
Proof.
  exact (proj1 (proj2 (debounce_coalesces [[66]; [66; 67]; [66; 67; 68]]%N
                         [66; 67; 68]%N mount eq_refl))).
Defined.

Lemma synced_fire_idle (s : Session.t) :
  synced s -> history (debounceFire s) = history s.
Proof.
  intros Hs. unfold debounceFire. destruct (debouncePending s); [| done].
  cbn [history]. by apply commit_same.
Qed.

(** X5.  Text typed but not yet committed is lost by an undo: if undo is
    pressed while the commit timer is still armed, the buffer goes back to
    the previous snapshot as the [innerText] setter lays it out, and the
    timer, when it fires, commits that buffer over the history undo alone
    would give.  When the previous snapshot holds no U+000D this commits
    nothing, so the history is the one undo alone would give; the typed text
    is in no case committed by that firing.  In the same way a timer left
    armed when a new analysis result is loaded adds nothing to the fresh
    history. *)
Theorem undo_drops_pending_edit (text prev : jsstring) (s : Session.t) :
  in_bounds (history s) ->
  canUndo (history s) = true ->
  current (undo (history s)) = Some prev ->
  let s' := debounceFire (handleUndo (handleInput text s)) in
  editor s' = innerText_written prev /\
  history s' = commit (innerText_written prev) (undo (history s)) /\
  (CR ∉ prev -> history s' = undo (history s)) /\
  current (history s') = Some (editor s') /\
  debouncePending s' = false /\
  (forall words s1, load words (handleInput text s) = Ok s1 ->
     history (debounceFire s1) = reset (editor s1)).
Proof.
  intros Hb Hcan Hprev. cbv zeta.
  set (typed := handleInput text s).
  assert (Hrestored : handleUndo typed = restore (index (history s) - 1) typed).
  { unfold handleUndo. change (history typed) with (history s).
    by rewrite Hcan. }
  assert (Hed : editor (handleUndo typed) = innerText_written prev).
  { rewrite Hrestored. unfold restore. cbn [editor].
    change (history typed) with (history s).
    unfold undo, current in Hprev. rewrite Hcan in Hprev.
    cbn [move stack index] in Hprev. by rewrite Hprev. }
  assert (Hfired : debounceFire (handleUndo typed)
                   = {| diacriticsVisible := diacriticsVisible s;
                        highlightedWord :=
                          highlightedWord (handleUndo typed);
                        history := commit (innerText_written prev)
                                     (undo (history s));
                        editor := innerText_written prev;
                        debouncePending := false;
                        hasEditedSinceLoad := true |}).
  { rewrite Hrestored in Hed |- *. unfold debounceFire.
    change (debouncePending (restore (index (history s) - 1) typed))
      with true.
    cbv iota. rewrite Hed. unfold undo. rewrite Hcan. reflexivity. }
  rewrite Hfired. cbn [editor history debouncePending].
  split; [done |]. split; [done |]. split; [| split; [| split]].
  - intros Hcr. rewrite innerText_written_id by done. by apply commit_same.
  - apply current_commit.
  - done.
  - intros words s1 Hload.
    destruct (load_fresh words typed s1 Hload) as (_ & Hfresh & _).
    rewrite synced_fire_idle; [done |]. unfold synced. by rewrite Hfresh.
Qed.

Lemma undo_drops_pending_edit_witness :
  let s := edit [66%N] mount in
  let s' := debounceFire (handleUndo (handleInput [66; 67]%N s)) in
  stack (history s') = [[]; [66]]%N /\ history s' = undo (history s).
Proof.
  intros s s'. split; [reflexivity |].
  assert (Hb : in_bounds (history s)) by (unfold in_bounds; simpl; lia).
  destruct (undo_drops_pending_edit [66; 67]%N [] s Hb eq_refl eq_refl)
    as (_ & _ & Hsame & _).
  apply Hsame. apply not_elem_of_nil.
Defined.

(** The timer armed by the lost edit commits the laid-out buffer as a new
    snapshot when the restored snapshot holds a CR. *)
Lemma undo_commits_laid_out_buffer :
  let s := edit [98%N] (edit [97; 13]%N mount) in
  let s' := debounceFire (handleUndo (handleInput [98; 99]%N s)) in
  stack (undo (history s)) = [[]; [97; 13]; [98]]%N /\
  stack (history s') = [[]; [97; 13]; [97; 10]]%N.
Proof. split; reflexivity. Qed.

(** X6.  The edit latch outlives the edit: after a result is loaded, one
    committed edit and one undo bring back the reconstructed text, as the
    [innerText] setter lays it out (exactly, when it holds no U+000D), and
    clear the "edited" state (cursor 0, redo available), yet the latch stays
    set and hovering a word still does not highlight it. *)
Theorem latch_survives_undo (words : list Reconstruct.Word)
    (s0 s1 : Session.t) (text : jsstring) (word : Reconstruct.Word) :
  load words s0 = Ok s1 ->
  text <> editor s1 ->
  let s' := handleUndo (edit text s1) in
  editor s' = innerText_written (editor s1) /\
  (CR ∉ editor s1 -> editor s' = editor s1) /\
  current (history s') = Some (editor s1) /\
  isEdited (history s') = false /\
  canRedo (history s') = true /\
  hasEditedSinceLoad s' = true /\
  highlightedWord (handleWordEnter word s') = highlightedWord s'.
Proof.
  intros Hload Hneq s'.
  destruct (load_fresh words s0 s1 Hload) as (_ & Hfresh & _).
  assert (Hcommit : history (edit text s1)
                    = {| stack := [editor s1; text]; index := 1 |}).
  { rewrite history_edit, Hfresh. unfold commit, current. simpl.
    rewrite decide_False by (intros [= ?]; done). done. }
  assert (Hs' : s' = restore 0 (edit text s1)).
  { unfold s', handleUndo. by rewrite Hcommit. }
  rewrite Hs'. unfold restore.
  cbn [editor history hasEditedSinceLoad highlightedWord]. rewrite Hcommit.
  split; [done |].
  split; [intros Hcr; cbn; by apply innerText_written_id |].
  split; [done |]. split; [done |]. split; [done |]. split; [done |].
  unfold handleWordEnter. cbn [hasEditedSinceLoad]. done.
Qed.

Lemma latch_survives_undo_witness :
  let word := Reconstruct.word_at [65%N] (decimal 3 10) (decimal 5 10)
                (decimal 1 10) (decimal 1 10) in
  exists s1, load [word] mount = Ok s1 /\
    let s' := handleUndo (edit [66%N] s1) in
    editor s' = [65%N] /\ isEdited (history s') = false /\
    hasEditedSinceLoad s' = true.
Proof.
  intros word.
  destruct (load [word] mount) as [s1 | e] eqn:Hload;
    [| vm_compute in Hload; discriminate Hload].
  exists s1. split; [reflexivity |].
  assert (Hed : editor s1 = [65%N]).
  { vm_compute in Hload. by injection Hload as <-. }
  destruct (latch_survives_undo [word] mount s1 [66%N] word Hload)
    as (He & _ & _ & Hi & _ & Hl & _); [by rewrite Hed |].
  rewrite Hed in He.
  split; [exact He | split; [exact Hi | exact Hl]].
Defined.

(** X7.  What copy and export hand out: with diacritics hidden the text has
    no code unit in U+064B..U+0652 and no U+0640, and is the snapshot under
    the cursor with code units removed (never reordered or added); with no
    snapshot under the cursor it is the empty string.  The toggle itself
    touches neither the history, nor the buffer, nor the latch, and toggling
    twice gives back the same session. *)
Theorem export_text (s : Session.t) :
  (diacriticsVisible s = false ->
     forall c, c ∈ getTextToProcess s -> ~ Diacritics.is_stripped c) /\
  sublist (getTextToProcess s) (default [] (current (history s))) /\
  (current (history s) = None -> getTextToProcess s = []) /\
  history (toggleDiacritics s) = history s /\
  editor (toggleDiacritics s) = editor s /\
  hasEditedSinceLoad (toggleDiacritics s) = hasEditedSinceLoad s /\
  toggleDiacritics (toggleDiacritics s) = s.
Proof.
  split; [| split; [| split]].
  - intros Hhidden c. unfold getTextToProcess. rewrite Hhidden.
    rewrite DiacriticsFacts.removeDiacritics_filter. unfold Diacritics.strip_spec.
    rewrite list_elem_of_filter. tauto.
  - unfold getTextToProcess. destruct (diacriticsVisible s); [done |].
    rewrite DiacriticsFacts.removeDiacritics_filter. apply sublist_filter.
  - intros Hnone. unfold getTextToProcess. rewrite Hnone.
    by destruct (diacriticsVisible s).
  - repeat split. destruct s as [dv hw h ed dp he]. unfold toggleDiacritics.
    simpl. by rewrite negb_involutive.
Qed.

Lemma export_text_witness :
  let s := toggleDiacritics
             (edit [0x0643; 0x064E; 0x0640; 0x062A]%N mount) in
  Forall (fun c => ~ Diacritics.is_stripped c) (getTextToProcess s).
Proof.
  intros s. apply Forall_forall. refine (proj1 (export_text s) _). reflexivity.
Defined.

End EditingFacts.

(* ===================================================================== *)
(** * Reconstruction: shape of the lines and of the buffer                *)
(* ===================================================================== *)

Module LayoutFacts.
Import JS NumberFacts Reconstruct ReconstructFacts Layout.

Lemma text_total_perm (l1 l2 : list Word) :
  l1 ≡ₚ l2 -> text_total l1 = text_total l2.
Proof. unfold text_total. by intros ->. Qed.

Lemma text_total_app (l1 l2 : list Word) :
  text_total (l1 ++ l2) = (text_total l1 + text_total l2)%nat.
Proof. apply sum_list_with_app. Qed.

(** Whenever the grouping loop returns, it has kept the words and their
    order, and opened no empty line. *)
Lemma group_loop_concat (rest : list Word) (lines r : list (list Word))
    (currentLine : list Word) :
  group_loop rest lines currentLine = Ok r ->
  concat r = concat lines ++ currentLine ++ rest /\
  (Forall (fun line => line <> []) lines -> currentLine <> [] ->
   Forall (fun line => line <> []) r).
Proof.
  revert lines currentLine.
  induction rest as [| word rest IH]; intros lines currentLine;
    cbn [group_loop].
  - intros [= <-]. unfold push. rewrite concat_app. simpl.
    rewrite !app_nil_r. split; [done |].
    intros Hl Hc. apply Forall_app. split; [done | by constructor].
  - destruct (box (get currentLine 0)) as [ref | e]; [| done].
    destruct (box (Some word)) as [wb | e]; [| done].
    cbn [mbind result_bind bind]. destruct (same_line ref wb); intros Hr.
    + destruct (IH _ _ Hr) as [Hc Hne]. unfold push in *.
      split; [by rewrite Hc, <- !app_assoc |].
      intros Hl Hcur. apply Hne; [done |]. by destruct currentLine.
    + destruct (IH _ _ Hr) as [Hc Hne]. unfold push in *.
      split.
      * rewrite Hc, concat_app. simpl. by rewrite app_nil_r, <- !app_assoc.
      * intros Hl Hcur. apply Hne; [| done].
        apply Forall_app. split; [done | by constructor].
Qed.

(** X8.  Grouping neither drops, nor duplicates, nor reorders words: when
    it returns, the lines read one after the other are exactly the words in
    the order the sort by [boundingBox.y] left them; no line is empty and
    there are at most as many lines as words. *)
Theorem lines_partition_sorted_words (words : list Word)
    (lines : list (list Word)) :
  group_lines words = Ok lines ->
  exists sortedWords,
    sort by_y_ascending words = Ok sortedWords /\
    concat lines = sortedWords /\
    concat lines ≡ₚ words /\
    Forall (fun line => line <> []) lines /\
    (length lines <= length words)%nat.
Proof.
  intros Hg.
  assert (Hmain : exists sortedWords,
            sort by_y_ascending words = Ok sortedWords /\
            concat lines = sortedWords /\
            Forall (fun line => line <> []) lines).
  { destruct words as [| w0 ws].
    - injection Hg as <-. exists []. by repeat split.
    - unfold group_lines in Hg.
      destruct (sort by_y_ascending (w0 :: ws)) as [sorted | e] eqn:Hs;
        [| done].
      cbn [mbind result_bind bind] in Hg. exists sorted. split; [done |].
      destruct sorted as [| first rest].
      + injection Hg as <-. by split.
      + destruct (group_loop_concat _ _ _ _ Hg) as [Hc Hne].
        split; [done |]. apply Hne; [constructor | done]. }
  destruct Hmain as (sorted & Hs & Hc & Hne).
  assert (Hperm : concat lines ≡ₚ words)
    by (rewrite Hc; by apply (sort_perm by_y_ascending)).
  exists sorted. split; [done |]. split; [done |]. split; [done |].
  split; [done |].
  rewrite <- (Permutation_length Hperm).
  clear -Hne. induction Hne as [| line lines Hline _ IH]; simpl; [lia |].
  rewrite length_app. destruct line; [done |]. simpl. lia.
Qed.

Lemma lines_partition_sorted_words_witness :
  let a := word_at [65]%N (decimal 3 10) (decimal 5 10) NaN (decimal 5 100) in
  let c := word_at [67]%N (decimal 2 10) (decimal 1 10) NaN (decimal 5 100) in
  exists lines, group_lines [a; c] = Ok lines /\ concat lines = [c; a].
Proof.
  intros a c.
  destruct (group_lines [a; c]) as [lines |] eqn:Hg;
    [| vm_compute in Hg; discriminate Hg].
  exists lines. split; [reflexivity |].
  destruct (lines_partition_sorted_words [a; c] lines Hg)
    as (sorted & Hs & Hc & _).
  rewrite Hc. vm_compute in Hs. by injection Hs as <-.
Defined.

(** The nodes of the words [k], [k+1], ... of a line of [n] words. *)
Lemma line_nodes_length_from (k : nat) (n : Z) (l : list Word) :
  l <> [] -> n = Z.of_nat (k + length l) ->
  (length (concat (imap (fun i w =>
      text w ++ (if (Z.of_nat (k + i) <? n - 1)%Z then [SPACE] else []))
      l)) + 1
   = text_total l + length l)%nat.
Proof.
  revert k. induction l as [| w l IH]; intros k Hne Hn; [done |].
  rewrite imap_cons. cbn [concat]. rewrite !length_app.
  unfold text_total. cbn [sum_list_with length]. fold (text_total l).
  destruct l as [| w' l'].
  - simpl in *. destruct (Z.ltb_spec (Z.of_nat (k + 0)) (n - 1)); [lia |].
    simpl. unfold text_total. simpl. lia.
  - cbn [length] in Hn.
    destruct (Z.ltb_spec (Z.of_nat (k + 0)) (n - 1)); [| lia].
    assert (Hn' : n = Z.of_nat (S k + length (w' :: l')))
      by (cbn [length]; lia).
    specialize (IH (S k) ltac:(done) Hn').
    rewrite (imap_ext _ (fun i w => text w ++
               (if Z.of_nat (S k + i) <? n - 1 then [SPACE] else [])))
      by (intros i x _; unfold compose;
          by replace (k + S i)%nat with (S k + i)%nat by lia).
    cbn [length] in *. lia.
Qed.

Lemma line_nodes_length (line : list Word) :
  line <> [] ->
  (length (concat (line_nodes line)) + 1 = text_total line + length line)%nat.
Proof.
  intros Hne. unfold line_nodes.
  by apply (line_nodes_length_from 0 (Z.of_nat (length line)) line).
Qed.

Lemma render_loop_length (n : Z) (lineIndex : nat)
    (lines : list (list Word)) (nodes : list (list N)) :
  lines <> [] -> Forall (fun line => line <> []) lines ->
  n = Z.of_nat (lineIndex + length lines) ->
  render_loop n lineIndex lines = Ok nodes ->
  (length (concat nodes) + 1
   = text_total (concat lines) + length (concat lines))%nat.
Proof.
  intros Hne Hall. revert lineIndex nodes Hne.
  induction Hall as [| line lines Hline Hlines IH];
    intros lineIndex nodes Hne Hn; [done |].
  cbn [render_loop].
  destruct (sort by_x_descending line) as [sortedLine | e] eqn:Hs; [| done].
  cbn [mbind result_bind bind].
  destruct (render_loop n (S lineIndex) lines) as [rest | e] eqn:Hr; [| done].
  cbn [mbind result_bind bind]. intros [= <-].
  pose proof (sort_perm _ _ _ Hs) as Hperm.
  assert (Hsne : sortedLine <> []).
  { intros ->. apply Permutation_nil_l in Hperm. by subst line. }
  pose proof (line_nodes_length sortedLine Hsne) as Hl.
  rewrite (text_total_perm _ _ Hperm), (Permutation_length Hperm) in Hl.
  cbn [concat]. rewrite !concat_app, !length_app, text_total_app.
  destruct lines as [| line' lines'].
  - simpl in Hr. injection Hr as <-. simpl length in Hn.
    destruct (Z.ltb_spec (Z.of_nat lineIndex) (n - 1)); [lia |].
    change (text_total (concat [])) with 0%nat. simpl. lia.
  - cbn [length] in Hn.
    assert (Hn' : n = Z.of_nat (S lineIndex + length (line' :: lines')))
      by (cbn [length]; lia).
    specialize (IH (S lineIndex) rest ltac:(done) Hn' Hr).
    destruct (Z.ltb_spec (Z.of_nat lineIndex) (n - 1)); [| lia].
    change (length (concat [[NEWLINE]])) with 1%nat. lia.
Qed.

(** The nodes of a line, read together: the texts of its words with one
    space between each two. *)
Lemma line_nodes_join_from (k : nat) (n : Z) (l : list Word) :
  n = Z.of_nat (k + length l) ->
  concat (imap (fun i w =>
      text w ++ (if (Z.of_nat (k + i) <? n - 1)%Z then [SPACE] else [])) l)
  = Text.join [SPACE] (map text l).
Proof.
  revert k. induction l as [| w l IH]; intros k Hn; [done |].
  rewrite imap_cons. cbn [concat map].
  destruct l as [| w' l'].
  - simpl in *. destruct (Z.ltb_spec (Z.of_nat (k + 0)) (n - 1)); [lia |].
    by rewrite !app_nil_r.
  - cbn [length] in Hn.
    destruct (Z.ltb_spec (Z.of_nat (k + 0)) (n - 1)); [| lia].
    assert (Hn' : n = Z.of_nat (S k + length (w' :: l')))
      by (cbn [length]; lia).
    specialize (IH (S k) Hn').
    rewrite (imap_ext _ (fun i w => text w ++
               (if Z.of_nat (S k + i) <? n - 1 then [SPACE] else [])))
      by (intros i x _; unfold compose;
          by replace (k + S i)%nat with (S k + i)%nat by lia).
    rewrite IH. change (Text.join [SPACE] (text w :: map text (w' :: l')))
      with (text w ++ [SPACE] ++ Text.join [SPACE] (map text (w' :: l'))).
    by rewrite <- app_assoc.
Qed.

Lemma line_nodes_join (line : list Word) :
  concat (line_nodes line) = Text.join [SPACE] (map text line).
Proof.
  unfold line_nodes.
  by apply (line_nodes_join_from 0 (Z.of_nat (length line)) line).
Qed.

(** The nodes of the lines, read together: the lines, each sorted right to
    left, with one newline between each two. *)
Lemma render_loop_join (n : Z) (lineIndex : nat)
    (lines : list (list Word)) (nodes : list (list N)) :
  n = Z.of_nat (lineIndex + length lines) ->
  render_loop n lineIndex lines = Ok nodes ->
  exists sortedLines,
    Forall2 (fun line sortedLine => sort by_x_descending line = Ok sortedLine)
            lines sortedLines /\
    concat nodes
    = Text.join [NEWLINE]
        (map (fun sortedLine => Text.join [SPACE] (map text sortedLine))
             sortedLines).
Proof.
  revert lineIndex nodes.
  induction lines as [| line lines IH]; intros lineIndex nodes Hn;
    cbn [render_loop].
  - intros [= <-]. exists []. by split.
  - destruct (sort by_x_descending line) as [sortedLine | e] eqn:Hs; [| done].
    cbn [mbind result_bind bind].
    destruct (render_loop n (S lineIndex) lines) as [rest | e] eqn:Hr;
      [| done].
    cbn [mbind result_bind bind]. intros [= <-].
    cbn [length] in Hn.
    destruct (IH (S lineIndex) rest ltac:(lia) Hr) as (sortedLines & Hall & Hc).
    exists (sortedLine :: sortedLines). split; [by constructor |].
    rewrite !concat_app, line_nodes_join, Hc.
    destruct Hall as [| line' sortedLine' lines' sortedLines' Hs' Hall'].
    + destruct (Z.ltb_spec (Z.of_nat lineIndex) (n - 1));
        [cbn [length] in Hn; lia |].
      simpl. by rewrite app_nil_r.
    + destruct (Z.ltb_spec (Z.of_nat lineIndex) (n - 1));
        [| cbn [length] in Hn; lia].
      reflexivity.
Qed.

(** X9.  When the reconstruction returns, the buffer is the lines of the
    grouping, each sorted right to left by the sort on [boundingBox.x],
    written one after the other: inside a line one space stands between each
    two consecutive words, one newline stands between each two consecutive
    lines, and nothing else is added, before, between or after.  So every
    word but the last of the buffer is followed by exactly one separator:
    the buffer of a non-empty word list has as many code units as all the
    texts together plus the number of words minus one; the empty word list
    gives the empty buffer. *)
Theorem buffer_length (words : list Word) (buffer : jsstring) :
  reconstruct words = Ok buffer ->
  (exists lines sortedLines,
     group_lines words = Ok lines /\
     Forall2 (fun line sortedLine =>
                sort by_x_descending line = Ok sortedLine)
             lines sortedLines /\
     Forall (fun sortedLine => sortedLine <> []) sortedLines /\
     concat sortedLines ≡ₚ words /\
     buffer
     = Text.join [NEWLINE]
         (map (fun sortedLine => Text.join [SPACE] (map text sortedLine))
              sortedLines)) /\
  (words = [] -> buffer = []) /\
  (words <> [] ->
   (length buffer + 1 = text_total words + length words)%nat).
Proof.
  unfold reconstruct.
  destruct (group_lines words) as [lines | e] eqn:Hg; [| done].
  cbn [mbind result_bind bind].
  destruct (render_loop (Z.of_nat (length lines)) 0 lines) as [nodes | e]
    eqn:Hr; [| done].
  cbn [mbind result_bind bind]. intros [= <-].
  destruct (lines_partition_sorted_words words lines Hg)
    as (sorted & _ & _ & Hperm & Hne & _).
  split; [| split].
  - destruct (render_loop_join _ 0 lines nodes eq_refl Hr)
      as (sortedLines & Hall & Hc).
    exists lines, sortedLines. split; [done |]. split; [done |].
    split; [| split; [| exact Hc]].
    + clear -Hall Hne. induction Hall as [| l sl ls sls Hs _ IH];
        [constructor |].
      apply Forall_cons in Hne as [Hl Hls]. constructor; [| by apply IH].
      intros ->. apply sort_perm, Permutation_nil_l in Hs. done.
    + rewrite <- Hperm. clear -Hall.
      induction Hall as [| l sl ls sls Hs _ IH]; [done |].
      simpl. by rewrite IH, (sort_perm _ _ _ Hs).
  - intros ->. apply Permutation_nil_r in Hperm.
    destruct lines as [| line lines'].
    + simpl in Hr. by injection Hr as <-.
    + apply Forall_cons in Hne as [Hline _]. simpl in Hperm.
      by destruct line.
  - intros Hw. unfold innerText.
    rewrite <- (text_total_perm _ _ Hperm), <- (Permutation_length Hperm).
    apply (render_loop_length (Z.of_nat (length lines)) 0 lines); try done.
    intros ->. simpl in Hperm. apply Permutation_nil_l in Hperm. done.
Qed.

Lemma buffer_length_witness :
  let a := word_at [65; 97]%N (decimal 3 10) (decimal 5 10) NaN
             (decimal 5 100) in
  let c := word_at [67]%N (decimal 2 10) (decimal 1 10) NaN (decimal 5 100) in
  exists buffer, reconstruct [a; c; a] = Ok buffer /\
                 buffer = [67; 10; 65; 97; 32; 65; 97]%N /\
                 (length buffer + 1 = 5 + 3)%nat.
Proof.
  intros a c.
  destruct (reconstruct [a; c; a]) as [buffer |] eqn:Hr;
    [| vm_compute in Hr; discriminate Hr].
  exists buffer. split; [reflexivity |].
  split; [vm_compute in Hr; by injection Hr as <- |].
  refine (proj2 (proj2 (buffer_length [a; c; a] buffer Hr)) _). discriminate.
Defined.

(** ** Reference heights that attract nothing *)

(** A product whose sign is negative is never above an absolute value. *)
Lemma round_negative_not_above (d : number) (m : Z) (e : Z) (l : location) :
  lt (Math_abs d) (binary_round_aux prec emax true m e l) = false.
Proof.
  unfold binary_round_aux.
  destruct (shr_fexp prec emax m e l) as [mrs' e'].
  destruct (shr_fexp prec emax _ e' loc_Exact) as [mrs'' e''].
  destruct (shr_m mrs'') as [| p | p];
    [| destruct (e'' <=? emax - prec) |];
    by destruct d as [? | ? | | ? ? ?].
Qed.

Lemma centerY_plus_infinity (b : BoundingBox) :
  height b = S754_infinity false ->
  centerY b = S754_infinity false \/ centerY b = NaN.
Proof.
  intros Hh. unfold centerY. rewrite Hh.
  destruct (y b) as [? | [ | ] | | ? ? ?]; simpl; first [by left | by right].
Qed.

(** X10.  Only a positive finite reference height attracts words: when the
    height of the line's reference word is zero, negative, infinite or NaN
    (a missing field), the test of line 253 fails for every next word, which
    therefore starts a new line; the same holds when the [y] or the height
    of either word is NaN. *)
Theorem degenerate_geometry_never_groups (ref wb : BoundingBox) :
  (~ attracting (height ref) -> same_line ref wb = false) /\
  (y ref = NaN \/ y wb = NaN \/ height wb = NaN -> same_line ref wb = false).
Proof.
  split.
  - intros Hna. unfold same_line, threshold, attracting, classify in *.
    destruct (height ref) as [s | [ | ] | | [ | ] m e] eqn:Hh.
    + exact (abs_not_below_zero _ (xorb s false)).
    + by destruct (distance ref wb) as [? | [ | ] | | ? ? ?].
    + destruct (centerY_plus_infinity ref Hh) as [Hc | Hc];
        unfold distance; rewrite Hc;
        by destruct (centerY wb) as [? | [ | ] | | ? ? ?].
    + by destruct (distance ref wb) as [? | [ | ] | | ? ? ?].
    + unfold distance.
      exact (round_negative_not_above _ (Zpos (m * 6305039478318694))
               (e + -53) loc_Exact).
    + exfalso. apply Hna. cbn [SFclassify].
      destruct (Z.pos (digits2_pos m) =? prec); first [by left | by right].
  - unfold same_line, distance, centerY.
    intros [-> | [-> | ->]]; simpl.
    + by destruct (add (y wb) (div (height wb) lit_2)) as [? | ? | | ? ? ?].
    + done.
    + by destruct (y wb) as [? | ? | | ? ? ?].
Qed.

Lemma degenerate_geometry_never_groups_witness :
  let ref := {| x := decimal 3 10; y := decimal 5 10; width := decimal 1 10;
                height := S754_finite true 4503599627370496 (-57) |} in
  let wb := {| x := decimal 1 10; y := decimal 5 10; width := decimal 1 10;
               height := decimal 5 100 |} in
  same_line ref wb = false.
Proof.
  intros ref wb.
  refine (proj1 (degenerate_geometry_never_groups ref wb) _).
  unfold attracting. vm_compute. intros [H | H]; discriminate H.
Defined.

End LayoutFacts.

(* ===================================================================== *)
(** * Extraction modes                                                    *)
(* ===================================================================== *)

Module ModesFacts.
Import JS Text Modes.

Lemma includes_spec (modes : list ExtractionMode) (mode : ExtractionMode) :
  includes modes mode = true <-> mode ∈ modes.
Proof. unfold includes. apply bool_decide_eq_true. Qed.

Lemma handleModeChange_unfold (mode : ExtractionMode)
    (prevModes : list ExtractionMode) :
  mode <> All ->
  handleModeChange mode prevModes =
    let newModes := toggle_list mode prevModes in
    if (length newModes =? 0)%nat then [All]
    else if includes newModes Arabic && includes newModes Foreign
            && includes newModes Numbers
    then [All] else newModes.
Proof.
  intros Hm. unfold handleModeChange. rewrite decide_False by done.
  fold (toggle_list mode prevModes). cbv zeta. unfold granularOptions.
  cbn [forallb]. by rewrite andb_true_r, andb_assoc.
Qed.

Lemma toggle_list_spec (mode : ExtractionMode)
    (prevModes : list ExtractionMode) (m : ExtractionMode) :
  mode <> All ->
  m ∈ toggle_list mode prevModes <-> toggled mode prevModes m.
Proof.
  intros Hm. unfold toggle_list, toggled. cbv zeta.
  destruct (includes (filter (fun m => m <> All) prevModes) mode) eqn:Hin.
  - apply includes_spec in Hin. rewrite list_elem_of_filter in Hin.
    rewrite !list_elem_of_filter.
    destruct (decide (m = mode)) as [-> | Hne]; intuition congruence.
  - assert (Hnot : mode ∉ prevModes).
    { intros Hp. apply not_true_iff_false in Hin. apply Hin, includes_spec.
      by apply list_elem_of_filter. }
    unfold push. rewrite elem_of_app, list_elem_of_filter, list_elem_of_singleton.
    destruct (decide (m = mode)) as [-> | Hne]; intuition congruence.
Qed.

Lemma toggle_list_NoDup (mode : ExtractionMode)
    (prevModes : list ExtractionMode) :
  NoDup prevModes -> NoDup (toggle_list mode prevModes).
Proof.
  intros Hnd. unfold toggle_list. cbv zeta.
  destruct (includes (filter (fun m => m <> All) prevModes) mode) eqn:Hin.
  - by do 2 apply NoDup_filter.
  - unfold push. apply NoDup_app. split; [by apply NoDup_filter |].
    split; [| apply NoDup_singleton].
    intros m Hm ->%list_elem_of_singleton.
    apply not_true_iff_false in Hin. by apply Hin, includes_spec.
Qed.

Lemma handleModeChange_consistent (mode : ExtractionMode)
    (prevModes : list ExtractionMode) :
  NoDup prevModes -> consistent (handleModeChange mode prevModes).
Proof.
  intros Hnd. destruct (decide (mode = All)) as [-> | Hm]; [by left |].
  rewrite handleModeChange_unfold by done. cbv zeta.
  set (newModes := toggle_list mode prevModes).
  destruct (Nat.eqb_spec (length newModes) 0) as [Hlen | Hlen]; [by left |].
  destruct (includes newModes Arabic && includes newModes Foreign
            && includes newModes Numbers) eqn:Hfull; [by left |].
  right. split; [by destruct newModes |]. split; [| split].
  - intros Hall. apply toggle_list_spec in Hall; [| done]. by destruct Hall.
  - by apply toggle_list_NoDup.
  - intros (Ha & Hf & Hn). apply includes_spec in Ha, Hf, Hn.
    by rewrite Ha, Hf, Hn in Hfull.
Qed.

Lemma consistent_NoDup (modes : list ExtractionMode) :
  consistent modes -> NoDup modes.
Proof. intros [-> | (_ & _ & Hnd & _)]; [apply NoDup_singleton | done]. Qed.

(** X11.  Whatever buttons of the selector are clicked, starting from the
    initial selection, the selection is never empty, never holds a kind
    twice, holds 'all' only alone, and never holds the three kinds together
    (that selection is replaced by 'all'). *)
Theorem selector_stays_consistent (clicked : list ExtractionMode) :
  consistent (clicks initial clicked) /\
  clicks initial clicked <> [] /\
  (All ∈ clicks initial clicked -> clicks initial clicked = [All]).
Proof.
  assert (Hc : forall modes, consistent modes -> consistent (clicks modes clicked)).
  { induction clicked as [| mode clicked IH]; intros modes Hm; [done |].
    simpl. apply IH, handleModeChange_consistent. by apply consistent_NoDup. }
  specialize (Hc initial ltac:(by left)).
  split; [exact Hc |].
  destruct Hc as [-> | (Hne & Hall & _)]; [by split | by split].
Qed.

Lemma selector_stays_consistent_witness :
  clicks initial [Arabic; Numbers; Foreign] = [All] /\
  clicks initial [Arabic; Numbers; Arabic] = [Numbers].
Proof.
  split; [| reflexivity].
  apply (proj2 (proj2 (selector_stays_consistent [Arabic; Numbers; Foreign]))).
  vm_compute. left.
Defined.

(** X12.  A click on 'all' selects 'all' alone.  A click on one of the three
    kinds toggles that kind among the kinds selected before and keeps the
    others; the outcome is 'all' alone exactly when that leaves no kind or
    all three kinds selected, and is the toggled selection otherwise. *)
Theorem handleModeChange_toggles (mode : ExtractionMode)
    (prevModes : list ExtractionMode) :
  mode <> All ->
  let newModes := handleModeChange mode prevModes in
  handleModeChange All prevModes = [All] /\
  (newModes = [All] <->
     (forall m, ~ toggled mode prevModes m) \/
     (toggled mode prevModes Arabic /\ toggled mode prevModes Foreign /\
      toggled mode prevModes Numbers)) /\
  (newModes <> [All] -> forall m, m ∈ newModes <-> toggled mode prevModes m).
Proof.
  intros Hm newModes. split; [done |].
  unfold newModes. rewrite handleModeChange_unfold by done. cbv zeta.
  set (l := toggle_list mode prevModes).
  assert (Hspec : forall m, m ∈ l <-> toggled mode prevModes m)
    by (intros m; by apply toggle_list_spec).
  assert (Hno : l <> [All]).
  { intros Heq. assert (Hin : All ∈ l) by (rewrite Heq; left).
    apply Hspec in Hin. by destruct Hin. }
  destruct (Nat.eqb_spec (length l) 0) as [Hlen | Hlen].
  { split; [| done]. split; [| done]. intros _. left. intros m Ht.
    apply Hspec in Ht. destruct l; [by apply elem_of_nil in Ht | done]. }
  destruct (includes l Arabic && includes l Foreign && includes l Numbers)
    eqn:Hfull.
  { split; [| done]. split; [| done]. intros _. right.
    apply andb_true_iff in Hfull as [Haf Hn].
    apply andb_true_iff in Haf as [Ha Hf].
    apply includes_spec in Ha, Hf, Hn. by rewrite <- !Hspec. }
  split; [| done]. split; [done |].
  intros [Hnone | (Ha & Hf & Hn)].
  - destruct l as [| m l']; [done |]. exfalso. apply (Hnone m), Hspec. left.
  - apply Hspec, includes_spec in Ha, Hf, Hn. by rewrite Ha, Hf, Hn in Hfull.
Qed.

Lemma handleModeChange_toggles_witness :
  Forall (toggled Foreign [Arabic]) (handleModeChange Foreign [Arabic]).
Proof.
  apply Forall_forall. intros m.
  refine (proj1 (proj2 (proj2 (handleModeChange_toggles Foreign [Arabic] _))
                   _ m)); discriminate.
Defined.

Lemma includes_ext (modes1 modes2 : list ExtractionMode) :
  (forall m, m ∈ modes1 <-> m ∈ modes2) ->
  forall mode, includes modes1 mode = includes modes2 mode.
Proof. intros H mode. unfold includes. apply bool_decide_ext, H. Qed.

Lemma empty_ext (modes1 modes2 : list ExtractionMode) :
  (forall m, m ∈ modes1 <-> m ∈ modes2) ->
  (length modes1 =? 0)%nat = (length modes2 =? 0)%nat.
Proof.
  intros H. destruct modes1 as [| a l1], modes2 as [| b l2]; try done.
  - exfalso. apply (elem_of_nil b), H. left.
  - exfalso. apply (elem_of_nil a), H. left.
Qed.

(** X13.  The prompt sent to the service depends only on which modes are
    selected, not on the order in which they were clicked nor on repeats:
    two mode lists with the same members give the same extraction
    instruction and the same decision on font analysis.  For a consistent
    selection the instruction is the "extract all" sentence exactly when
    'all' is selected, and font analysis is skipped exactly when neither
    'all' nor Arabic is selected. *)
Theorem prompt_depends_on_members (modes1 modes2 : list ExtractionMode) :
  (forall m, m ∈ modes1 <-> m ∈ modes2) ->
  extractionInstruction modes1 = extractionInstruction modes2 /\
  isFontAnalysisNeeded modes1 = isFontAnalysisNeeded modes2 /\
  (consistent modes1 ->
     (extractionInstruction modes1
        = str "Extract all text content found in the image."
      <-> modes1 = [All]) /\
     (isFontAnalysisNeeded modes1 = false
      <-> modes1 <> [All] /\ Arabic ∉ modes1)).
Proof.
  intros Hext. pose proof (includes_ext _ _ Hext) as Hinc.
  pose proof (empty_ext _ _ Hext) as Hemp.
  split; [| split].
  - unfold extractionInstruction. by rewrite Hemp, !Hinc.
  - unfold isFontAnalysisNeeded. by rewrite Hemp, !Hinc.
  - intros [-> | (Hne & Hall & _ & _)].
    { split; [by split |]. split; [discriminate |]. by intros [H _]. }
    assert (HA : includes modes1 All = false).
    { apply not_true_iff_false. by rewrite includes_spec. }
    assert (HE : (length modes1 =? 0)%nat = false) by by destruct modes1.
    split.
    + unfold extractionInstruction. rewrite HE, HA. cbn [orb]. cbv zeta.
      split; [| by intros ->].
      destruct (includes modes1 Arabic), (includes modes1 Foreign),
               (includes modes1 Numbers); intros H; vm_compute in H;
        discriminate H.
    + unfold isFontAnalysisNeeded. rewrite HE, HA. cbn [orb].
      rewrite <- not_true_iff_false, includes_spec.
      split; [intros H; split; [| done] | by intros [_ H]].
      intros ->. by apply Hall; left.
Qed.

Lemma prompt_depends_on_members_witness :
  extractionInstruction [Numbers; Arabic]
    = extractionInstruction [Arabic; Numbers; Arabic].
Proof.
  refine (proj1 (prompt_depends_on_members [Numbers; Arabic]
                   [Arabic; Numbers; Arabic] _)).
  intros m. rewrite !elem_of_cons. rewrite !elem_of_nil. tauto.
Defined.

End ModesFacts.

(* ===================================================================== *)
(** * More facts about the zoom controls                                  *)
(* ===================================================================== *)

Module ZoomStepFacts.
Import JS Zoom ZoomFacts.

Lemma reachable_steps (scale : number) :
  scale ∈ reachable_scales ->
  le scale (handleZoomIn scale) = true /\
  le (handleZoomOut scale) scale = true /\
  (handleZoomIn scale = scale -> scale = lit_5) /\
  (handleZoomOut scale = scale -> scale = lit_0_5) /\
  repeat_zoom handleZoomIn 13 scale = lit_5 /\
  repeat_zoom handleZoomOut 13 scale = lit_0_5 /\
  (handleZoomIn scale <> lit_5 -> handleZoomOut (handleZoomIn scale) = scale).
Proof.
  revert scale. apply Forall_forall.
  apply (bool_decide_unpack _). vm_compute. exact I.
Qed.

(** X14.  At every scale that clicks can produce from 1: zooming in never
    lowers the scale and zooming out never raises it; a zoom-in leaves the
    scale unchanged only at 5 and a zoom-out only at 0.5; thirteen clicks on
    one button always end exactly at that button's limit; and a zoom-in that
    does not reach 5 is undone exactly by the next zoom-out.  The converse
    fails: after nine zoom-ins and four zoom-outs, a zoom-out that stays
    above 0.5 followed by a zoom-in gives a different scale. *)
Theorem zoom_steps (actions : list action) :
  let scale := foldl act lit_1 actions in
  le scale (handleZoomIn scale) = true /\
  le (handleZoomOut scale) scale = true /\
  (handleZoomIn scale = scale <-> scale = lit_5) /\
  (handleZoomOut scale = scale <-> scale = lit_0_5) /\
  repeat_zoom handleZoomIn 13 scale = lit_5 /\
  repeat_zoom handleZoomOut 13 scale = lit_0_5 /\
  (handleZoomIn scale <> lit_5 -> handleZoomOut (handleZoomIn scale) = scale) /\
  (let s := foldl act lit_1 (replicate 9 ZoomIn ++ replicate 4 ZoomOut) in
   handleZoomOut s <> lit_0_5 /\ handleZoomIn (handleZoomOut s) <> s).
Proof.
  intros scale.
  destruct (reachable_steps scale) as (H1 & H2 & H3 & H4 & H5 & H6 & H7).
  { apply foldl_act_reachable, reachable_start. }
  split; [done |]. split; [done |].
  split; [split; [done | by intros ->] |].
  split; [split; [done | by intros ->] |].
  split; [done |]. split; [done |]. split; [done |].
  split; apply (bool_decide_unpack _); vm_compute; exact I.
Qed.

Lemma zoom_steps_witness : handleZoomOut (handleZoomIn lit_1) = lit_1.
Proof.
  refine (proj1 (proj2 (proj2 (proj2 (proj2 (proj2 (proj2 (zoom_steps [])))))))
            _).
  vm_compute. discriminate.
Defined.

End ZoomStepFacts.

(* ===================================================================== *)
(** * Facts about the viewer                                              *)
(* ===================================================================== *)

Module ViewerFacts.
Import JS Viewer.

Lemma mouse_calls_keep_scale (props : ZoomState) (s : t) (e : event)
    (st : ZoomState) :
  is_mouse e = true ->
  scale (foldl modal_call st (snd (handle props s e))) = scale st.
Proof.
  destruct e; try discriminate; intros _; cbn [handle snd foldl]; try done.
  unfold handleMouseMove. by destruct (isDragging s).
Qed.

Lemma idle_mouse_event (props : ZoomState) (s : t) (e : event) :
  is_mouse e = true -> is_left_press e = false -> isDragging s = false ->
  snd (handle props s e) = [] /\ isDragging (fst (handle props s e)) = false.
Proof.
  destruct e; try discriminate; intros _ Hpress Hdrag; cbn in *.
  - unfold handleMouseDown. by rewrite Hpress.
  - unfold handleMouseMove. by rewrite Hdrag.
  - done.
  - done.
Qed.

(** X15.  In the zoom modal, pointer events alone never change the scale,
    and they change nothing at all while no drag is under way: from a viewer
    that is not dragging, a run of pointer events without a press of the
    primary button leaves scale and position as they are and the viewer not
    dragging (so a press of another button starts no drag, and moves after a
    release or a leave do not pan). *)
Theorem pointer_only_pans_while_dragging (es : list event)
    (st : ZoomState) (s : t) :
  forallb is_mouse es = true ->
  scale (fst (modal_run (st, s) es)) = scale st /\
  (isDragging s = false -> forallb (fun e => negb (is_left_press e)) es = true ->
   fst (modal_run (st, s) es) = st /\
   isDragging (snd (modal_run (st, s) es)) = false).
Proof.
  revert st s. induction es as [| e es IH]; intros st s Hm; [done |].
  cbn [forallb] in Hm. apply andb_true_iff in Hm as [He Hes].
  unfold modal_run. cbn [foldl]. fold (modal_run (modal_step (st, s) e) es).
  unfold modal_step. cbn [fst snd].
  pose proof (mouse_calls_keep_scale st s e st He) as Hsc.
  destruct (handle st s e) as [s' calls] eqn:Hh. cbn [fst snd] in Hsc.
  destruct (IH (foldl modal_call st calls) s' Hes) as [IH1 IH2].
  split; [by rewrite IH1 |].
  intros Hdrag Hno. cbn [forallb] in Hno.
  apply andb_true_iff in Hno as [Hp Hno]. apply negb_true_iff in Hp.
  destruct (idle_mouse_event st s e He Hp Hdrag) as [Hnil Hd].
  rewrite Hh in Hnil, Hd. cbn [fst snd] in Hnil, Hd. subst calls.
  by apply IH2.
Qed.

Lemma pointer_only_pans_while_dragging_witness :
  let es := [MouseDown 2 (ofZ 10) (ofZ 10); MouseMove (ofZ 50) (ofZ 70);
             MouseUp; MouseMove (ofZ 5) (ofZ 5)] in
  fst (modal_run (unzoomed, mount) es) = unzoomed.
Proof.
  intros es.
  refine (proj1 (proj2 (pointer_only_pans_while_dragging es unzoomed mount _)
                   _ _)); reflexivity.
Defined.

Lemma modal_run_cons (st : ZoomState * t) (e : event) (es : list event) :
  modal_run st (e :: es) = modal_run (modal_step st e) es.
Proof. done. Qed.

Lemma modal_run_app (st : ZoomState * t) (es1 es2 : list event) :
  modal_run st (es1 ++ es2) = modal_run (modal_run st es1) es2.
Proof. apply foldl_app. Qed.

Lemma moves_while_dragging (moves : list (number * number))
    (mx my : number) (st : ZoomState) (s : t) :
  isDragging s = true ->
  modal_run (st, s)
    (map (fun m => MouseMove (fst m) (snd m)) moves ++ [MouseMove mx my])
  = ({| scale := scale st;
        position := {| x := sub mx (x (startPos s));
                       y := sub my (y (startPos s)) |} |}, s).
Proof.
  intros Hdrag. revert st.
  induction moves as [| m moves IH]; intros st.
  - unfold modal_run, modal_step. cbn. unfold handleMouseMove.
    rewrite Hdrag. by destruct s.
  - cbn [map app]. unfold modal_run. cbn [foldl].
    fold (modal_run (modal_step (st, s) (MouseMove (fst m) (snd m)))
            (map (fun m => MouseMove (fst m) (snd m)) moves
             ++ [MouseMove mx my])).
    unfold modal_step. cbn [handle fst snd]. unfold handleMouseMove.
    rewrite Hdrag. cbn [negb foldl modal_call]. by rewrite IH.
Qed.

(** X16.  In the zoom modal a drag follows the pointer and does not depend
    on the path: after a press of the primary button at (cx, cy), any moves,
    a last move to (mx, my) and the release, the position is, in each
    coordinate, the last pointer coordinate minus the offset fixed at the
    press (press coordinate minus the position at the press), the scale is
    unchanged and the viewer no longer drags. *)
Theorem drag_follows_pointer (moves : list (number * number))
    (cx cy mx my : number) (st : ZoomState) (s : t) :
  let offset := {| x := sub cx (x (position st));
                   y := sub cy (y (position st)) |} in
  modal_run (st, s)
    (MouseDown 0 cx cy
       :: map (fun m => MouseMove (fst m) (snd m)) moves
       ++ [MouseMove mx my; MouseUp])
  = ({| scale := scale st;
        position := {| x := sub mx (x offset); y := sub my (y offset) |} |},
     {| isDragging := false; startPos := offset |}).
Proof.
  intros offset.
  change [MouseMove mx my; MouseUp] with ([MouseMove mx my] ++ [MouseUp]).
  rewrite app_assoc, modal_run_cons, modal_run_app.
  replace (modal_step (st, s) (MouseDown 0 cx cy))
    with (st, {| isDragging := true; startPos := offset |}) by done.
  by rewrite moves_while_dragging.
Qed.

End ViewerFacts.

(* ===================================================================== *)
(** * Facts about the gallery                                             *)
(* ===================================================================== *)

Module GalleryFacts.
Import JS Text Reconstruct Gallery.

Lemma has_id_spec (id' : jsstring) (img : ImageState) :
  has_id id' img = true <-> id img = id'.
Proof. unfold has_id. apply bool_decide_eq_true. Qed.

Lemma find_id_Some (id' : jsstring) (images : list ImageState)
    (img : ImageState) :
  find_id id' images = Some img -> img ∈ images /\ id img = id'.
Proof.
  intros H. apply find_some in H as [Hin Hid].
  split; [by apply list_elem_of_In | by apply has_id_spec].
Qed.

Lemma find_id_is_Some (id' : jsstring) (images : list ImageState) :
  id' ∈ map id images -> is_Some (find_id id' images).
Proof.
  intros Hin. destruct (find_id id' images) as [img |] eqn:Hf; [done |].
  exfalso. apply list_elem_of_fmap in Hin as (img & -> & Hin).
  apply list_elem_of_In in Hin.
  pose proof (find_none _ _ Hf img Hin) as Hn.
  apply not_true_iff_false in Hn. by apply Hn, has_id_spec.
Qed.

Lemma find_id_None (id' : jsstring) (images : list ImageState) :
  id' ∉ map id images -> find_id id' images = None.
Proof.
  intros Hnot. destruct (find_id id' images) as [img |] eqn:Hf; [| done].
  exfalso. apply find_id_Some in Hf as [Hin Hid]. apply Hnot.
  apply list_elem_of_fmap. by exists img.
Qed.

Lemma update_ids (id' : jsstring) (g : ImageState -> ImageState)
    (images : list ImageState) :
  (forall img, id img = id' -> id (g img) = id') ->
  map id (update id' g images) = map id images.
Proof.
  intros Hg. unfold update. rewrite map_map. apply map_ext_in.
  intros img _. destruct (has_id id' img) eqn:Hid; [| done].
  apply has_id_spec in Hid. by rewrite Hg.
Qed.

Lemma find_id_update (id' : jsstring) (g : ImageState -> ImageState)
    (images : list ImageState) :
  (forall img, id img = id' -> id (g img) = id') ->
  find_id id' (update id' g images) = g <$> find_id id' images.
Proof.
  intros Hg. unfold find_id, update.
  induction images as [| img images IH]; [done |].
  cbn [map List.find]. destruct (has_id id' img) eqn:Hid.
  - assert (Hid' : has_id id' (g img) = true).
    { apply has_id_spec, Hg. by apply has_id_spec. }
    by rewrite Hid'.
  - by rewrite Hid.
Qed.

Lemma Forall_update (P : ImageState -> Prop) (id' : jsstring)
    (g : ImageState -> ImageState) (images : list ImageState) :
  (forall img, P img -> P (g img)) ->
  Forall P images -> Forall P (update id' g images).
Proof.
  intros Hg Hall. unfold update. apply Forall_fmap.
  eapply Forall_impl; [exact Hall |]. intros img Himg. cbn.
  destruct (has_id id' img); [by apply Hg | done].
Qed.

Lemma sync_images (s : t) : images (sync s) = images s.
Proof.
  unfold sync. destruct (selectedImage s) as [sel |]; [| done].
  by destruct (find_id (id sel) (images s)).
Qed.

(** ** Stored results have words *)

Lemma sync_has_words (s : t) : all_have_words s -> all_have_words (sync s).
Proof.
  intros [Himgs Hsel]. unfold sync.
  assert (Hsame : all_have_words s) by by split.
  destruct (selectedImage s) as [sel |] eqn:Hs; [| done].
  destruct (find_id (id sel) (images s)) as [u |] eqn:Hf; [| done].
  split; [done |]. cbn. intros ? [= <-].
  apply find_id_Some in Hf as [Hin _].
  exact (proj1 (Forall_forall _ _) Himgs _ Hin).
Qed.

Ltac fields :=
  unfold handleImageUpload, select, handleRemoveImage, clearAll,
    handleZoomChange, handleAnalyze_begin, handleAnalyze_rejected;
  cbn [images selectedImage].

Lemma handle_has_words (e : event) (s : t) :
  card_rendered s e -> all_have_words s -> all_have_words (handle e s).
Proof.
  intros He [Himgs Hsel].
  destruct e as [seen ups | img | id' | | z | rendered id' | ita r | id' msg];
    cbn [handle].
  - split; fields.
    + apply Forall_app. split; [done |]. unfold newImages.
      apply Forall_forall. intros img Hin.
      apply elem_of_lookup_imap in Hin as (i & u & -> & _). done.
    + destruct seen; [done |]. intros sel Hh.
      apply head_Some_elem_of in Hh.
      apply elem_of_lookup_imap in Hh as (i & u & -> & _). done.
  - split; [done |]. fields. intros ? [= <-].
    exact (proj1 (Forall_forall _ _) Himgs _ He).
  - split; fields.
    + apply Forall_forall. intros img [_ Hin]%list_elem_of_filter.
      exact (proj1 (Forall_forall _ _) Himgs _ Hin).
    + destruct (selectedImage s) as [sel |]; [| done].
      destruct (has_id id' sel); [| by intros ? [= <-]; apply Hsel].
      destruct (1 <? length (images s))%nat; [| done].
      intros img Hf. apply find_some in Hf as [Hin _].
      apply list_elem_of_In in Hin.
      exact (proj1 (Forall_forall _ _) Himgs _ Hin).
  - by split.
  - destruct (selectedImage s) as [sel |] eqn:Hs;
      [| split; [done | by intros ?; rewrite Hs]].
    split; fields; [| by rewrite Hs].
    by apply (Forall_update has_words).
  - destruct (imageToAnalyze rendered id'); [| by split].
    split; [| done]. fields. by apply (Forall_update has_words).
  - unfold handleAnalyze_fulfilled. destruct (no_words r) eqn:Hr.
    + split; [| done]. fields. by apply (Forall_update has_words).
    + split; fields.
      * by apply (Forall_update has_words _ (fun _ => updatedImage ita r)).
      * destruct (selectedImage s) as [cur |]; [| by intros ? [= <-]].
        destruct (has_id (id ita) cur); intros ? [= <-]; [done |].
        by apply Hsel.
  - split; [| done]. fields. by apply (Forall_update has_words).
Qed.

(** X17.  Whatever happens in the gallery (uploads, selections of rendered
    cards, removals, zooming, analyses that start, end well or fail, in any
    order), every analysis result it stores, for a gallery image or for the
    selection, has at least one word: the result view never receives an
    empty or absent word list. *)
Theorem stored_results_have_words (es : list event) :
  along card_rendered mount es ->
  (forall img r, img ∈ images (run mount es) -> result img = Some r ->
     exists w ws, words r = Some (w :: ws)) /\
  (forall sel r, selectedImage (run mount es) = Some sel ->
     result sel = Some r -> exists w ws, words r = Some (w :: ws)).
Proof.
  intros Hes.
  assert (H : all_have_words (run mount es)).
  { assert (Hm : all_have_words mount) by (split; [constructor | done]).
    revert Hes Hm. generalize mount as s.
    induction es as [| e es IH]; intros s Hes Hs; [done |].
    destruct Hes as [He Hes]. cbn. apply IH; [done |].
    by apply sync_has_words, handle_has_words. }
  assert (Hw : forall img r, has_words img -> result img = Some r ->
                 exists w ws, words r = Some (w :: ws)).
  { intros img r Hh Hr. unfold has_words in Hh. rewrite Hr in Hh.
    unfold no_words in Hh. destruct (words r) as [[| w ws] |]; try done.
    by exists w, ws. }
  destruct H as [Himgs Hsel]. split.
  - intros img r Hin. apply Hw. exact (proj1 (Forall_forall _ _) Himgs _ Hin).
  - intros sel r Hs. by apply Hw, Hsel.
Qed.

Lemma stored_results_have_words_witness :
  let img := {| id := str "7-0"; file := {| name := str "a.png"; type := str "image/png" |};
                previewUrl := str "data:image/jpeg;base64,AA"; result := None;
                isLoading := false; error := None; zoomState := None |} in
  let r := {| words := Some []; identifiedFontName := str "N/A";
              similarFonts := None |} in
  let es := [Uploaded None [(7, {| upload_file := file img;
                                   upload_previewUrl := previewUrl img |})];
             AnalysisStarted [img] (str "7-0"); AnalysisFulfilled img r] in
  Forall (fun img => forall r', result img = Some r' ->
                     exists w ws, words r' = Some (w :: ws))
         (images (run mount es)).
Proof.
  intros img r es. apply Forall_forall. intros img' Hin r'.
  refine (proj1 (stored_results_have_words es _) img' r' Hin).
  repeat split.
Defined.

(** ** The selection stays in the gallery *)

Lemma sync_selection (s : t) :
  selection_listed s -> selection_in_gallery (sync s).
Proof.
  intros Hs. unfold sync, selection_in_gallery.
  destruct (selectedImage s) as [sel |] eqn:Hsel; [| by rewrite Hsel].
  destruct (find_id_is_Some _ _ (Hs sel Hsel)) as [u Hu].
  rewrite Hu. cbn [selectedImage images].
  destruct (find_id_Some _ _ _ Hu) as [_ Hid]. by rewrite Hid.
Qed.

Lemma selection_in_gallery_listed (s : t) :
  selection_in_gallery s -> selection_listed s.
Proof.
  unfold selection_in_gallery. intros Hs sel Hsel. rewrite Hsel in Hs.
  apply find_id_Some in Hs as [Hin _]. apply list_elem_of_fmap. by exists sel.
Qed.

Lemma handle_selection (e : event) (s : t) :
  card_rendered s e -> answer_awaited s e ->
  selection_listed s -> selection_listed (handle e s).
Proof.
  intros Hc Ha Hs.
  destruct e as [seen ups | img | id' | | z | rendered id' | ita r | id' msg];
    cbn [handle].
  - intros sel. fields. rewrite map_app, elem_of_app.
    destruct seen; [by left; apply Hs |].
    intros Hh%head_Some_elem_of. right. apply list_elem_of_fmap. by exists sel.
  - intros sel. fields. intros [= <-]. apply list_elem_of_fmap. by exists img.
  - intros sel. fields.
    destruct (selectedImage s) as [cur |] eqn:Hcur; [| done].
    destruct (has_id id' cur) eqn:Hid.
    + destruct (1 <? length (images s))%nat; [| done].
      intros Hf. apply find_some in Hf as [Hin Hne].
      apply list_elem_of_fmap. exists sel. split; [done |].
      apply list_elem_of_filter. split; [| by apply list_elem_of_In].
      apply negb_true_iff, not_true_iff_false in Hne.
      by rewrite has_id_spec in Hne.
    + intros [= <-]. specialize (Hs cur Hcur).
      apply list_elem_of_fmap in Hs as (img & Himg & Hin).
      apply list_elem_of_fmap. exists img. split; [done |].
      apply list_elem_of_filter. split; [| done].
      apply not_true_iff_false in Hid. rewrite has_id_spec in Hid. congruence.
  - done.
  - destruct (selectedImage s) as [cur |] eqn:Hcur;
      [| by intros ?; rewrite Hcur].
    intros sel. fields. rewrite Hcur. intros [= <-].
    fold (update (id cur) (fun img =>
            {| id := id img; file := file img; previewUrl := previewUrl img;
               result := result img; isLoading := isLoading img;
               error := error img; zoomState := Some z |}) (images s)).
    rewrite update_ids by done. by apply Hs.
  - destruct (imageToAnalyze rendered id'); [| done].
    intros sel. fields.
    fold (update id' (fun img =>
            {| id := id img; file := file img; previewUrl := previewUrl img;
               result := None; isLoading := true; error := None;
               zoomState := zoomState img |}) (images s)).
    rewrite update_ids by done. apply Hs.
  - unfold handleAnalyze_fulfilled. destruct (no_words r).
    + intros sel. fields.
      fold (update (id ita) (fun img =>
              {| id := id img; file := file img;
                 previewUrl := previewUrl img; result := result img;
                 isLoading := false;
                 error := Some (str "Could not detect text in the image. Please try a different image.");
                 zoomState := zoomState img |}) (images s)).
      rewrite update_ids by done. apply Hs.
    + intros sel. fields.
      fold (update (id ita) (fun _ => updatedImage ita r) (images s)).
      rewrite update_ids by done.
      destruct (selectedImage s) as [cur |] eqn:Hcur.
      * destruct (has_id (id ita) cur); intros [= <-]; [done |].
        by apply Hs.
      * by intros [= <-].
  - intros sel. fields.
    fold (update id' (fun img =>
            {| id := id img; file := file img; previewUrl := previewUrl img;
               result := result img; isLoading := false; error := Some msg;
               zoomState := zoomState img |}) (images s)).
    rewrite update_ids by done. apply Hs.
Qed.

(** X18.  As long as cards are clicked as rendered and every analysis that
    ends well belongs to an image still in the gallery, the selection is
    never stale: after every event and the render that follows it, the
    selected image, if any, is the gallery's own first entry with that id,
    so the result view shows what the gallery holds. *)
Theorem selection_tracks_gallery (es : list event) :
  along card_rendered mount es -> along answer_awaited mount es ->
  selection_in_gallery (run mount es).
Proof.
  assert (Hm : selection_in_gallery mount) by done.
  revert Hm. generalize mount as s.
  induction es as [| e es IH]; intros s Hs Hc Ha; [done |].
  destruct Hc as [Hc Hcs], Ha as [Ha Has]. cbn [run foldl].
  apply IH; [| done | done].
  by apply sync_selection, handle_selection, selection_in_gallery_listed.
Qed.

Lemma selection_tracks_gallery_witness :
  let up := {| upload_file := {| name := str "a.png"; type := str "image/png" |};
               upload_previewUrl := str "data:image/jpeg;base64,AA" |} in
  let es := [Uploaded None [(7, up); (7, up)]; Removed (str "7-0")] in
  selection_in_gallery (run mount es) /\
  (id <$> selectedImage (run mount es)) = Some (str "7-1").
Proof.
  intros up es. split; [| reflexivity].
  apply (selection_tracks_gallery es); repeat split.
Defined.

Lemma find_id_filter_out (id' : jsstring) (images : list ImageState) :
  find_id id' (filter (fun img => id img <> id') images) = None.
Proof.
  apply find_id_None. intros (img & Hid & Hin)%list_elem_of_fmap.
  apply list_elem_of_filter in Hin as [Hne _]. by apply Hne.
Qed.

(** X19.  An analysis that ends well after its image was removed brings the
    image back as the selection: if nothing else holds the selection (nothing
    is selected, or the image is the only one of the gallery), then after
    the removal and the arrival of a result with words the removed image is
    selected with that result, although no gallery entry has its id. *)
Theorem late_answer_selects_removed_image (s : t) (img : ImageState)
    (r : AnalysisResult) :
  selection_in_gallery s -> img ∈ images s -> no_words r = false ->
  selectedImage s = None \/ images s = [img] ->
  let s' := run s [Removed (id img); AnalysisFulfilled img r] in
  selectedImage s' = Some (updatedImage img r) /\
  (id img ∉ map id (images s')) /\
  ~ selection_in_gallery s'.
Proof.
  intros Hinv Hin Hr Hcase s'.
  assert (Hrem : step s (Removed (id img))
                 = {| images := filter (fun i => id i <> id img) (images s);
                      selectedImage := None |}).
  { unfold step. cbn [handle]. unfold handleRemoveImage.
    destruct Hcase as [Hnone | Hone].
    - by rewrite Hnone.
    - unfold selection_in_gallery in Hinv.
      destruct (selectedImage s) as [sel |]; [| done].
      rewrite Hone in Hinv |- *.
      apply find_id_Some in Hinv as [->%list_elem_of_singleton _].
      assert (Hid : has_id (id img) img = true) by by apply has_id_spec.
      by rewrite Hid. }
  assert (Hs' : s' = {| images := filter (fun i => id i <> id img) (images s);
                        selectedImage := Some (updatedImage img r) |}).
  { unfold s', run. cbn [foldl]. rewrite Hrem. unfold step. cbn [handle].
    unfold handleAnalyze_fulfilled. rewrite Hr. cbn [images selectedImage].
    unfold sync. cbn [images selectedImage updatedImage id].
    fold (update (id img) (fun _ => updatedImage img r)
            (filter (fun i => id i <> id img) (images s))).
    assert (Hnone : find_id (id img)
              (update (id img) (fun _ => updatedImage img r)
                 (filter (fun i => id i <> id img) (images s))) = None).
    { rewrite find_id_update by done. by rewrite find_id_filter_out. }
    rewrite Hnone. f_equal. unfold update. rewrite <- (map_id (filter _ _)) at 2.
    apply map_ext_in. intros i Hi%list_elem_of_In.
    apply list_elem_of_filter in Hi as [Hne _].
    destruct (has_id (id img) i) eqn:Hid; [| done].
    by apply has_id_spec in Hid. }
  rewrite Hs'. cbn [images selectedImage]. split; [done |].
  assert (Hnot : id img ∉ map id (filter (fun i => id i <> id img) (images s))).
  { intros (i & Hid & Hi)%list_elem_of_fmap.
    apply list_elem_of_filter in Hi as [Hne _]. by apply Hne. }
  split; [done |].
  unfold selection_in_gallery. cbn [images selectedImage updatedImage id].
  by rewrite find_id_filter_out.
Qed.

Lemma late_answer_selects_removed_image_witness :
  let up := {| upload_file := {| name := str "a.png"; type := str "image/png" |};
               upload_previewUrl := str "data:image/jpeg;base64,AA" |} in
  let uploaded := run mount [Uploaded None [(7, up)]] in
  let s := run uploaded [AnalysisStarted (images uploaded) (str "7-0")] in
  let img := {| id := str "7-0"; file := upload_file up;
                previewUrl := upload_previewUrl up; result := None;
                isLoading := true; error := None; zoomState := None |} in
  let r := {| words := Some [{| text := str "a"; boundingBox := None |}];
              identifiedFontName := str "N/A"; similarFonts := None |} in
  images (run s [Removed (id img); AnalysisFulfilled img r]) = [] /\
  selectedImage (run s [Removed (id img); AnalysisFulfilled img r])
    = Some (updatedImage img r).
Proof.
  intros up uploaded s img r. split; [reflexivity |].
  refine (proj1 (late_answer_selects_removed_image s img r _ _ _ _)).
  - reflexivity.
  - left.
  - reflexivity.
  - right. reflexivity.
Defined.

(** X20.  Removing the selected image moves the selection to the first
    image that remains in the gallery, or clears it when none remains;
    removing another image leaves the selection alone.  In both cases every
    image with the removed id is gone and the other images keep their
    order. *)
Theorem removal_moves_selection (s : t) (id' : jsstring)
    (sel : ImageState) :
  selectedImage s = Some sel -> selection_in_gallery s ->
  let s' := step s (Removed id') in
  images s' = filter (fun img => id img <> id') (images s) /\
  selectedImage s' = (if has_id id' sel then head (images s') else Some sel).
Proof.
  intros Hsel Hinv s'.
  assert (Himgs : images s' = filter (fun img => id img <> id') (images s))
    by (unfold s', step; by rewrite sync_images).
  split; [done |]. rewrite Himgs.
  unfold selection_in_gallery in Hinv. rewrite Hsel in Hinv.
  destruct (find_id_Some _ _ _ Hinv) as [Hin _].
  unfold s', step. cbn [handle]. unfold handleRemoveImage. rewrite Hsel.
  assert (Hfind : forall l,
            List.find (fun img => negb (has_id id' img)) l
            = head (filter (fun img => id img <> id') l)).
  { induction l as [| a l IH]; [done |]. cbn [List.find].
    rewrite filter_cons. unfold has_id at 1.
    destruct (decide (id a <> id')) as [Hne | Heq].
    - by rewrite bool_decide_eq_false_2.
    - apply dec_stable in Heq. by rewrite bool_decide_eq_true_2. }
  destruct (has_id id' sel) eqn:Hid.
  - assert (Hnew : (if (1 <? length (images s))%nat
                    then List.find (fun img => negb (has_id id' img)) (images s)
                    else None)
                   = head (filter (fun img => id img <> id') (images s))).
    { destruct (Nat.ltb_spec 1 (length (images s))) as [Hlen | Hlen];
        [apply Hfind |].
      destruct (images s) as [| a [| b l]]; [done | | cbn in Hlen; lia].
      apply list_elem_of_singleton in Hin as <-. apply has_id_spec in Hid.
      rewrite filter_cons. by rewrite decide_False by (intros Hne; by apply Hne). }
    rewrite Hnew. unfold sync. cbn [selectedImage images].
    destruct (head (filter _ (images s))) as [h |] eqn:Hh; [| done].
    assert (Hf : find_id (id h) (filter (fun img => id img <> id') (images s))
                 = Some h).
    { destruct (filter (fun img => id img <> id') (images s)) as [| a l];
        [done |]. injection Hh as ->. unfold find_id. cbn [List.find].
      by rewrite (proj2 (has_id_spec (id h) h)). }
    by rewrite Hf.
  - unfold sync. cbn [selectedImage images].
    assert (Hf : find_id (id sel) (filter (fun img => id img <> id') (images s))
                 = Some sel).
    { apply not_true_iff_false in Hid. rewrite has_id_spec in Hid.
      clear Hin Himgs. unfold find_id in *.
      induction (images s) as [| a l IH]; [done |].
      cbn [List.find] in Hinv. rewrite filter_cons.
      destruct (has_id (id sel) a) eqn:Ha.
      - injection Hinv as ->. rewrite decide_True by done.
        cbn [List.find]. by rewrite Ha.
      - destruct (decide (id a <> id')); [| by apply IH].
        cbn [List.find]. rewrite Ha. by apply IH. }
    by rewrite Hf.
Qed.

Lemma removal_moves_selection_witness :
  let up name := {| upload_file := {| name := name; type := str "image/png" |};
                    upload_previewUrl := str "data:image/jpeg;base64,AA" |} in
  let s := run mount [Uploaded None [(7, up (str "a")); (7, up (str "b"));
                                     (7, up (str "c"))]] in
  (name ∘ file <$> selectedImage (step s (Removed (str "7-0"))))
    = Some (str "b").
Proof.
  intros up s.
  destruct (selectedImage s) as [sel |] eqn:Hsel;
    [| vm_compute in Hsel; discriminate Hsel].
  rewrite (proj2 (removal_moves_selection s (str "7-0") sel Hsel
                    ltac:(vm_compute; reflexivity))).
  vm_compute in Hsel. injection Hsel as <-. vm_compute. reflexivity.
Defined.

(** ** Zooming the selection *)

Lemma handleZoomChange_update (id' : jsstring) (z : Viewer.ZoomState)
    (s : t) :
  handleZoomChange id' z s
  = {| images := update id' (with_zoom z) (images s);
       selectedImage := selectedImage s |}.
Proof. done. Qed.

Lemma shown_zoom_after_changes (s : t) (sel : ImageState)
    (z1 z2 : Viewer.ZoomState) :
  selectedImage s = Some sel -> selection_in_gallery s ->
  shown_zoom
    (sync (handleZoomChange (id sel) z2 (handleZoomChange (id sel) z1 s)))
  = Some z2.
Proof.
  intros Hsel Hinv. unfold selection_in_gallery in Hinv. rewrite Hsel in Hinv.
  rewrite !handleZoomChange_update. unfold sync. cbn [images selectedImage].
  rewrite Hsel, !find_id_update by done. by rewrite Hinv.
Qed.

Lemma shown_zoom_after_change (s : t) (sel : ImageState)
    (z : Viewer.ZoomState) :
  selectedImage s = Some sel -> selection_in_gallery s ->
  shown_zoom (sync (handleZoomChange (id sel) z s)) = Some z.
Proof.
  intros Hsel Hinv. unfold selection_in_gallery in Hinv. rewrite Hsel in Hinv.
  rewrite !handleZoomChange_update. unfold sync. cbn [images selectedImage].
  rewrite Hsel, !find_id_update by done. by rewrite Hinv.
Qed.

(** X21.  In the result view the reset button resets the pan but not the
    scale: its two callbacks each replace the whole stored zoom state by a
    copy of the rendered one with one field changed, so the second undoes
    the first, and the view shows the old scale at position (0, 0).  The
    zoom-in button does change the shown scale, and in the zoom modal, whose
    scale and position are separate states, the same button gives scale 1
    at (0, 0). *)
Theorem reset_in_result_view (s : t) (v : Viewer.t) (sel : ImageState) :
  selectedImage s = Some sel -> selection_in_gallery s ->
  let rendered := Viewer.zoomState (zoomState sel) in
  shown_zoom (fst (result_view_event Viewer.ClickReset (s, v)))
    = Some {| Viewer.scale := Viewer.scale rendered;
              Viewer.position := Viewer.origin |} /\
  shown_zoom (fst (result_view_event Viewer.ClickZoomIn (s, v)))
    = Some {| Viewer.scale := Zoom.handleZoomIn (Viewer.scale rendered);
              Viewer.position := Viewer.position rendered |} /\
  fst (Viewer.modal_step (rendered, v) Viewer.ClickReset) = Viewer.unzoomed.
Proof.
  intros Hsel Hinv rendered. split; [| split].
  - unfold result_view_event. cbn [fst snd]. rewrite Hsel.
    cbn [Viewer.handle Viewer.handleReset foldl fst Viewer.onZoomChange_arg].
    by rewrite shown_zoom_after_changes.
  - unfold result_view_event. cbn [fst snd]. rewrite Hsel.
    cbn [Viewer.handle Viewer.handleZoomIn foldl fst Viewer.onZoomChange_arg].
    by rewrite shown_zoom_after_change.
  - done.
Qed.

Lemma reset_in_result_view_witness :
  let up := {| upload_file := {| name := str "a.png"; type := str "image/png" |};
               upload_previewUrl := str "data:image/jpeg;base64,AA" |} in
  let s := run mount [Uploaded None [(7, up)]] in
  let zoomed := fst (result_view_event Viewer.ClickZoomIn (s, Viewer.mount)) in
  (Viewer.scale <$> shown_zoom zoomed) = Some lit_1_2 /\
  (Viewer.scale <$>
     shown_zoom (fst (result_view_event Viewer.ClickReset
                        (zoomed, Viewer.mount)))) = Some lit_1_2.
Proof.
  intros up s zoomed. split; [vm_compute; reflexivity |].
  destruct (selectedImage zoomed) as [sel |] eqn:Hsel;
    [| vm_compute in Hsel; discriminate Hsel].
  rewrite (proj1 (reset_in_result_view zoomed Viewer.mount sel Hsel
                    ltac:(vm_compute; reflexivity))).
  vm_compute in Hsel. injection Hsel as <-. vm_compute. reflexivity.
Defined.

(** ** Ids *)

Lemma str_inj (s1 s2 : String.string) : str s1 = str s2 -> s1 = s2.
Proof.
  unfold str. intros H.
  rewrite <- (string_of_list_ascii_of_string s1),
          <- (string_of_list_ascii_of_string s2).
  f_equal. revert H. generalize (list_ascii_of_string s1) as l1.
  generalize (list_ascii_of_string s2) as l2.
  induction l2 as [| c2 l2 IH]; intros [| c1 l1]; try done.
  cbn [map]. intros [= Hc Hl]. f_equal; [| by apply IH].
  by rewrite <- (ascii_N_embedding c1), <- (ascii_N_embedding c2), Hc.
Qed.

Lemma string_of_uint_inj (d1 d2 : Decimal.uint) :
  NilEmpty.string_of_uint d1 = NilEmpty.string_of_uint d2 -> d1 = d2.
Proof.
  revert d2. induction d1; intros [] [=]; f_equal; auto.
Qed.

Lemma digits_inj (n1 n2 : N) : digits n1 = digits n2 -> n1 = n2.
Proof.
  intros H%str_inj. apply Unsigned.to_uint_inj.
  assert (Hnz : forall n, NilZero.string_of_uint (N.to_uint n)
                          = NilEmpty.string_of_uint (N.to_uint n)).
  { intros [| p]; [done |]. cbn [N.to_uint].
    pose proof (DecimalPos.Unsigned.to_uint_nonnil p).
    by destruct (Pos.to_uint p). }
  rewrite !Hnz in H. by apply string_of_uint_inj.
Qed.

Lemma digits_are_digits (n : N) (c : codeunit) :
  c ∈ digits n -> (48 <= c <= 57)%N.
Proof.
  unfold digits, NilZero.string_of_uint.
  assert (H : forall d, c ∈ str (NilEmpty.string_of_uint d) ->
                        (48 <= c <= 57)%N).
  { induction d; cbn [NilEmpty.string_of_uint str list_ascii_of_string map];
      intros Hin; try (by apply elem_of_nil in Hin);
      (apply elem_of_cons in Hin as [-> | Hin];
       [split; by vm_compute | by apply IHd]). }
  destruct (N.to_uint n); try apply H.
  intros ->%list_elem_of_singleton. split; by vm_compute.
Qed.

Lemma no_hyphen_in_digits (n : N) : HYPHEN ∉ digits n.
Proof. intros Hin%digits_are_digits. unfold HYPHEN in Hin. lia. Qed.

Lemma of_int_inj (z1 z2 : Z) : of_int z1 = of_int z2 -> z1 = z2.
Proof.
  unfold of_int.
  destruct (Z.ltb_spec z1 0) as [H1 | H1], (Z.ltb_spec z2 0) as [H2 | H2];
    intros Heq.
  - injection Heq as Hd. apply digits_inj in Hd. lia.
  - exfalso. apply (no_hyphen_in_digits (Z.to_N z2)). rewrite <- Heq. left.
  - exfalso. apply (no_hyphen_in_digits (Z.to_N z1)). rewrite Heq. left.
  - apply digits_inj in Heq. lia.
Qed.

Lemma split_at_first {A} (x : A) (a1 a2 b1 b2 : list A) :
  x ∉ a1 -> x ∉ a2 -> a1 ++ x :: b1 = a2 ++ x :: b2 -> a1 = a2 /\ b1 = b2.
Proof.
  revert a2. induction a1 as [| y a1 IH]; intros [| z a2] H1 H2 H.
  - by injection H as ->.
  - injection H as -> _. exfalso. apply H2. left.
  - injection H as -> _. exfalso. apply H1. left.
  - injection H as -> H. apply not_elem_of_cons in H1 as [_ H1].
    apply not_elem_of_cons in H2 as [_ H2].
    destruct (IH a2 H1 H2 H) as [-> ->]. done.
Qed.

Lemma new_id_inj (now1 now2 : Z) (index1 index2 : nat) :
  new_id now1 index1 = new_id now2 index2 ->
  now1 = now2 /\ index1 = index2.
Proof.
  unfold new_id. intros H. apply (f_equal reverse) in H.
  rewrite !reverse_app in H. change (reverse (str "-")) with [HYPHEN] in H.
  rewrite <- !app_assoc in H. cbn [app] in H.
  apply split_at_first in H as [Hi Ht].
  - apply (f_equal reverse) in Hi, Ht. rewrite !reverse_involutive in Hi, Ht.
    apply digits_inj in Hi. apply of_int_inj in Ht. lia.
  - rewrite elem_of_reverse. apply no_hyphen_in_digits.
  - rewrite elem_of_reverse. apply no_hyphen_in_digits.
Qed.

Lemma newImages_ids (uploads : list (Z * Upload)) (i : nat)
    (img : ImageState) :
  newImages uploads !! i = Some img ->
  exists u, uploads !! i = Some u /\ id img = new_id (fst u) i.
Proof.
  unfold newImages. rewrite list_lookup_imap_Some.
  intros (u & Hu & ->). by exists u.
Qed.

Lemma newImages_NoDup (uploads : list (Z * Upload)) :
  NoDup (map id (newImages uploads)).
Proof.
  apply NoDup_alt. intros i j x Hi Hj.
  change (map id (newImages uploads)) with (id <$> newImages uploads) in *.
  rewrite list_lookup_fmap in Hi, Hj.
  destruct (newImages uploads !! i) as [a |] eqn:Ha; [| done].
  destruct (newImages uploads !! j) as [b |] eqn:Hb; [| done].
  injection Hi as Hi. injection Hj as Hj.
  apply newImages_ids in Ha as (u & _ & Hu).
  apply newImages_ids in Hb as (w & _ & Hw).
  assert (H : new_id (fst u) i = new_id (fst w) j) by congruence.
  by apply new_id_inj in H as [_ H].
Qed.

Lemma handle_ids_NoDup (e : event) (s : t) :
  clock_advanced s e ->
  NoDup (map id (images s)) -> NoDup (map id (images (handle e s))).
Proof.
  intros Hc Hnd.
  destruct e as [seen ups | img | id' | | z | rendered id' | ita r | id' msg];
    cbn [handle].
  - fields. rewrite map_app. apply NoDup_app. split; [done |].
    split; [| apply newImages_NoDup].
    intros x (img & -> & Himg)%list_elem_of_fmap
             (new & Hid & Hnew)%list_elem_of_fmap.
    apply list_elem_of_lookup in Hnew as (i & Hi).
    apply newImages_ids in Hi as (u & Hu & Hnewid).
    apply (Hc img u); [done | by eapply list_elem_of_lookup_2 |].
    exists i. congruence.
  - done.
  - fields. clear Hc. induction (images s) as [| img l IH]; [done |].
    cbn [map] in Hnd. apply NoDup_cons in Hnd as [Hnot Hnd].
    rewrite filter_cons. destruct (decide (id img <> id')); [| by apply IH].
    cbn [map]. apply NoDup_cons. split; [| by apply IH].
    intros (i & Hid & Hi)%list_elem_of_fmap.
    apply list_elem_of_filter in Hi as [_ Hi]. apply Hnot.
    apply list_elem_of_fmap. by exists i.
  - fields. cbn. constructor.
  - destruct (selectedImage s) as [sel |]; [| done].
    rewrite handleZoomChange_update. cbn [images].
    by rewrite update_ids.
  - destruct (imageToAnalyze rendered id'); [| done].
    fields.
    change (NoDup (map id (update id' (fun img =>
            {| id := id img; file := file img; previewUrl := previewUrl img;
               result := None; isLoading := true; error := None;
               zoomState := zoomState img |}) (images s)))).
    by rewrite update_ids.
  - unfold handleAnalyze_fulfilled. destruct (no_words r).
    + fields.
      change (NoDup (map id (update (id ita) (fun img =>
              {| id := id img; file := file img;
                 previewUrl := previewUrl img; result := result img;
                 isLoading := false;
                 error := Some (str "Could not detect text in the image. Please try a different image.");
                 zoomState := zoomState img |}) (images s)))).
      by rewrite update_ids.
    + fields.
      change (NoDup (map id (update (id ita) (fun _ => updatedImage ita r)
                               (images s)))).
      by rewrite update_ids.
  - fields.
    change (NoDup (map id (update id' (fun img =>
            {| id := id img; file := file img; previewUrl := previewUrl img;
               result := result img; isLoading := false; error := Some msg;
               zoomState := zoomState img |}) (images s)))).
    by rewrite update_ids.
Qed.

Lemma upload_collision (now : Z) (u1 u2 : Upload)
    (rest1 rest2 : list (Z * Upload)) (seen1 seen2 : option ImageState)
    (s : t) :
  ~ NoDup (map id (images
       (handleImageUpload seen2 ((now, u2) :: rest2)
          (handleImageUpload seen1 ((now, u1) :: rest1) s)))).
Proof.
  fields. rewrite !map_app. intros Hnd.
  apply NoDup_app in Hnd as (_ & Hdisj & _).
  apply (Hdisj (new_id now 0)); [apply elem_of_app; right |]; left.
Qed.

(** X22.  An id determines the clock reading and the index it was built
    from, so the images of one upload always get pairwise distinct ids,
    whatever the clock does; and as long as each upload reads the clock at
    values no id of the gallery was built from, no two images of the gallery
    ever share an id, through any sequence of events.  Two uploads that
    read the same clock value do give their first images the same id. *)
Theorem gallery_ids_distinct (es : list event) :
  along clock_advanced mount es ->
  NoDup (map id (images (run mount es))) /\
  (forall now1 now2 index1 index2,
     new_id now1 index1 = new_id now2 index2 ->
     now1 = now2 /\ index1 = index2) /\
  (forall uploads, NoDup (map id (newImages uploads))) /\
  (forall now u1 u2 rest1 rest2 seen1 seen2 s,
     ~ NoDup (map id (images
          (handleImageUpload seen2 ((now, u2) :: rest2)
             (handleImageUpload seen1 ((now, u1) :: rest1) s))))).
Proof.
  intros Hes.
  split; [| split; [intros; by apply new_id_inj |
            split; [apply newImages_NoDup | intros; apply upload_collision]]].
  assert (Hm : NoDup (map id (images mount))) by constructor.
  revert Hes Hm. generalize mount as s.
  induction es as [| e es IH]; intros s Hes Hs; [done |].
  destruct Hes as [He Hes]. cbn [run foldl]. apply IH; [done |].
  unfold step. rewrite sync_images. by apply handle_ids_NoDup.
Qed.

Lemma gallery_ids_distinct_witness :
  let up := {| upload_file := {| name := str "a.png"; type := str "image/png" |};
               upload_previewUrl := str "data:image/jpeg;base64,AA" |} in
  let es := [Uploaded None [(7, up); (7, up)]; Uploaded None [(8, up)]] in
  NoDup (map id (images (run mount es))).
Proof.
  intros up es. refine (proj1 (gallery_ids_distinct es _)).
  split; [intros img u Hin; by apply elem_of_nil in Hin |].
  split; [| exact I].
  intros img u Himg ->%list_elem_of_singleton [index Hid].
  assert (H78 : forall i j, new_id 7 i <> new_id 8 j).
  { intros i j Heq. by apply new_id_inj in Heq as [? _]. }
  apply elem_of_cons in Himg as [-> | Himg]; [by apply (H78 0%nat index) |].
  apply list_elem_of_singleton in Himg as ->. by apply (H78 1%nat index).
Defined.

(** ** Loading picked files *)

Lemma settle_all_counting (total : nat) (cs : list settled) (b : batch) :
  (processedCount b < total)%nat ->
  settle_all total b cs =
    if (total - processedCount b <=? length cs)%nat
    then [uploads b ++ loaded (take (total - processedCount b) cs)]
    else [].
Proof.
  assert (Hpast : forall cs b, (total <= processedCount b)%nat ->
                    settle_all total b cs = []).
  { clear. induction cs as [| c cs IH]; intros b Hb; [done |].
    cbn [settle_all settle].
    destruct (Nat.eqb_spec (S (processedCount b)) total); [lia |].
    apply IH. cbn. lia. }
  revert b. induction cs as [| c cs IH]; intros b Hb.
  - cbn [settle_all length]. by destruct (Nat.leb_spec (total - processedCount b) 0); [lia |].
  - cbn [settle_all settle length].
    set (uploads' := match c with
                     | Loaded file url =>
                         push (uploads b)
                           {| upload_file := file; upload_previewUrl := url |}
                     | _ => uploads b
                     end).
    assert (Hup : forall k, uploads b ++ loaded (take (S k) (c :: cs))
                            = uploads' ++ loaded (take k cs)).
    { intros k. cbn [take]. unfold loaded, uploads', push. cbn [omap].
      destruct c; [| done | done]. by rewrite <- app_assoc. }
    destruct (Nat.eqb_spec (S (processedCount b)) total) as [Heq | Hne].
    + rewrite Hpast by (cbn; lia).
      replace (total - processedCount b)%nat with 1%nat by lia.
      cbn [Nat.leb]. rewrite Hup. cbn [take]. unfold loaded. cbn [omap].
      by rewrite app_nil_r.
    + rewrite IH by (cbn; lia). cbn [processedCount uploads].
      replace (total - processedCount b)%nat
        with (S (total - S (processedCount b))) by lia.
      cbn [Nat.leb]. by rewrite Hup.
Qed.

(** X23.  When [processFiles] starts loading, the files it loads are exactly
    the picked files whose type starts with "image/", at least one; and
    whatever the order in which the loads end and however many of them
    fail, the upload callback is called exactly once, when as many loads
    have ended as there are files, with the images that loaded, in the
    order their loads ended; it is not called before that. *)
Theorem upload_called_once (files : option (list File)) (valid : list File)
    (cs : list settled) :
  processFiles files = Loading valid ->
  valid <> [] /\
  (forall file, file ∈ valid <->
     (exists picked, files = Some picked /\ file ∈ picked) /\
     startsWith (type file) (str "image/") = true) /\
  settle_all (length valid) batch_start cs =
    if (length valid <=? length cs)%nat
    then [loaded (take (length valid) cs)] else [].
Proof.
  intros Hp. unfold processFiles in Hp.
  destruct files as [[| f picked] |]; try discriminate.
  destruct (validImageFiles (f :: picked)) as [| v valid'] eqn:Hv;
    [discriminate |].
  injection Hp as <-. split; [done |]. split.
  - intros file. rewrite <- Hv. unfold validImageFiles.
    rewrite list_elem_of_filter. split.
    + intros [Ht Hin]. split; [by exists (f :: picked) | done].
    + intros [(p & [= <-] & Hin) Ht]. done.
  - rewrite settle_all_counting by (cbn; lia). cbn [processedCount uploads].
    by rewrite Nat.sub_0_r.
Qed.

Lemma upload_called_once_witness :
  let png := {| name := str "a.png"; type := str "image/png" |} in
  let txt := {| name := str "b.txt"; type := str "text/plain" |} in
  let jpg := {| name := str "c.jpg"; type := str "image/jpeg" |} in
  settle_all 2 batch_start [Failed jpg; Loaded png (str "data:,")]
  = [[{| upload_file := png; upload_previewUrl := str "data:," |}]].
Proof.
  intros png txt jpg.
  exact (proj2 (proj2 (upload_called_once (Some [png; txt; jpg]) [png; jpg]
                         [Failed jpg; Loaded png (str "data:,")]
                         eq_refl))).
Defined.

(** ** The exported file *)

Lemma trimStart_app (l k : jsstring) :
  forallb is_white_space l = false -> trimStart (l ++ k) = trimStart l ++ k.
Proof.
  induction l as [| c l IH]; [done |]. cbn [forallb app trimStart].
  destruct (is_white_space c); [exact IH | done].
Qed.

Lemma trimStart_all (l k : jsstring) :
  forallb is_white_space l = true -> trimStart (l ++ k) = trimStart k.
Proof.
  induction l as [| c l IH]; [done |]. cbn [forallb app trimStart].
  destruct (is_white_space c); [exact IH | done].
Qed.

Lemma forallb_reverse {A} (p : A -> bool) (l : list A) :
  forallb p (reverse l) = forallb p l.
Proof.
  induction l as [| a l IH]; [done |].
  rewrite reverse_cons, forallb_app, IH. cbn. by rewrite andb_true_r, andb_comm.
Qed.

Lemma trimEnd_app (l k : jsstring) :
  forallb is_white_space k = false -> trimEnd (l ++ k) = l ++ trimEnd k.
Proof.
  intros Hk. unfold trimEnd. rewrite reverse_app, trimStart_app.
  - by rewrite reverse_app, reverse_involutive.
  - by rewrite forallb_reverse.
Qed.

Lemma trimEnd_all (l k : jsstring) :
  forallb is_white_space k = true -> trimEnd (l ++ k) = trimEnd l.
Proof.
  intros Hk. unfold trimEnd. rewrite reverse_app, trimStart_all; [done |].
  by rewrite forallb_reverse.
Qed.

Lemma trimEnd_snoc (l : jsstring) (c : codeunit) :
  is_white_space c = false -> trimEnd (l ++ [c]) = l ++ [c].
Proof.
  intros Hc. unfold trimEnd. rewrite reverse_app. cbn [reverse app].
  change (reverse [c]) with [c]. cbn [app trimStart]. rewrite Hc.
  by rewrite reverse_cons, reverse_involutive.
Qed.

Lemma heading_shape (file : File) (result : AnalysisResult) :
  exists body,
    heading file result = str "Analysis Result" ++ body ++ str "-" ++ [NEWLINE].
Proof.
  unfold heading.
  exists ([NEWLINE] ++ str "================" ++ [NEWLINE] ++
          str "File: " ++ name file ++ [NEWLINE] ++
          str "Font: " ++ identifiedFontName result ++ [NEWLINE; NEWLINE] ++
          str "Similar Fonts" ++ [NEWLINE] ++
          str "-------------" ++ [NEWLINE] ++
          similarFontsText result ++ [NEWLINE; NEWLINE] ++
          str "Extracted Text" ++ [NEWLINE] ++
          str "-------------").
  rewrite <- !app_assoc. repeat f_equal.
Qed.

(** X24.  The file offered for download is named after the image file.
    Trimming never touches the heading's start and
    keeps white space at the start of the edited text: when the edited text
    has a character that is not white space, the file is the heading followed
    by the edited text without its trailing white space; when it has none,
    the file is the heading without its final line break. *)
Theorem download_trims_only_the_end (editedText : jsstring) (s : t)
    (sel : ImageState) (r : AnalysisResult) :
  selectedImage s = Some sel -> result sel = Some r ->
  exists d,
    handleDownload editedText s = Some d /\
    download d = str "analysis_" ++ name (file sel) ++ str ".txt" /\
    blob d =
      if forallb is_white_space editedText
      then removelast (heading (file sel) r)
      else heading (file sel) r ++ trimEnd editedText.
Proof.
  intros Hsel Hr. unfold handleDownload. rewrite Hsel, Hr.
  eexists. split; [done |]. split; [done |]. cbn [blob].
  destruct (heading_shape (file sel) r) as [body Hh]. rewrite Hh.
  unfold trim.
  assert (Hstart : forall rest,
            trimStart ((str "Analysis Result" ++ rest))
            = str "Analysis Result" ++ rest) by done.
  rewrite <- !app_assoc. rewrite Hstart.
  destruct (forallb is_white_space editedText) eqn:Hws.
  - rewrite !app_assoc. rewrite trimEnd_all by done.
    rewrite trimEnd_all by done.
    rewrite removelast_last.
    change (str "-") with [HYPHEN]. by rewrite trimEnd_snoc.
  - replace (str "Analysis Result" ++ body ++ str "-" ++ [NEWLINE] ++ editedText)
      with ((str "Analysis Result" ++ body ++ str "-" ++ [NEWLINE]) ++ editedText)
      by by rewrite <- !app_assoc.
    rewrite trimEnd_app by done. by rewrite <- !app_assoc.
Qed.

Lemma download_trims_only_the_end_witness :
  let r := {| words := Some [{| text := str "a"; boundingBox := None |}];
              identifiedFontName := str "N/A"; similarFonts := None |} in
  let sel := {| id := str "7-0";
                file := {| name := str "a.png"; type := str "image/png" |};
                previewUrl := str "data:image/jpeg;base64,AA";
                result := Some r; isLoading := false; error := None;
                zoomState := None |} in
  let s := {| images := [sel]; selectedImage := Some sel |} in
  exists d, handleDownload (str " a b  ") s = Some d /\
    download d = str "analysis_a.png.txt" /\
    blob d = heading (file sel) r ++ str " a b".
Proof.
  intros r sel s.
  exact (download_trims_only_the_end (str " a b  ") s sel r eq_refl eq_refl).
Defined.

End GalleryFacts.

(* ===================================================================== *)
(** * Facts about the service's answer                                    *)
(* ===================================================================== *)

Module ServiceFacts.
Import JS Text Gallery Service.

Lemma startsWith_app (prefix rest : jsstring) :
  startsWith (prefix ++ rest) prefix = true.
Proof.
  induction prefix as [| c prefix IH]; [by destruct rest |].
  cbn [app startsWith]. by rewrite N.eqb_refl, IH.
Qed.

(** X25.  Every error that [analyzeArabicFont] raises on purpose once the
    service has answered (blocked content, a finish reason, an empty answer,
    an answer that does not parse) carries a message that its own [catch]
    block recognises, so it reaches the caller word for word, whatever the
    finish reason is.  And a result that comes back with the font name
    "N/A" has an empty list of similar fonts, so that the export says that
    no similar fonts were found. *)
Theorem own_errors_reach_the_caller (JSON_parse : jsstring -> parsed)
    (response : Response) :
  (forall errorMessage,
     respond JSON_parse response = inr errorMessage ->
     thrown_again errorMessage = true) /\
  (forall r,
     respond JSON_parse response = inl r ->
     identifiedFontName r = str "N/A" ->
     similarFonts r = Some [] /\
     similarFontsText r = str "No similar fonts were found.").
Proof.
  split.
  - intros msg. unfold respond.
    assert (Hno : thrown_again (no_text_error response) = true).
    { unfold no_text_error.
      destruct (bool_decide (finishReason response = Some (str "SAFETY"))
                || blocked response); [reflexivity |].
      destruct (finishReason response) as [[| c reason] |];
        [reflexivity | | reflexivity].
      unfold thrown_again.
      change (str "Analysis failed. Reason: ")
        with (str "Analysis failed." ++ str " Reason: ").
      rewrite <- app_assoc, startsWith_app. rewrite orb_true_r. reflexivity. }
    destruct (text response) as [[| c t] |]; cbv iota;
      [by intros [= <-] | | by intros [= <-]].
    destruct (JSON_parse (trim (c :: t))); cbv iota; [| by intros [=]].
    intros [= <-]. reflexivity.
  - intros r. unfold respond.
    destruct (text response) as [[| c t] |]; cbv iota;
      [by intros [=] | | by intros [=]].
    destruct (JSON_parse (trim (c :: t))) as [| p]; cbv iota;
      [by intros [=] |].
    intros [= <-]. unfold without_fonts_if_not_applicable.
    destruct (bool_decide (identifiedFontName p = str "N/A")) eqn:Hna.
    + by intros _.
    + apply bool_decide_eq_false in Hna. cbn. done.
Qed.

Lemma own_errors_reach_the_caller_witness :
  thrown_again
    (str "Analysis failed. Reason: MAX_TOKENS. Please try a different image or adjust settings.")
  = true.
Proof.
  refine (proj1 (own_errors_reach_the_caller (fun _ => Raised)
                   {| Service.text := None;
                      finishReason := Some (str "MAX_TOKENS");
                      blocked := false |}) _ _).
  reflexivity.
Defined.

End ServiceFacts.

(* ===================================================================== *)
(** * Facts about the chat                                                *)
(* ===================================================================== *)

Module ChatFacts.
Import JS Text Chat.

Lemma count_app (r : Role) (l k : list Message) :
  count r (l ++ k) = (count r l + count r k)%nat.
Proof. unfold count. by rewrite filter_app, length_app. Qed.

Lemma mounted_orderly (created : bool) : orderly (mounted created).
Proof.
  destruct created; unfold orderly, mounted, initializeChat; cbn;
    repeat split; try done; lia.
Qed.

Lemma mounted_sound (created : bool) : sound (mounted created).
Proof.
  destruct created; unfold sound, mounted, initializeChat; cbn;
    repeat split; try done; by constructor.
Qed.

Lemma count_snoc (r : Role) (l : list Message) (m : Message) :
  count r (l ++ [m])
  = (count r l + (if decide (role m = r) then 1 else 0))%nat.
Proof.
  rewrite count_app. f_equal. unfold count. rewrite filter_cons, filter_nil.
  by destruct (decide (role m = r)).
Qed.

Ltac orderly_goals :=
  unfold orderly;
  cbn [chat messages isLoading greetings_awaited answers_awaited pred];
  repeat split; try done; try lia;
  try (unfold count; simpl; lia);
  try (rewrite !count_snoc; cbn [role];
       repeat case_decide; simplify_eq; lia).

Lemma step_orderly (s : t) (e : event) :
  is_result_change e = false ->
  settles_awaited s e -> orderly s -> orderly (step s e).
Proof.
  intros Hsame He Hs. pose proof Hs as (H1 & H0 & H2 & H3 & H4 & H6).
  destruct e as [created | txt | | value | | txt |];
    cbn [step settles_awaited] in *.
  - discriminate Hsame.
  - destruct (H3 He) as (Hz & Hm & Hc). unfold greeted.
    assert (Hone : greetings_awaited s = 1%nat) by lia.
    rewrite Hz, Hc, Hone. orderly_goals.
  - destruct (H3 He) as (Hz & Hm & Hc). unfold greeting_failed.
    assert (Hone : greetings_awaited s = 1%nat) by lia.
    rewrite Hz, Hm, Hc, Hone. orderly_goals.
  - done.
  - unfold handleSendMessage.
    destruct (bool_decide (trim (userInput s) = [])) eqn:Hblank;
      [exact Hs |].
    destruct (chat s) eqn:Hchat; [| exact Hs].
    destruct (isLoading s) eqn:Hload; [exact Hs |].
    cbn [orb negb]. destruct (H2 eq_refl) as [Hz Hg].
    clear Hs. rewrite Hz, Hg in *. orderly_goals.
  - assert (Hone : answers_awaited s = 1%nat) by lia.
    assert (Hg : greetings_awaited s = 0%nat).
    { destruct (greetings_awaited s); [done |].
      destruct (H3 ltac:(lia)). lia. }
    assert (Hc : chat s = true).
    { destruct (chat s); [done |]. destruct (H4 eq_refl). lia. }
    clear Hs. unfold answered. rewrite Hone, Hg, Hc in *. orderly_goals.
  - assert (Hone : answers_awaited s = 1%nat) by lia.
    assert (Hg : greetings_awaited s = 0%nat).
    { destruct (greetings_awaited s); [done |].
      destruct (H3 ltac:(lia)). lia. }
    assert (Hc : chat s = true).
    { destruct (chat s); [done |]. destruct (H4 eq_refl). lia. }
    clear Hs. unfold unanswered. rewrite Hone, Hg, Hc in *. orderly_goals.
Qed.

Lemma step_sound (s : t) (e : event) :
  settles_awaited s e -> sound s -> sound (step s e).
Proof.
  intros He [Hc Hm].
  destruct e as [[ | ] | txt | | value | | txt |];
    cbn [step settles_awaited] in *.
  - split; [discriminate | exact Hm].
  - split; [exact Hc | exact Hm].
  - split.
    + intros Hf. destruct (Hc Hf) as (_ & _ & Hg). lia.
    + constructor; [discriminate | constructor].
  - split; [| exact Hm].
    intros Hf. destruct (Hc Hf) as (_ & _ & Hg). lia.
  - by split.
  - assert (Hs : sound s) by (by split). unfold handleSendMessage.
    destruct (bool_decide (trim (userInput s) = [])) eqn:Hblank;
      [exact Hs |].
    destruct (chat s) eqn:Hchat; [| exact Hs].
    destruct (isLoading s) eqn:Hload; [exact Hs |].
    apply bool_decide_eq_false in Hblank. cbn [orb negb].
    split; [cbn [chat]; discriminate |]. cbn [messages].
    apply Forall_app. split; [exact Hm |]. by repeat constructor.
  - split.
    + intros Hf. destruct (Hc Hf) as (_ & Ha & _). lia.
    + cbn [answered messages]. apply Forall_app. split; [exact Hm |].
      constructor; [discriminate | constructor].
  - split; [| exact Hm].
    intros Hf. destruct (Hc Hf) as (_ & Ha & _). lia.
Qed.

Lemma chat_run (es : list event) (s : t) :
  same_result es -> chat (run s es) = chat s.
Proof.
  intros Hsame. revert s.
  induction Hsame as [| e es He _ IH]; intros s; [done |].
  cbn [run foldl]. fold (run (step s e) es). rewrite IH.
  destruct e; try done. cbn [step]. unfold handleSendMessage.
  by destruct (bool_decide (trim (userInput s) = []) || negb (chat s)
               || isLoading s).
Qed.

Lemma run_orderly (es : list event) (s : t) :
  same_result es ->
  along settles_awaited s es -> orderly s -> orderly (run s es).
Proof.
  intros Hsame. revert s.
  induction Hsame as [| e es He _ IH]; intros s Hes Hs; [done |].
  destruct Hes as [Hset Hes]. cbn [run foldl]. apply IH; [done |].
  by apply step_orderly.
Qed.

Lemma run_sound (es : list event) (s : t) :
  along settles_awaited s es -> sound s -> sound (run s es).
Proof.
  revert s. induction es as [| e es IH]; intros s Hes Hs; [done |].
  destruct Hes as [He Hes]. cbn [run foldl]. apply IH; [done |].
  by apply step_sound.
Qed.

(** X26.  In a chat whose analysis result stays the same while it is
    mounted, so that the effect of lines 24-42 runs once, requests never
    overlap: whatever is typed, submitted and answered, at most one sent
    message awaits its answer, at most one greeting is awaited, no answer is
    while the greeting is, and whenever the loading flag is off nothing is
    awaited at all; if no chat session could be created, nothing is ever
    sent and the transcript stays empty.  In every chat, nothing is awaited
    and the transcript is empty as long as there is no session.  When the
    result changes in a mounted chat, the effect runs again with the loading
    flag as it is, and requests do overlap: in [result_changed_between] a
    message is sent while the new greeting is awaited, and two sent messages
    await their answers at the end. *)
Theorem chat_requests_never_overlap (created : bool) (es : list event) :
  along settles_awaited (mounted created) es ->
  let s := run (mounted created) es in
  (same_result es ->
     (answers_awaited s <= 1)%nat /\
     (greetings_awaited s <= 1)%nat /\
     ((0 < greetings_awaited s)%nat -> answers_awaited s = 0%nat) /\
     (isLoading s = false ->
        answers_awaited s = 0%nat /\ greetings_awaited s = 0%nat) /\
     (created = false -> messages s = [] /\ answers_awaited s = 0%nat)) /\
  (chat s = false ->
     messages s = [] /\ answers_awaited s = 0%nat /\
     greetings_awaited s = 0%nat) /\
  along settles_awaited (mounted true) result_changed_between /\
  (let s4 := run (mounted true) (take 4 result_changed_between) in
   greetings_awaited s4 = 1%nat /\ answers_awaited s4 = 1%nat) /\
  answers_awaited (run (mounted true) result_changed_between) = 2%nat.
Proof.
  intros Hes s. split; [| split; [| split; [| split]]].
  - intros Hsame.
    destruct (run_orderly es (mounted created) Hsame Hes
                (mounted_orderly created)) as (H1 & H0 & H2 & H3 & H4 & _).
    split; [done |]. split; [done |].
    split; [by intros Hg; destruct (H3 Hg) as (? & _) |].
    split; [done |]. intros ->. apply H4. unfold s. by rewrite chat_run.
  - exact (proj1 (run_sound es (mounted created) Hes (mounted_sound created))).
  - vm_compute. repeat split; lia.
  - split; reflexivity.
  - reflexivity.
Qed.

Lemma chat_requests_never_overlap_witness :
  answers_awaited
    (run (mounted true)
       [Greeted (str "hello"); Typed (str "a"); Submitted; Typed (str "b");
        Submitted]) = 1%nat.
Proof.
  pose proof (chat_requests_never_overlap true
    [Greeted (str "hello"); Typed (str "a"); Submitted; Typed (str "b");
     Submitted]) as H.
  cbv zeta in H. destruct H as [H _]; [vm_compute; repeat split; lia |].
  destruct H as [H _]; [by repeat constructor |].
  revert H. vm_compute. reflexivity.
Defined.

(** X27.  The transcript of a chat.  Every message of the user in it has a
    character that is not white space (a blank input is never sent).  In a
    chat whose analysis result stays the same while it is mounted, the
    answers shown together with the answer still awaited never outnumber the
    user's messages by more than the one greeting.  When the result changes
    in a mounted chat, the greeting of the new session replaces the
    transcript whenever it arrives: in [result_changed_between] it removes
    the message the user has sent and whose answer is still awaited. *)
Theorem chat_transcript (created : bool) (es : list event) :
  along settles_awaited (mounted created) es ->
  let s := run (mounted created) es in
  Forall (fun m => role m = user -> trim (text m) <> []) (messages s) /\
  (same_result es ->
     (count model (messages s) + answers_awaited s
      <= count user (messages s) + 1)%nat) /\
  (let s4 := run (mounted true) (take 4 result_changed_between) in
   let s5 := run (mounted true) (take 5 result_changed_between) in
   messages s4 = [{| role := model; text := str "hello" |};
                  {| role := user; text := str "a" |}] /\
   messages s5 = [{| role := model; text := str "hello again" |}] /\
   answers_awaited s5 = 1%nat /\ isLoading s5 = false).
Proof.
  intros Hes s. split; [| split].
  - exact (proj2 (run_sound es (mounted created) Hes (mounted_sound created))).
  - intros Hsame.
    by destruct (run_orderly es (mounted created) Hsame Hes
                   (mounted_orderly created)) as (_ & _ & _ & _ & _ & H6).
  - repeat split; reflexivity.
Qed.

Lemma chat_transcript_witness :
  Forall (fun m => role m = user -> trim (text m) <> [])
    (messages (run (mounted true)
                 [Greeted (str "hello"); Typed (str "  "); Submitted;
                  Typed (str " a "); Submitted; Answered (str "b")])) /\
  count user
    (messages (run (mounted true)
                 [Greeted (str "hello"); Typed (str "  "); Submitted;
                  Typed (str " a "); Submitted; Answered (str "b")]))
  = 1%nat.
Proof.
  split; [| reflexivity].
  refine (proj1 (chat_transcript true
    [Greeted (str "hello"); Typed (str "  "); Submitted;
     Typed (str " a "); Submitted; Answered (str "b")] _)).
  vm_compute. repeat split; lia.
Defined.

End ChatFacts.
